(** * syncforge: the schema and data diff engines of package [database]

    A shallow embedding of [database/table_browser.go] (schema snapshots,
    [CompareSchemas], [compareTableStructure], [buildColumnDef]) and of
    [database/data_sync.go] ([quoteIdentifier], [getTableData],
    [CompareTableData], [rowsEqual], [escapeValue]) together with the
    properties the specification states about them.

    Go strings are byte strings: [string] of Rocq, one [ascii] per byte.
    Go maps are [gmap]s; the order in which a [range] loop visits a map is
    not fixed by the language, so every such loop takes its order from a
    [RangeOrder].  Calls to the database are answers of a [DB] record and
    are logged in a trace. *)

From Stdlib Require Import ZArith Lia Ascii String.
From stdpp Require Import gmap strings list fin_maps pretty sorting.

Local Open Scope string_scope.
Local Open Scope list_scope.

(** ** Package [strings] and [fmt], as far as the code uses them *)

Module strings.

(** [strings.Join(elems, sep)]. *)
Definition Join (elems : list string) (sep : string) : string :=
  String.concat sep elems.

(** [strings.HasPrefix(s, prefix)]. *)
Definition HasPrefix (s pre : string) : bool := String.prefix pre s.

(** [strings.HasSuffix(s, suffix)]: the suffix is a prefix of the
    reversed text. *)
Definition HasSuffix (s suf : string) : bool :=
  String.prefix (String.rev suf) (String.rev s).

(** Upper-casing of one byte.  Only the letters [a]..[z] change. *)
Definition upper_byte (c : ascii) : ascii :=
  let n := nat_of_ascii c in
  if (97 <=? n)%nat && (n <=? 122)%nat then ascii_of_nat (n - 32) else c.

(** [strings.ToUpper(s)] on ASCII text.  (Go also maps letters outside
    ASCII; the inputs studied here are ASCII.) *)
Fixpoint ToUpper (s : string) : string :=
  match s with
  | EmptyString => EmptyString
  | String c s' => String (upper_byte c) (ToUpper s')
  end.

(** [strings.ReplaceAll(s, old, new)] when [old] is one byte long:
    every occurrence of that byte is replaced, left to right. *)
Fixpoint ReplaceAll (s : string) (old : ascii) (new : string) : string :=
  match s with
  | EmptyString => EmptyString
  | String c s' =>
      if Ascii.eqb c old then new +:+ ReplaceAll s' old new
      else String c (ReplaceAll s' old new)
  end.

(** Go's [a < b] on strings: byte-wise lexicographic. *)
Definition lt (a b : string) : bool := String.ltb a b.

End strings.

(** ** Values scanned from a row: Go's [interface{}]

    The constructors are the dynamic types the code tells apart
    ([escapeValue]'s type switch and the [[]byte] test of [getTableData]).
    Floating-point numbers and values of any other type (for instance
    [time.Time]) are used by the code only through their [%v] text, so
    they carry that text.  Integers are not range-limited here. *)

Inductive Value : Type :=
| VNil
| VInt (n : Z)
| VInt32 (n : Z)
| VInt64 (n : Z)
| VFloat32 (text : string)
| VFloat64 (text : string)
| VBool (b : bool)
| VString (s : string)
| VBytes (b : string)
| VOther (text : string).

Global Instance Value_eq_dec : EqDecision Value.
Proof. solve_decision. Defined.

(** Text of a byte slice under [%v]: the decimal bytes between brackets. *)
Definition bytes_text (b : string) : string :=
  "[" +:+ strings.Join ((fun c => pretty (nat_of_ascii c)) <$> list_ascii_of_string b) " " +:+ "]".

(** [fmt.Sprintf("%v", v)]. *)
Definition Sprintf_v (v : Value) : string :=
  match v with
  | VNil => "<nil>"
  | VInt n | VInt32 n | VInt64 n => pretty n
  | VFloat32 t | VFloat64 t => t
  | VBool true => "true"
  | VBool false => "false"
  | VString s => s
  | VBytes b => bytes_text b
  | VOther t => t
  end.

(** ** Statement generator: identifier quoting and value escaping *)

Definition DBType := string.
Definition MySQL : DBType := "mysql".
Definition PostgreSQL : DBType := "postgresql".
Definition SQLite : DBType := "sqlite".
Definition SQLServer : DBType := "sqlserver".

Definition backtick (name : string) : string := "`" +:+ name +:+ "`".
Definition dq : string := String (ascii_of_nat 34) "".
Definition dquote (name : string) : string := dq +:+ name +:+ dq.
Definition bracket (name : string) : string := "[" +:+ name +:+ "]".

(** [quoteIdentifier] (data_sync.go:126). *)
Definition quoteIdentifier (dbType : DBType) (name : string) : string :=
  if decide (dbType = MySQL \/ dbType = "") then backtick name
  else if decide (dbType = PostgreSQL) then dquote name
  else if decide (dbType = SQLite) then dquote name
  else if decide (dbType = SQLServer) then bracket name
  else backtick name.

(** [escapeValue] (data_sync.go:548). *)
Definition escapeValue (val : Value) : string :=
  match val with
  | VNil => "NULL"
  | VInt _ | VInt32 _ | VInt64 _ | VFloat32 _ | VFloat64 _ => Sprintf_v val
  | VBool b => if b then "1" else "0"
  | _ => "'" +:+ strings.ReplaceAll (Sprintf_v val) "'"%char "''" +:+ "'"
  end.

(** ** Schema snapshots (table_browser.go:154-215) *)

Record ColumnInfo := {
  col_Name : string;
  col_Type : string;
  col_Nullable : string;
  col_Key : string;
  col_Default : option string;   (* [*string]: [None] is the nil pointer *)
  col_Extra : string;
  col_Position : Z
}.

Record IndexInfo := {
  idx_Name : string;
  idx_NonUnique : Z;
  idx_Column : string;
  idx_SeqInIdx : Z
}.

Record TableInfo := {
  tbl_Name : string;
  tbl_CreateSQL : string;
  tbl_Columns : list ColumnInfo;
  tbl_Indexes : list IndexInfo
}.

Record SchemaInfo := {
  schema_Database : string;
  schema_Tables : gmap string TableInfo
}.

(** [DiffResult.Type] takes the three values the code writes. *)
Inductive Kind := added | modified | removed.

Global Instance Kind_eq_dec : EqDecision Kind.
Proof. solve_decision. Defined.

Record DiffResult := {
  diff_Type : Kind;
  diff_TableName : string;
  diff_Detail : string;
  diff_SQL : string
}.

Global Instance DiffResult_eq_dec : EqDecision DiffResult.
Proof. solve_decision. Defined.

(** ** The order of a [range] over a map

    Each [range] loop of the two engines is a [Site]; loops inside
    [compareTableStructure] are told apart by the table they work on, the
    loop of [generateUpdateSQL] by the row key.  A [RangeOrder] rearranges,
    at every site, the entries the loop is about to visit; it is [fair]
    when it only rearranges them. *)

Inductive Site :=
| tables_added | tables_removed | tables_common
| cols_added (table : string) | cols_removed (table : string)
| cols_modified (table : string)
| idx_source (table : string) | idx_target (table : string)
| rows_source | rows_target
| update_sets (pkKey : string).

Record RangeOrder := { visit : Site -> forall A : Type, list A -> list A }.

Definition fair (o : RangeOrder) : Prop :=
  forall (s : Site) (A : Type) (l : list A), visit o s A l ≡ₚ l.

(** The entries of [m] in the order the loop at [s] sees them. *)
Definition range {V : Type} (o : RangeOrder) (s : Site) (m : gmap string V)
  : list (string * V) :=
  visit o s _ (map_to_list m).

(** Two orders: the one [map_to_list] happens to give, and its reverse. *)
Definition in_order : RangeOrder := {| visit := fun _ _ l => l |}.
Definition backwards : RangeOrder := {| visit := fun _ _ l => reverse l |}.

(** ** [sort.Slice]

    The contract of [sort.Slice] is a sorted rearrangement, with no promise
    about elements that compare equal.  Its insertion sort (the loop Go
    runs on slices of at most twelve elements) is the model: every element
    in turn moves left while it is less than its left neighbour.  [sink]
    keeps the part already sorted with its last element first.  The
    properties proved of [CompareSchemas] rest on the contract alone
    ([sort_Slice_Permutation], [sort_Slice_Sorted]). *)

Section sort_Slice.
Context {A : Type} (less : A -> A -> bool).

Fixpoint sink (x : A) (back : list A) : list A :=
  match back with
  | [] => [x]
  | y :: back' => if less x y then y :: sink x back' else x :: back
  end.

Definition sort_Slice (data : list A) : list A :=
  reverse (foldl (fun back x => sink x back) [] data).

(** [later] is not to stand before [earlier]. *)
Definition not_before (later earlier : A) : Prop := less later earlier = false.
End sort_Slice.

(** ** Rendering a column definition (table_browser.go:997-1049) *)

(** The loop of [isNumericDefault] from byte offset [i] on. *)
Fixpoint numeric_from (i : nat) (val : string) : bool :=
  match val with
  | EmptyString => true
  | String c rest =>
      if (i =? 0)%nat && Ascii.eqb c "-" then numeric_from (S i) rest
      else if Ascii.eqb c "." then numeric_from (S i) rest
      else if Ascii.ltb c "0" || Ascii.ltb "9" c then false
      else numeric_from (S i) rest
  end.

Definition isNumericDefault (val : string) : bool :=
  if String.eqb val "" then false else numeric_from 0 val.

Definition specialDefaults : list string :=
  ["NULL"; "CURRENT_TIMESTAMP"; "CURRENT_DATE"; "CURRENT_TIME"; "NOW()"; "TRUE"; "FALSE"].

Definition isSpecialDefault (val : string) : bool :=
  let upper := strings.ToUpper val in
  if existsb (String.eqb upper) specialDefaults then true
  else if strings.HasSuffix upper "()" || strings.HasPrefix upper "(" then true
  else false.

Definition buildColumnDef (col : ColumnInfo) : string :=
  let def := col_Type col in
  let def := if String.eqb (col_Nullable col) "NO" then def +:+ " NOT NULL" else def in
  let def :=
    match col_Default col with
    | Some defaultVal =>
        if isNumericDefault defaultVal || isSpecialDefault defaultVal
        then def +:+ " DEFAULT " +:+ defaultVal
        else def +:+ " DEFAULT '" +:+ defaultVal +:+ "'"
    | None => def
    end in
  if negb (String.eqb (col_Extra col) "") then def +:+ " " +:+ col_Extra col else def.

(** ** Comparing two tables (table_browser.go:892-1084) *)

Definition defaultsEqual (a b : option string) : bool :=
  match a, b with
  | None, None => true
  | None, _ | _, None => false
  | Some x, Some y => String.eqb x y
  end.

Definition columnsEqual (a b : ColumnInfo) : bool :=
  String.eqb (col_Type a) (col_Type b) && String.eqb (col_Nullable a) (col_Nullable b)
  && String.eqb (col_Extra a) (col_Extra b) && defaultsEqual (col_Default a) (col_Default b).

(** [result[idx.Name] = append(result[idx.Name], ...)] for every index row. *)
Definition buildIndexMap (indexes : list IndexInfo) : gmap string (list string) :=
  foldl (fun result idx =>
           <[idx_Name idx := default [] (result !! idx_Name idx) ++ [backtick (idx_Column idx)]]> result)
        ∅ indexes.

Definition stringSlicesEqual (a b : list string) : bool :=
  if negb (length a =? length b)%nat then false
  else forallb (fun p => String.eqb p.1 p.2) (zip a b).

(** [sourceColMap[col.Name] = col] for every column: a later column of the
    same name replaces an earlier one. *)
Definition colMap (cols : list ColumnInfo) : gmap string ColumnInfo :=
  foldl (fun m col => <[col_Name col := col]> m) ∅ cols.

(** The positional clause of an added column (lines 908-918). *)
Definition afterClause (sourceColumns : list ColumnInfo) (sourceCol : ColumnInfo) : string :=
  if (1 <? col_Position sourceCol)%Z then
    match List.find (fun c => (col_Position c =? col_Position sourceCol - 1)%Z) sourceColumns with
    | Some c => " AFTER `" +:+ col_Name c +:+ "`"
    | None => ""
    end
  else " FIRST".

Definition addColumnEntry (tableName : string) (source : TableInfo) (colName : string)
    (sourceCol : ColumnInfo) : DiffResult :=
  {| diff_Type := modified;
     diff_TableName := tableName;
     diff_Detail := "Add column: " +:+ colName;
     diff_SQL := "ALTER TABLE `" +:+ tableName +:+ "` ADD COLUMN `" +:+ colName +:+ "` "
                 +:+ buildColumnDef sourceCol +:+ afterClause (tbl_Columns source) sourceCol +:+ ";" |}.

Definition dropColumnEntry (tableName colName : string) : DiffResult :=
  {| diff_Type := modified;
     diff_TableName := tableName;
     diff_Detail := "Drop column: " +:+ colName;
     diff_SQL := "ALTER TABLE `" +:+ tableName +:+ "` DROP COLUMN `" +:+ colName +:+ "`;" |}.

Definition modifyColumnEntry (tableName colName : string) (sourceCol targetCol : ColumnInfo)
  : DiffResult :=
  {| diff_Type := modified;
     diff_TableName := tableName;
     diff_Detail := "Modify column: " +:+ colName +:+ " (" +:+ col_Type targetCol +:+ " -> "
                    +:+ col_Type sourceCol +:+ ")";
     diff_SQL := "ALTER TABLE `" +:+ tableName +:+ "` MODIFY COLUMN `" +:+ colName +:+ "` "
                 +:+ buildColumnDef sourceCol +:+ ";" |}.

Definition addIndexEntry (tableName idxName : string) (sourceCols : list string) : DiffResult :=
  {| diff_Type := modified;
     diff_TableName := tableName;
     diff_Detail := "Add index: " +:+ idxName;
     diff_SQL := "ALTER TABLE `" +:+ tableName +:+ "` ADD INDEX `" +:+ idxName +:+ "` ("
                 +:+ strings.Join sourceCols ", " +:+ ");" |}.

Definition recreateIndexEntry (tableName idxName : string) (sourceCols : list string)
  : DiffResult :=
  {| diff_Type := modified;
     diff_TableName := tableName;
     diff_Detail := "Recreate index: " +:+ idxName;
     diff_SQL := "ALTER TABLE `" +:+ tableName +:+ "` DROP INDEX `" +:+ idxName
                 +:+ "`, ADD INDEX `" +:+ idxName +:+ "` (" +:+ strings.Join sourceCols ", " +:+ ");" |}.

Definition dropIndexEntry (tableName idxName : string) : DiffResult :=
  {| diff_Type := modified;
     diff_TableName := tableName;
     diff_Detail := "Drop index: " +:+ idxName;
     diff_SQL := "ALTER TABLE `" +:+ tableName +:+ "` DROP INDEX `" +:+ idxName +:+ "`;" |}.

Definition compareTableStructure (o : RangeOrder) (tableName : string)
    (source target : TableInfo) : list DiffResult :=
  let sourceColMap := colMap (tbl_Columns source) in
  let targetColMap := colMap (tbl_Columns target) in
  (* Find added columns *)
  let results1 :=
    range o (cols_added tableName) sourceColMap ≫= (fun '(colName, sourceCol) =>
      if targetColMap !! colName is None
      then [addColumnEntry tableName source colName sourceCol] else []) in
  (* Find removed columns *)
  let results2 :=
    range o (cols_removed tableName) targetColMap ≫= (fun '(colName, _) =>
      if sourceColMap !! colName is None
      then [dropColumnEntry tableName colName] else []) in
  (* Find modified columns *)
  let results3 :=
    range o (cols_modified tableName) sourceColMap ≫= (fun '(colName, sourceCol) =>
      match targetColMap !! colName with
      | Some targetCol =>
          if negb (columnsEqual sourceCol targetCol)
          then [modifyColumnEntry tableName colName sourceCol targetCol] else []
      | None => []
      end) in
  (* Compare indexes *)
  let sourceIdxMap := buildIndexMap (tbl_Indexes source) in
  let targetIdxMap := buildIndexMap (tbl_Indexes target) in
  let results4 :=
    range o (idx_source tableName) sourceIdxMap ≫= (fun '(idxName, sourceCols) =>
      if String.eqb idxName "PRIMARY" then []
      else match targetIdxMap !! idxName with
           | None => [addIndexEntry tableName idxName sourceCols]
           | Some targetCols =>
               if negb (stringSlicesEqual sourceCols targetCols)
               then [recreateIndexEntry tableName idxName sourceCols] else []
           end) in
  let results5 :=
    range o (idx_target tableName) targetIdxMap ≫= (fun '(idxName, _) =>
      if String.eqb idxName "PRIMARY" then []
      else if sourceIdxMap !! idxName is None
           then [dropIndexEntry tableName idxName] else []) in
  results1 ++ results2 ++ results3 ++ results4 ++ results5.

(** ** [CompareSchemas] (table_browser.go:845) *)

Definition order (k : Kind) : Z :=
  match k with added => 0 | modified => 1 | removed => 2 end.

(** The comparison handed to [sort.Slice] (lines 881-887). *)
Definition less (a b : DiffResult) : bool :=
  if negb (bool_decide (diff_Type a = diff_Type b))
  then (order (diff_Type a) <? order (diff_Type b))%Z
  else strings.lt (diff_TableName a) (diff_TableName b).

Definition addedEntry (tableName : string) (sourceTable : TableInfo) : DiffResult :=
  {| diff_Type := added;
     diff_TableName := tableName;
     diff_Detail := "Table exists in source but not in target";
     diff_SQL := tbl_CreateSQL sourceTable +:+ ";" |}.

Definition removedEntry (tableName : string) : DiffResult :=
  {| diff_Type := removed;
     diff_TableName := tableName;
     diff_Detail := "Table exists in target but not in source";
     diff_SQL := "DROP TABLE `" +:+ tableName +:+ "`;" |}.

(** The entries in the order the three loops append them, before sorting. *)
Definition collectDiffs (o : RangeOrder) (source target : SchemaInfo) : list DiffResult :=
  (* Find tables only in source *)
  let results1 :=
    range o tables_added (schema_Tables source) ≫= (fun '(tableName, sourceTable) =>
      if schema_Tables target !! tableName is None
      then [addedEntry tableName sourceTable] else []) in
  (* Find tables only in target *)
  let results2 :=
    range o tables_removed (schema_Tables target) ≫= (fun '(tableName, _) =>
      if schema_Tables source !! tableName is None
      then [removedEntry tableName] else []) in
  (* Compare existing tables *)
  let results3 :=
    range o tables_common (schema_Tables source) ≫= (fun '(tableName, sourceTable) =>
      match schema_Tables target !! tableName with
      | Some targetTable => compareTableStructure o tableName sourceTable targetTable
      | None => []
      end) in
  results1 ++ results2 ++ results3.

Definition CompareSchemas (o : RangeOrder) (source target : SchemaInfo) : list DiffResult :=
  sort_Slice less (collectDiffs o source target).

(** ** Rows and keyed row sets (data_sync.go) *)

(** A row is a [map[string]interface{}]. *)
Abbreviation Row := (gmap string Value).

(** [row[k]]: a missing key reads as nil. *)
Definition row_get (row : Row) (k : string) : Value := default VNil (row !! k).

Inductive DataKind := row_insert | row_update | row_delete.

Global Instance DataKind_eq_dec : EqDecision DataKind.
Proof. solve_decision. Defined.

Record DataDiffResult := {
  ddiff_Type : DataKind;
  ddiff_TableName : string;
  ddiff_PrimaryKey : Row;
  ddiff_OldValues : option Row;   (* [None] is the nil map *)
  ddiff_NewValues : option Row;
  ddiff_SQL : string
}.

Global Instance DataDiffResult_eq_dec : EqDecision DataDiffResult.
Proof. solve_decision. Defined.

(** One scanned row becomes a [Row] (lines 454-463): byte slices are
    turned into strings, a repeated column name keeps its last value. *)
Definition scanRow (columns : list string) (values : list Value) : Row :=
  foldl (fun row '(i, col) =>
           match default VNil (values !! i) with
           | VBytes b => <[col := VString b]> row
           | val => <[col := val]> row
           end)
        ∅ (imap (fun i col => (i, col)) columns).

(** The composite key of a row (lines 465-469). *)
Definition pkKeyOf (primaryKeys : list string) (row : Row) : string :=
  strings.Join ((fun pk => Sprintf_v (row_get row pk)) <$> primaryKeys) "|".

(** The keyed row set built from the rows a query returned (lines 441-473
    of [getTableData]): a later row replaces an earlier one of the same key. *)
Definition keyRows (columns primaryKeys : list string) (scanned : list (list Value))
  : gmap string Row :=
  foldl (fun data values =>
           let row := scanRow columns values in
           <[pkKeyOf primaryKeys row := row]> data)
        ∅ scanned.

(** [rowsEqual] (line 476).  The loop stops at the first difference; which
    entry it meets first does not change the answer. *)
Definition rowsEqual (a b : Row) : bool :=
  if negb (size a =? size b)%nat then false
  else forallb (fun '(k, v) => String.eqb (Sprintf_v v) (Sprintf_v (row_get b k)))
               (map_to_list a).

Definition extractPrimaryKey (row : Row) (primaryKeys : list string) : Row :=
  foldl (fun pk key => <[key := row_get row key]> pk) ∅ primaryKeys.

Definition generateInsertSQL (dbType : DBType) (tableName : string) (row : Row)
    (columns : list string) : string :=
  let present := filter (fun col => is_Some (row !! col)) columns in
  let cols := quoteIdentifier dbType <$> present in
  let vals := (fun col => escapeValue (row_get row col)) <$> present in
  "INSERT INTO " +:+ quoteIdentifier dbType tableName +:+ " (" +:+ strings.Join cols ", "
  +:+ ") VALUES (" +:+ strings.Join vals ", " +:+ ");".

Definition generateUpdateSQL (o : RangeOrder) (s : Site) (dbType : DBType)
    (tableName : string) (row : Row) (primaryKeys : list string) : string :=
  let sets :=
    range o s row ≫= (fun '(col, val) =>
      let isPK := existsb (String.eqb col) primaryKeys in
      if negb isPK then [quoteIdentifier dbType col +:+ " = " +:+ escapeValue val] else []) in
  let wheres :=
    (fun pk => quoteIdentifier dbType pk +:+ " = " +:+ escapeValue (row_get row pk))
      <$> primaryKeys in
  "UPDATE " +:+ quoteIdentifier dbType tableName +:+ " SET " +:+ strings.Join sets ", "
  +:+ " WHERE " +:+ strings.Join wheres " AND " +:+ ";".

Definition generateDeleteSQL (dbType : DBType) (tableName : string)
    (primaryKeys : list string) (pk : Row) : string :=
  let wheres :=
    (fun key => quoteIdentifier dbType key +:+ " = " +:+ escapeValue (row_get pk key))
      <$> primaryKeys in
  "DELETE FROM " +:+ quoteIdentifier dbType tableName +:+ " WHERE "
  +:+ strings.Join wheres " AND " +:+ ";".

(** The three entries [CompareTableData] builds. *)
Section entries.
Context (o : RangeOrder) (targetType : DBType) (tableName : string)
        (columns primaryKeys : list string).

Definition updateEntry (pkKey : string) (sourceRow targetRow : Row) : DataDiffResult :=
  {| ddiff_Type := row_update;
     ddiff_TableName := tableName;
     ddiff_PrimaryKey := extractPrimaryKey sourceRow primaryKeys;
     ddiff_OldValues := Some targetRow;
     ddiff_NewValues := Some sourceRow;
     ddiff_SQL := generateUpdateSQL o (update_sets pkKey) targetType tableName sourceRow primaryKeys |}.

Definition insertEntry (sourceRow : Row) : DataDiffResult :=
  {| ddiff_Type := row_insert;
     ddiff_TableName := tableName;
     ddiff_PrimaryKey := extractPrimaryKey sourceRow primaryKeys;
     ddiff_OldValues := None;
     ddiff_NewValues := Some sourceRow;
     ddiff_SQL := generateInsertSQL targetType tableName sourceRow columns |}.

Definition deleteEntry (targetRow : Row) : DataDiffResult :=
  let pk := extractPrimaryKey targetRow primaryKeys in
  {| ddiff_Type := row_delete;
     ddiff_TableName := tableName;
     ddiff_PrimaryKey := pk;
     ddiff_OldValues := Some targetRow;
     ddiff_NewValues := None;
     ddiff_SQL := generateDeleteSQL targetType tableName primaryKeys pk |}.

(** The two loops of [CompareTableData] (lines 193-233) over the keyed
    row sets. *)
Definition compareKeyedRows (sourceData targetData : gmap string Row)
  : list DataDiffResult :=
  (* Find inserts and updates *)
  let results1 :=
    range o rows_source sourceData ≫= (fun '(pkKey, sourceRow) =>
      match targetData !! pkKey with
      | Some targetRow =>
          if negb (rowsEqual sourceRow targetRow)
          then [updateEntry pkKey sourceRow targetRow] else []
      | None => [insertEntry sourceRow]
      end) in
  (* Find deletes *)
  let results2 :=
    range o rows_target targetData ≫= (fun '(pkKey, targetRow) =>
      if sourceData !! pkKey is None then [deleteEntry targetRow] else []) in
  results1 ++ results2.
End entries.

(** ** Talking to the databases

    The code reaches a database through [Connect] and [db.Query].  A
    connected database is the record of its answers; every call made is
    appended to a trace, so that what was asked, and in which order, can be
    stated. *)

Record ConnectionConfig := {
  cfg_Type : DBType;
  cfg_Host : string;
  cfg_Port : Z;
  cfg_User : string;
  cfg_Password : string;
  cfg_Database : string;
  cfg_FilePath : string
}.

(** A Go [(value, error)] result; the error is its message. *)
Inductive Result (A : Type) :=
| Ok (a : A)
| Err (msg : string).
Arguments Ok {A} a.
Arguments Err {A} msg.

Record DB := {
  db_primaryKeys : string -> string -> Result (list string);  (* database, table *)
  db_columns : string -> string -> Result (list string);      (* database, table *)
  db_query : string -> Result (list (list Value))             (* statement text *)
}.

(** What [sql.Open] followed by a ping gives for a driver name and a data
    source name. *)
Definition World := string -> string -> Result DB.

Inductive Event :=
| ev_connect (config : ConnectionConfig)
| ev_primaryKeys (tableName : string)
| ev_columns (tableName : string)
| ev_rows (query : string).

Definition M (A : Type) : Type := list Event -> list Event * Result A.

Global Instance M_ret : MRet M := fun A a tr => (tr, Ok a).
Global Instance M_bind : MBind M := fun A B f m tr =>
  match m tr with
  | (tr', Ok a) => f a tr'
  | (tr', Err e) => (tr', Err e)
  end.

Definition fail {A} (msg : string) : M A := fun tr => (tr, Err msg).
Definition call {A} (ev : Event) (answer : Result A) : M A := fun tr => (tr ++ [ev], answer).

(** [if err != nil { return nil, fmt.Errorf(prefix + "%v", err) }]. *)
Definition wrapErr {A} (prefix : string) (m : M A) : M A := fun tr =>
  match m tr with
  | (tr', Ok a) => (tr', Ok a)
  | (tr', Err e) => (tr', Err (prefix +:+ e))
  end.

Definition supported (dbType : DBType) : bool :=
  bool_decide (dbType = MySQL \/ dbType = "" \/ dbType = PostgreSQL
               \/ dbType = SQLite \/ dbType = SQLServer).

(** [buildDSN] (table_browser.go:218): the driver name and the data
    source name of a configuration. *)
Definition buildDSN (config : ConnectionConfig) : Result (string * string) :=
  let t := cfg_Type config in
  if bool_decide (t = MySQL \/ t = "") then
    Ok ("mysql", cfg_User config +:+ ":" +:+ cfg_Password config +:+ "@tcp(" +:+ cfg_Host config
                 +:+ ":" +:+ pretty (cfg_Port config) +:+ ")/" +:+ cfg_Database config
                 +:+ "?parseTime=true&multiStatements=true")
  else if bool_decide (t = PostgreSQL) then
    Ok ("postgres", "host=" +:+ cfg_Host config +:+ " port=" +:+ pretty (cfg_Port config)
                    +:+ " user=" +:+ cfg_User config +:+ " password=" +:+ cfg_Password config
                    +:+ " dbname=" +:+ cfg_Database config +:+ " sslmode=disable")
  else if bool_decide (t = SQLite) then
    if String.eqb (cfg_FilePath config) "" then Err "SQLite requires a file path"
    else Ok ("sqlite3", cfg_FilePath config)
  else if bool_decide (t = SQLServer) then
    Ok ("sqlserver", "server=" +:+ cfg_Host config +:+ ";port=" +:+ pretty (cfg_Port config)
                     +:+ ";user id=" +:+ cfg_User config +:+ ";password=" +:+ cfg_Password config
                     +:+ ";database=" +:+ cfg_Database config)
  else Err ("unsupported database type: " +:+ t).

(** [Connect] (table_browser.go:247): a configuration [buildDSN] refuses
    is never dialled. *)
Definition Connect (w : World) (config : ConnectionConfig) : M DB :=
  match buildDSN config with
  | Err msg => fail msg
  | Ok (driver, dsn) => call (ev_connect config) (w driver dsn)
  end.

Definition getPrimaryKeys (db : DB) (dbType : DBType) (database tableName : string)
  : M (list string) :=
  if supported dbType then call (ev_primaryKeys tableName) (db_primaryKeys db database tableName)
  else fail ("unsupported database type: " +:+ dbType).

Definition getColumns (db : DB) (dbType : DBType) (database tableName : string)
  : M (list string) :=
  if supported dbType then call (ev_columns tableName) (db_columns db database tableName)
  else fail ("unsupported database type: " +:+ dbType).

(** [getTableData] (data_sync.go:428). *)
Definition getTableData (db : DB) (dbType : DBType) (tableName : string)
    (columns primaryKeys : list string) : M (gmap string Row) :=
  let quotedCols := quoteIdentifier dbType <$> columns in
  let query := "SELECT " +:+ strings.Join quotedCols ", " +:+ " FROM "
               +:+ quoteIdentifier dbType tableName in
  scanned ← call (ev_rows query) (db_query db query);
  mret (keyRows columns primaryKeys scanned).

(** [CompareTableData] (data_sync.go:142). *)
Definition CompareTableData (w : World) (o : RangeOrder)
    (sourceConfig targetConfig : ConnectionConfig) (tableName : string)
  : M (list DataDiffResult) :=
  sourceDB ← wrapErr "source connection failed: " (Connect w sourceConfig);
  targetDB ← wrapErr "target connection failed: " (Connect w targetConfig);
  let sourceType := if String.eqb (cfg_Type sourceConfig) "" then MySQL else cfg_Type sourceConfig in
  let targetType := if String.eqb (cfg_Type targetConfig) "" then MySQL else cfg_Type targetConfig in
  (* Get primary keys *)
  primaryKeys ← getPrimaryKeys sourceDB sourceType (cfg_Database sourceConfig) tableName;
  if (length primaryKeys =? 0)%nat then
    fail ("table " +:+ tableName +:+ " has no primary key")
  else
    (* Get columns *)
    columns ← getColumns sourceDB sourceType (cfg_Database sourceConfig) tableName;
    (* Get source data *)
    sourceData ← wrapErr "failed to get source data: "
                   (getTableData sourceDB sourceType tableName columns primaryKeys);
    (* Get target data *)
    targetData ← wrapErr "failed to get target data: "
                   (getTableData targetDB targetType tableName columns primaryKeys);
    mret (compareKeyedRows o targetType tableName columns primaryKeys sourceData targetData).

(** What the caller receives: the slice (nil on failure) and the error. *)
Definition returned {A} (r : Result (list A)) : list A * option string :=
  match r with
  | Ok results => (results, None)
  | Err msg => ([], Some msg)
  end.

(** ** Notions the properties are stated with *)

(** The order the specification gives for a schema diff list: kind first,
    [added] before [modified] before [removed], then table name. *)
Definition key_le (a b : Kind * string) : Prop :=
  (order a.1 < order b.1)%Z \/ (a.1 = b.1 /\ (a.2 ≤ b.2)%string).

Definition sortKey (e : DiffResult) : Kind * string := (diff_Type e, diff_TableName e).

Definition diff_le (a b : DiffResult) : Prop := key_le (sortKey a) (sortKey b).

(** ** Snapshots and rows used as examples *)

Definition column (name type : string) (position : Z) : ColumnInfo :=
  {| col_Name := name; col_Type := type; col_Nullable := "YES"; col_Key := "";
     col_Default := None; col_Extra := ""; col_Position := position |}.

Definition table (name : string) (columns : list ColumnInfo) : TableInfo :=
  {| tbl_Name := name; tbl_CreateSQL := "CREATE TABLE `" +:+ name +:+ "` ()";
     tbl_Columns := columns; tbl_Indexes := [] |}.

Definition snapshot (tables : list TableInfo) : SchemaInfo :=
  {| schema_Database := "app";
     schema_Tables := list_to_map ((fun t => (tbl_Name t, t)) <$> tables) |}.

(** Table [t] has columns [a], [b], [c] in the source and only [a] in the
    target; [u] exists only in the source, [w] only in the target. *)
Definition example_source : SchemaInfo :=
  snapshot [table "t" [column "a" "INT" 1; column "b" "INT" 2; column "c" "INT" 3];
            table "u" []].
Definition example_target : SchemaInfo :=
  snapshot [table "t" [column "a" "INT" 1]; table "w" []].

(** The invariant of the data model on the columns of a table: names are
    unique, ordinal positions are unique and contiguous starting at 1. *)
Definition well_positioned (cols : list ColumnInfo) : Prop :=
  NoDup (col_Name <$> cols) /\ col_Position <$> cols ≡ₚ seqZ 1 (Z.of_nat (length cols)).

(** The [orders] table of the column scenario: [(id, total DECIMAL)] in
    the source, [(id, amount, total VARCHAR)] in the target. *)
Definition orders_source : SchemaInfo :=
  snapshot [table "orders" [column "id" "INT" 1; column "total" "DECIMAL" 2]].
Definition orders_target : SchemaInfo :=
  snapshot [table "orders" [column "id" "INT" 1; column "amount" "DECIMAL" 2;
                            column "total" "VARCHAR" 3]].

(** The rows of the classification scenario, as scanned ([id], [name]). *)
Definition example_source_rows : gmap string Row :=
  keyRows ["id"; "name"] ["id"] [[VInt64 1; VBytes "a"]; [VInt64 2; VBytes "b"]].
Definition example_target_rows : gmap string Row :=
  keyRows ["id"; "name"] ["id"] [[VInt64 2; VBytes "B"]; [VInt64 3; VBytes "c"]].

(** ** Reading a quoted literal back

    The standard SQL reading of a single-quoted literal, the inverse the
    escaping is meant for: after the opening quote, two quotes in a row
    stand for one quote character and a single quote ends the literal. *)
Fixpoint literal_body (s : string) : option string :=
  match s with
  | EmptyString => None
  | String c rest =>
      if Ascii.eqb c "'" then
        match rest with
        | EmptyString => Some EmptyString
        | String c' rest' =>
            if Ascii.eqb c' "'" then String "'" <$> literal_body rest' else None
        end
      else String c <$> literal_body rest
  end.

Definition readLiteral (lit : string) : option string :=
  match lit with
  | String c rest => if Ascii.eqb c "'" then literal_body rest else None
  | EmptyString => None
  end.

(** ** Numeric literals as the specification words them

    An optional leading minus, then digits and at most one decimal point,
    nothing else, and at least one digit. *)
Definition is_digit (c : ascii) : bool := negb (Ascii.ltb c "0" || Ascii.ltb "9" c).

Definition digit_or_dot (c : ascii) : bool := is_digit c || Ascii.eqb c ".".

(** The text after one optional leading minus. *)
Definition strip_minus (s : string) : string :=
  match s with
  | String c rest => if Ascii.eqb c "-" then rest else s
  | EmptyString => s
  end.

Definition numeric_literal (s : string) : bool :=
  let chars := list_ascii_of_string (strip_minus s) in
  forallb digit_or_dot chars
  && (length (filter (fun c => c = "."%char) chars) <=? 1)%nat
  && existsb is_digit chars.

(** A version-like text default. *)
Definition version_column : ColumnInfo :=
  {| col_Name := "version"; col_Type := "VARCHAR(20)"; col_Nullable := "NO"; col_Key := "";
     col_Default := Some "1.2.3"; col_Extra := ""; col_Position := 1 |}.

(** ** Classifying one composite key

    What the specification asks of the data diff for the key [pkKey]: an
    insert carrying the source row when only the source has the key, a
    delete carrying the target row when only the target has it, an update
    carrying both when the rows differ, and nothing otherwise. *)
Section classify.
Context (o : RangeOrder) (targetType : DBType) (tableName : string)
        (columns primaryKeys : list string) (sourceData targetData : gmap string Row).

Definition classify (pkKey : string) : list DataDiffResult :=
  match sourceData !! pkKey, targetData !! pkKey with
  | Some sourceRow, None =>
      [{| ddiff_Type := row_insert;
          ddiff_TableName := tableName;
          ddiff_PrimaryKey := extractPrimaryKey sourceRow primaryKeys;
          ddiff_OldValues := None;
          ddiff_NewValues := Some sourceRow;
          ddiff_SQL := generateInsertSQL targetType tableName sourceRow columns |}]
  | Some sourceRow, Some targetRow =>
      if rowsEqual sourceRow targetRow then []
      else
        [{| ddiff_Type := row_update;
            ddiff_TableName := tableName;
            ddiff_PrimaryKey := extractPrimaryKey sourceRow primaryKeys;
            ddiff_OldValues := Some targetRow;
            ddiff_NewValues := Some sourceRow;
            ddiff_SQL := generateUpdateSQL o (update_sets pkKey) targetType tableName
                           sourceRow primaryKeys |}]
  | None, Some targetRow =>
      [{| ddiff_Type := row_delete;
          ddiff_TableName := tableName;
          ddiff_PrimaryKey := extractPrimaryKey targetRow primaryKeys;
          ddiff_OldValues := Some targetRow;
          ddiff_NewValues := None;
          ddiff_SQL := generateDeleteSQL targetType tableName primaryKeys
                         (extractPrimaryKey targetRow primaryKeys) |}]
  | None, None => []
  end.
End classify.

(** Two rows differ in text form: they hold a different number of values,
    or some column of the first renders differently in the second. *)
Definition text_differs (a b : Row) : Prop :=
  size a <> size b
  \/ exists col v, a !! col = Some v /\ Sprintf_v v <> Sprintf_v (row_get b col).

(** Scanned rows of a table keyed by [(a, b)], with a payload column [v].
    The key values of the first two differ column by column, yet both
    join to the text [x|y|z]. *)
Definition pipe_row_1 : list Value := [VString "x|y"; VString "z"; VInt64 1].
Definition pipe_row_2 : list Value := [VString "x"; VString "y|z"; VInt64 2].
Definition pipe_row_1_changed : list Value := [VString "x|y"; VString "z"; VInt64 9].

(** A MySQL configuration, and a database holding a table without a
    primary key: the metadata query for the key answers with no column. *)
Definition example_config : ConnectionConfig :=
  {| cfg_Type := MySQL; cfg_Host := "localhost"; cfg_Port := 3306; cfg_User := "root";
     cfg_Password := "secret"; cfg_Database := "app"; cfg_FilePath := "" |}.

Definition keyless_db : DB :=
  {| db_primaryKeys := fun _ _ => Ok [];
     db_columns := fun _ _ => Ok ["line"];
     db_query := fun _ => Ok [[VBytes "first"]; [VBytes "second"]] |}.

Definition keyless_world : World := fun _ _ => Ok keyless_db.

(** ** The shape of generated statements

    [col = value] as the data diff writes it for a dialect. *)
Definition quoted_assignment (dbType : DBType) (col : string) (val : Value) : string :=
  quoteIdentifier dbType col +:+ " = " +:+ escapeValue val.

(** A data diff entry whose statement names the table and every column
    through [quoteIdentifier] at the dialect [dbType]. *)
Definition data_statement_form (dbType : DBType) (tableName : string)
    (columns primaryKeys : list string) (e : DataDiffResult) : Prop :=
  match ddiff_Type e with
  | row_insert =>
      exists row present,
        ddiff_NewValues e = Some row
        /\ present = filter (fun col => is_Some (row !! col)) columns
        /\ ddiff_SQL e
           = "INSERT INTO " +:+ quoteIdentifier dbType tableName
             +:+ " (" +:+ strings.Join (quoteIdentifier dbType <$> present) ", "
             +:+ ") VALUES ("
             +:+ strings.Join ((fun col => escapeValue (row_get row col)) <$> present) ", "
             +:+ ");"
  | row_update =>
      exists row sets,
        ddiff_NewValues e = Some row
        /\ Forall (fun s => exists col val, row !! col = Some val
                                            /\ s = quoted_assignment dbType col val) sets
        /\ ddiff_SQL e
           = "UPDATE " +:+ quoteIdentifier dbType tableName
             +:+ " SET " +:+ strings.Join sets ", "
             +:+ " WHERE "
             +:+ strings.Join ((fun pk => quoted_assignment dbType pk (row_get row pk))
                                 <$> primaryKeys) " AND "
             +:+ ";"
  | row_delete =>
      exists row,
        ddiff_OldValues e = Some row
        /\ ddiff_SQL e
           = "DELETE FROM " +:+ quoteIdentifier dbType tableName
             +:+ " WHERE "
             +:+ strings.Join ((fun pk => quoted_assignment dbType pk (row_get row pk))
                                 <$> primaryKeys) " AND "
             +:+ ";"
  end.

(** A schema diff entry whose statement is the stored create text (for an
    added table) or names the table and every column and index between
    backticks. *)
Definition schema_statement_form (source : SchemaInfo) (e : DiffResult) : Prop :=
  let t := backtick (diff_TableName e) in
  let sql := diff_SQL e in
  match diff_Type e with
  | added =>
      exists sourceTable,
        schema_Tables source !! diff_TableName e = Some sourceTable
        /\ sql = tbl_CreateSQL sourceTable +:+ ";"
  | removed => sql = "DROP TABLE " +:+ t +:+ ";"
  | modified =>
      (exists c def clause,
          sql = "ALTER TABLE " +:+ t +:+ " ADD COLUMN " +:+ backtick c +:+ " " +:+ def
                +:+ clause +:+ ";"
          /\ (clause = " FIRST" \/ clause = "" \/ exists p, clause = " AFTER " +:+ backtick p))
      \/ (exists c, sql = "ALTER TABLE " +:+ t +:+ " DROP COLUMN " +:+ backtick c +:+ ";")
      \/ (exists c def,
          sql = "ALTER TABLE " +:+ t +:+ " MODIFY COLUMN " +:+ backtick c +:+ " " +:+ def +:+ ";")
      \/ (exists i cols,
          sql = "ALTER TABLE " +:+ t +:+ " ADD INDEX " +:+ backtick i +:+ " ("
                +:+ strings.Join (backtick <$> cols) ", " +:+ ");")
      \/ (exists i cols,
          sql = "ALTER TABLE " +:+ t +:+ " DROP INDEX " +:+ backtick i +:+ ", ADD INDEX "
                +:+ backtick i +:+ " (" +:+ strings.Join (backtick <$> cols) ", " +:+ ");")
      \/ (exists i, sql = "ALTER TABLE " +:+ t +:+ " DROP INDEX " +:+ backtick i +:+ ";")
  end.

(** ** Further notions: stored values and last occurrences *)

(** What [getTableData] stores for a scanned value: a byte slice becomes
    a string, anything else is kept. *)
Definition stored (v : Value) : Value :=
  match v with
  | VBytes b => VString b
  | _ => v
  end.

(** [x], at index [i] of [l], is the last element of [l] whose key is [k]. *)
Definition last_with_key {A} (key : A -> string) (l : list A) (k : string) (i : nat) (x : A)
  : Prop :=
  l !! i = Some x /\ key x = k
  /\ forall j y, (i < j)%nat -> l !! j = Some y -> key y <> k.

(** The map a loop of assignments [m[key x] = val x] leaves, as
    [getTableData], [extractPrimaryKey] and the column maps build theirs. *)
Definition assigned {A V} (key : A -> string) (val : A -> V) (l : list A) : gmap string V :=
  foldl (fun m x => <[key x := val x]> m) ∅ l.

(** ** [GetDataSyncSummary] (data_sync.go:238) *)

Record TableDataInfo := {
  tdi_TableName : string;
  tdi_PrimaryKeys : list string;
  tdi_Columns : list string;
  tdi_SourceCount : Z;
  tdi_TargetCount : Z;
  tdi_InsertCount : Z;
  tdi_UpdateCount : Z;
  tdi_DeleteCount : Z
}.

(** The loop over the diffs (lines 276-285): one counter per kind. *)
Definition countDiff (info : TableDataInfo) (diff : DataDiffResult) : TableDataInfo :=
  match ddiff_Type diff with
  | row_insert =>
      {| tdi_TableName := tdi_TableName info; tdi_PrimaryKeys := tdi_PrimaryKeys info;
         tdi_Columns := tdi_Columns info; tdi_SourceCount := tdi_SourceCount info;
         tdi_TargetCount := tdi_TargetCount info;
         tdi_InsertCount := tdi_InsertCount info + 1;
         tdi_UpdateCount := tdi_UpdateCount info;
         tdi_DeleteCount := tdi_DeleteCount info |}
  | row_update =>
      {| tdi_TableName := tdi_TableName info; tdi_PrimaryKeys := tdi_PrimaryKeys info;
         tdi_Columns := tdi_Columns info; tdi_SourceCount := tdi_SourceCount info;
         tdi_TargetCount := tdi_TargetCount info;
         tdi_InsertCount := tdi_InsertCount info;
         tdi_UpdateCount := tdi_UpdateCount info + 1;
         tdi_DeleteCount := tdi_DeleteCount info |}
  | row_delete =>
      {| tdi_TableName := tdi_TableName info; tdi_PrimaryKeys := tdi_PrimaryKeys info;
         tdi_Columns := tdi_Columns info; tdi_SourceCount := tdi_SourceCount info;
         tdi_TargetCount := tdi_TargetCount info;
         tdi_InsertCount := tdi_InsertCount info;
         tdi_UpdateCount := tdi_UpdateCount info;
         tdi_DeleteCount := tdi_DeleteCount info + 1 |}
  end.

Definition countDiffs (info : TableDataInfo) (diffs : list DataDiffResult) : TableDataInfo :=
  foldl countDiff info diffs.

(** [x, _ = f()]: the error is dropped and the zero value kept. *)
Definition ignoreErr {A} (zero : A) (m : M A) : M A := fun tr =>
  match m tr with
  | (tr', Ok a) => (tr', Ok a)
  | (tr', Err _) => (tr', Ok zero)
  end.

(** [db.QueryRow(query).Scan(&count)] with its error dropped: [counted]
    tells what the scan leaves in the zeroed counter (the count, or 0 when
    the query or the conversion fails). *)
Definition queryCount (counted : DB -> string -> Z) (db : DB) (query : string) : M Z :=
  call (ev_rows query) (Ok (counted db query)).

Definition effectiveType (config : ConnectionConfig) : DBType :=
  if String.eqb (cfg_Type config) "" then MySQL else cfg_Type config.

Definition GetDataSyncSummary (w : World) (o : RangeOrder) (counted : DB -> string -> Z)
    (sourceConfig targetConfig : ConnectionConfig) (tableName : string)
  : M TableDataInfo :=
  diffs ← CompareTableData w o sourceConfig targetConfig tableName;
  sourceDB ← Connect w sourceConfig;
  targetDB ← Connect w targetConfig;
  let sourceType := effectiveType sourceConfig in
  let targetType := effectiveType targetConfig in
  (* Get primary keys *)
  primaryKeys ← ignoreErr [] (getPrimaryKeys sourceDB sourceType (cfg_Database sourceConfig) tableName);
  columns ← ignoreErr [] (getColumns sourceDB sourceType (cfg_Database sourceConfig) tableName);
  (* Get counts *)
  sourceCount ← queryCount counted sourceDB
                  ("SELECT COUNT(*) FROM " +:+ quoteIdentifier sourceType tableName);
  targetCount ← queryCount counted targetDB
                  ("SELECT COUNT(*) FROM " +:+ quoteIdentifier targetType tableName);
  mret (countDiffs {| tdi_TableName := tableName; tdi_PrimaryKeys := primaryKeys;
                      tdi_Columns := columns; tdi_SourceCount := sourceCount;
                      tdi_TargetCount := targetCount; tdi_InsertCount := 0;
                      tdi_UpdateCount := 0; tdi_DeleteCount := 0 |} diffs).

(** The statement [getTableData] sends (line 434). *)
Definition selectAll (dbType : DBType) (tableName : string) (columns : list string) : string :=
  "SELECT " +:+ strings.Join (quoteIdentifier dbType <$> columns) ", " +:+ " FROM "
  +:+ quoteIdentifier dbType tableName.

(** Common keys whose rows differ in text form. *)
Definition differs_from (targetData : gmap string Row) (kv : string * Row) : bool :=
  match targetData !! kv.1 with
  | Some t => negb (rowsEqual kv.2 t)
  | None => false
  end.

Definition differing (sourceData targetData : gmap string Row) : gmap string Row :=
  filter (fun kv => differs_from targetData kv = true) sourceData.

(** A run of [CompareTableData] in which every step succeeds: both
    connections open, the source names at least one key column, and both
    tables are read with the source's column list. *)
Record Healthy (w : World) (sourceConfig targetConfig : ConnectionConfig) (tableName : string)
    (sourceDB targetDB : DB) (primaryKeys columns : list string)
    (sourceRows targetRows : list (list Value)) : Prop := {
  healthy_source :
    exists driver dsn, buildDSN sourceConfig = Ok (driver, dsn) /\ w driver dsn = Ok sourceDB;
  healthy_target :
    exists driver dsn, buildDSN targetConfig = Ok (driver, dsn) /\ w driver dsn = Ok targetDB;
  healthy_keys :
    db_primaryKeys sourceDB (cfg_Database sourceConfig) tableName = Ok primaryKeys;
  healthy_some_key : primaryKeys <> [];
  healthy_columns :
    db_columns sourceDB (cfg_Database sourceConfig) tableName = Ok columns;
  healthy_source_rows :
    db_query sourceDB (selectAll (effectiveType sourceConfig) tableName columns) = Ok sourceRows;
  healthy_target_rows :
    db_query targetDB (selectAll (effectiveType targetConfig) tableName columns) = Ok targetRows
}.

(** The calls of such a run, in order. *)
Definition healthy_trace (sourceConfig targetConfig : ConnectionConfig) (tableName : string)
    (columns : list string) : list Event :=
  [ev_connect sourceConfig; ev_connect targetConfig; ev_primaryKeys tableName;
   ev_columns tableName;
   ev_rows (selectAll (effectiveType sourceConfig) tableName columns);
   ev_rows (selectAll (effectiveType targetConfig) tableName columns)].

(** A database with a [users] table keyed by [id]; the two configurations
    name two databases of one server. *)
Definition users_db (rows : list (list Value)) : DB :=
  {| db_primaryKeys := fun _ _ => Ok ["id"];
     db_columns := fun _ _ => Ok ["id"; "name"];
     db_query := fun _ => Ok rows |}.

Definition staging_config : ConnectionConfig :=
  {| cfg_Type := MySQL; cfg_Host := "localhost"; cfg_Port := 3306; cfg_User := "root";
     cfg_Password := "secret"; cfg_Database := "staging"; cfg_FilePath := "" |}.

Definition users_world : World := fun _ dsn =>
  if String.eqb dsn "root:secret@tcp(localhost:3306)/app?parseTime=true&multiStatements=true"
  then Ok (users_db [[VInt64 1; VBytes "a"]; [VInt64 2; VBytes "b"]])
  else Ok (users_db [[VInt64 2; VBytes "B"]; [VInt64 3; VBytes "c"]]).

(** The configuration is accepted and the connection opens as [db]. *)
Definition opens (w : World) (config : ConnectionConfig) (db : DB) : Prop :=
  exists driver dsn, buildDSN config = Ok (driver, dsn) /\ w driver dsn = Ok db.

(** A database whose row query fails. *)
Definition broken_db : DB :=
  {| db_primaryKeys := fun _ _ => Ok ["id"];
     db_columns := fun _ _ => Ok ["id"; "name"];
     db_query := fun _ => Err "connection reset" |}.

Definition broken_world : World := fun _ _ => Ok broken_db.

(** The entries of one kind. *)

Definition of_kind (k : DataKind) (e : DataDiffResult) : Prop := ddiff_Type e = k.

Global Instance of_kind_dec k e : Decision (of_kind k e).
Proof. unfold of_kind. apply _. Defined.

(** ** What the schema diff compares *)

(** The attributes [columnsEqual] looks at. *)
Definition same_definition (a b : ColumnInfo) : Prop :=
  col_Type a = col_Type b /\ col_Nullable a = col_Nullable b
  /\ col_Extra a = col_Extra b /\ col_Default a = col_Default b.

(** The columns listed for an index name, in the order of the list. *)
Definition index_columns (indexes : list IndexInfo) (name : string) : list string :=
  idx_Column <$> filter (fun idx => idx_Name idx = name) indexes.

(** Two versions of a table between which [compareTableStructure] sees no
    difference: the same column names, every common column with the same
    definition, and the same columns under every index name but [PRIMARY]. *)
Definition tables_agree (source target : TableInfo) : Prop :=
  (forall name, name ∈ (col_Name <$> tbl_Columns source)
                <-> name ∈ (col_Name <$> tbl_Columns target))
  /\ (forall name s t, colMap (tbl_Columns source) !! name = Some s ->
                       colMap (tbl_Columns target) !! name = Some t -> same_definition s t)
  /\ (forall name, name <> "PRIMARY" ->
                   index_columns (tbl_Indexes source) name
                   = index_columns (tbl_Indexes target) name).

(** A table with an index on [(a, b)] and the same table with the index
    rows listed in the opposite order. *)
Definition index_row (name column : string) (seq : Z) : IndexInfo :=
  {| idx_Name := name; idx_NonUnique := 1; idx_Column := column; idx_SeqInIdx := seq |}.

(** The [orders] table of the source with its columns listed the other
    way round, [id] now a key at position 2. *)
Definition orders_moved : SchemaInfo :=
  snapshot [table "orders"
              [column "total" "DECIMAL" 1;
               {| col_Name := "id"; col_Type := "INT"; col_Nullable := "YES"; col_Key := "PRI";
                  col_Default := None; col_Extra := ""; col_Position := 2 |}]].

(** ** Splitting a script into statements (app.go)

    The loop of [splitSQLStatements] reads the text rune by rune and
    copies each rune to the statement being built.  Here it reads byte by
    byte, which is the same on ASCII text; the properties are stated for
    ASCII text. *)

Fixpoint ascii_text (s : string) : bool :=
  match s with
  | EmptyString => true
  | String c rest => (nat_of_ascii c <? 128)%nat && ascii_text rest
  end.

(** The white space [strings.TrimSpace] removes from ASCII text: tab, line
    feed, vertical tab, form feed, carriage return and space. *)
Definition asciiSpace (c : ascii) : bool :=
  let n := nat_of_ascii c in ((9 <=? n) && (n <=? 13) || (n =? 32))%nat.

Fixpoint trimLeft (s : string) : string :=
  match s with
  | EmptyString => EmptyString
  | String c rest => if asciiSpace c then trimLeft rest else s
  end.

Fixpoint trimRight (s : string) : string :=
  match s with
  | EmptyString => EmptyString
  | String c rest =>
      match trimRight rest with
      | EmptyString => if asciiSpace c then EmptyString else String c EmptyString
      | kept => String c kept
      end
  end.

(** [strings.TrimSpace(s)]. *)
Definition TrimSpace (s : string) : string := trimRight (trimLeft s).

(** [strings.Split(s, sep)] for a separator of one byte: the pieces
    between the separators, one piece for a text without separator. *)
Fixpoint Split (s : string) (sep : ascii) : list string :=
  match s with
  | EmptyString => [EmptyString]
  | String c rest =>
      if Ascii.eqb c sep then EmptyString :: Split rest sep
      else match Split rest sep with
           | piece :: pieces => String c piece :: pieces
           | [] => [String c EmptyString]
           end
  end.

Definition single_quote : ascii := "'".
Definition double_quote : ascii := ascii_of_nat 34.

(** The variables of the loop. *)
Record Scanner := {
  statements : list string;
  current : string;
  inString : bool;
  stringChar : ascii
}.

(** [TrimSpace(current.String())], appended when it is not empty. *)
Definition flush (st : Scanner) : list string :=
  let stmt := TrimSpace (current st) in
  if String.eqb stmt "" then statements st else statements st ++ [stmt].

(** One turn of the loop at the byte [c]; [next] is the byte after it,
    if any ([i+1 < len(sql)]). *)
Definition scanStep (st : Scanner) (c : ascii) (next : option ascii) : Scanner :=
  if inString st then
    let written := current st +:+ String c EmptyString in
    if Ascii.eqb c (stringChar st) then
      if match next with
         | Some n => Ascii.eqb n (stringChar st)
         | None => false
         end
      then {| statements := statements st; current := written; inString := true;
              stringChar := stringChar st |}
      else {| statements := statements st; current := written; inString := false;
              stringChar := stringChar st |}
    else {| statements := statements st; current := written; inString := true;
            stringChar := stringChar st |}
  else if Ascii.eqb c single_quote || Ascii.eqb c double_quote then
    {| statements := statements st; current := current st +:+ String c EmptyString;
       inString := true; stringChar := c |}
  else if Ascii.eqb c ";" then
    {| statements := flush st; current := EmptyString; inString := false;
       stringChar := stringChar st |}
  else
    {| statements := statements st; current := current st +:+ String c EmptyString;
       inString := false; stringChar := stringChar st |}.

Fixpoint scan (st : Scanner) (sql : string) : Scanner :=
  match sql with
  | EmptyString => st
  | String c rest =>
      scan (scanStep st c (match rest with String n _ => Some n | EmptyString => None end)) rest
  end.

Definition scanner0 : Scanner :=
  {| statements := []; current := EmptyString; inString := false; stringChar := zero |}.

(** [splitSQLStatements] (app.go:92). *)
Definition splitSQLStatements (sql : string) : list string := flush (scan scanner0 sql).

(** [c] does not occur in [s]. *)
Fixpoint lacks (c : ascii) (s : string) : bool :=
  match s with
  | EmptyString => true
  | String x rest => negb (Ascii.eqb x c) && lacks c rest
  end.

(** Text without quote characters and without semicolons. *)
Definition plain (s : string) : bool :=
  lacks single_quote s && lacks double_quote s && lacks ";" s.

(** A text between two quote characters. *)
Definition quoted (q : ascii) (body : string) : string :=
  String q (body +:+ String q EmptyString).

(** ** [ExecuteSQL] (app.go:62)

    [db.Exec] is a parameter: its answer to a statement may depend on
    the statements the database has run before.  The result holds the
    statements handed to [db.Exec], in order, and the error returned. *)

Definition Exec := DB -> list string -> string -> option string.

(** The loop over the statements (app.go:79-87); [sent] are the
    statements run so far. *)
Fixpoint execEach (exec : list string -> string -> option string)
    (sent : list string) (stmts : list string) : list string * option string :=
  match stmts with
  | [] => (sent, None)
  | stmt :: rest =>
      let stmt := TrimSpace stmt in
      if String.eqb stmt "" then execEach exec sent rest
      else match exec sent stmt with
           | Some err => (sent ++ [stmt], Some err)
           | None => execEach exec (sent ++ [stmt]) rest
           end
  end.

Definition ExecuteSQL (w : World) (exec : Exec) (config : ConnectionConfig) (sql : string)
    : list Event -> list Event * (list string * option string) := fun tr =>
  match Connect w config tr with
  | (tr', Err msg) => (tr', ([], Some msg))
  | (tr', Ok db) =>
      let dbType := cfg_Type config in
      if bool_decide (dbType = "" \/ dbType = MySQL) then (tr', ([sql], exec db [] sql))
      else (tr', execEach (exec db) [] (splitSQLStatements sql))
  end.

(** Neither empty nor changed by [TrimSpace]. *)
Definition trimmed (s : string) : Prop := s <> "" /\ TrimSpace s = s.

(** [rest] begins with [q]. *)
Definition begins (q : ascii) (rest : string) : bool :=
  match rest with
  | String n _ => Ascii.eqb n q
  | EmptyString => false
  end.

(** Two scanners that differ in the statements found earlier, and in the
    remembered quote while outside a literal. *)
Definition alike (st1 st2 : Scanner) (found : list string) : Prop :=
  statements st1 = found ++ statements st2
  /\ current st1 = current st2
  /\ inString st1 = inString st2
  /\ (inString st1 = true -> stringChar st1 = stringChar st2).

(** A SQL Server configuration, and a database that refuses one
    statement. *)
Definition reporting_config : ConnectionConfig :=
  {| cfg_Type := SQLServer; cfg_Host := "localhost"; cfg_Port := 1433; cfg_User := "sa";
     cfg_Password := "secret"; cfg_Database := "reporting"; cfg_FilePath := "" |}.

Definition refuses (bad : string) : Exec := fun _ _ stmt =>
  if String.eqb stmt bad then Some "syntax error" else None.

(** ** Version comparison (updater/updater.go)

    [fmt.Sscanf(part, "%d", &n)] is a parameter: [scanInt part] is what
    the call leaves in [n], which starts at 0 in every turn of the loop
    and stays 0 when nothing can be read. *)

Section compareVersions.
Variable scanInt : string -> Z.

(** [n1] and [n2] of the loop at index [i]: 0 beyond the last part. *)
Definition part (parts : list string) (i : nat) : Z :=
  match parts !! i with
  | Some p => scanInt p
  | None => 0
  end.

(** The loop from index [i] on, with [turns] turns left. *)
Fixpoint compareFrom (parts1 parts2 : list string) (i turns : nat) : Z :=
  match turns with
  | O => 0
  | S turns =>
      let n1 := part parts1 i in
      let n2 := part parts2 i in
      if (n1 >? n2)%Z then 1
      else if (n1 <? n2)%Z then -1
      else compareFrom parts1 parts2 (S i) turns
  end.

(** [compareVersions] (updater.go:124). *)
Definition compareVersions (v1 v2 : string) : Z :=
  let parts1 := Split v1 "." in
  let parts2 := Split v2 "." in
  let maxLen := if (length parts1 <? length parts2)%nat then length parts2 else length parts1 in
  compareFrom parts1 parts2 0 maxLen.

(** The [i]-th number of a version text. *)
Definition number (v : string) (i : nat) : Z := part (Split v ".") i.

(** The two versions agree before index [i]. *)
Definition agree_before (v1 v2 : string) (i : nat) : Prop :=
  forall j, (j < i)%nat -> number v1 j = number v2 j.

End compareVersions.

(** A reading of unsigned decimal text, for the examples. *)
Fixpoint decimal_from (s : string) (acc : Z) : Z :=
  match s with
  | EmptyString => acc
  | String c rest =>
      if is_digit c then decimal_from rest (10 * acc + (Z.of_nat (nat_of_ascii c) - 48))
      else acc
  end.

Definition decimal (s : string) : Z := decimal_from s 0.

(** ** Saved connections (the connection store of the [database]
    package)

    The store holds the list in memory and writes the whole list to its
    file after every change.  [os.WriteFile] is a parameter: its answer
    to the list it is given.  (Encoding the list cannot fail: it holds
    texts and integers only.)  [written] records the lists handed to
    [save], in order. *)

Record SavedConnection := {
  sc_Name : string;
  sc_Config : ConnectionConfig
}.

Record ConnectionStore := {
  Connections : list SavedConnection;
  written : list (list SavedConnection)
}.

Definition WriteFile := list SavedConnection -> option string.

(** [c.Name == name]. *)
Definition named (name : string) (c : SavedConnection) : Prop := sc_Name c = name.

Global Instance named_dec name c : Decision (named name c).
Proof. unfold named. apply _. Defined.

(** [s.save()] once the list is [connections]. *)
Definition save (write : WriteFile) (s : ConnectionStore) (connections : list SavedConnection)
    : ConnectionStore * option string :=
  ({| Connections := connections; written := written s ++ [connections] |},
   write connections).

(** [GetAll]: a copy of the list. *)
Definition GetAll (s : ConnectionStore) : list SavedConnection := Connections s.

(** [Save]: the first connection of that name is replaced; without one
    the connection is appended. *)
Definition Save (write : WriteFile) (conn : SavedConnection) (s : ConnectionStore)
    : ConnectionStore * option string :=
  match list_find (named (sc_Name conn)) (Connections s) with
  | Some (i, _) => save write s (<[i := conn]> (Connections s))
  | None => save write s (Connections s ++ [conn])
  end.

(** [Delete]: [append(s.Connections[:i], s.Connections[i+1:]...)] for
    the first connection of that name; without one nothing is written. *)
Definition Delete (write : WriteFile) (name : string) (s : ConnectionStore)
    : ConnectionStore * option string :=
  match list_find (named name) (Connections s) with
  | Some (i, _) => save write s (take i (Connections s) ++ drop (S i) (Connections s))
  | None => (s, None)
  end.

(** The names in the store, in order. *)
Definition names (s : ConnectionStore) : list string := sc_Name <$> Connections s.

Definition office : SavedConnection := {| sc_Name := "office"; sc_Config := example_config |}.
Definition staging : SavedConnection := {| sc_Name := "staging"; sc_Config := staging_config |}.

(** A file that cannot be written. *)
Definition read_only : WriteFile := fun _ => Some "permission denied".

(** ** The page query of [GetTableData] (table_browser.go:49-71)

    [int] has 64 bits on the platforms the application is built for;
    the product wraps around. *)

Definition int64 (z : Z) : Z := ((z + 2 ^ 63) mod 2 ^ 64 - 2 ^ 63)%Z.

(** [offset := (page - 1) * pageSize; if offset < 0 { offset = 0 }]. *)
Definition pageOffset (page pageSize : Z) : Z :=
  let offset := int64 (int64 (page - 1) * pageSize) in
  if (offset <? 0)%Z then 0%Z else offset.

Definition pageQuery (dbType : DBType) (tableName : string) (columns : list string)
    (page pageSize : Z) : string :=
  let offset := pageOffset page pageSize in
  let quotedCols := quoteIdentifier dbType <$> columns in
  if bool_decide (dbType = SQLServer) then
    "SELECT " +:+ strings.Join quotedCols ", " +:+ " FROM " +:+ quoteIdentifier dbType tableName
    +:+ " ORDER BY (SELECT NULL) OFFSET " +:+ pretty offset +:+ " ROWS FETCH NEXT "
    +:+ pretty pageSize +:+ " ROWS ONLY"
  else
    "SELECT " +:+ strings.Join quotedCols ", " +:+ " FROM " +:+ quoteIdentifier dbType tableName
    +:+ " LIMIT " +:+ pretty pageSize +:+ " OFFSET " +:+ pretty offset.

(** A column whose default text holds a quote. *)
Definition motto_column : ColumnInfo :=
  {| col_Name := "motto"; col_Type := "VARCHAR(40)"; col_Nullable := "NO"; col_Key := "";
     col_Default := Some "it's fine"; col_Extra := ""; col_Position := 3 |}.

(** ** The script of a data sync (DataSync.vue:428, app.go:78)

    The statements of the entries are joined with line feeds, and
    [ExecuteSQL] splits the text again. *)

(** Text the scanner copies to the statement it builds, being outside a
    literal before and after, when what follows does not begin with a
    quote. *)
Definition passes (t : string) : Prop :=
  forall stmts cur q0 rest,
    begins single_quote rest = false -> begins double_quote rest = false ->
    exists q1,
      scan {| statements := stmts; current := cur; inString := false; stringChar := q0 |}
           (t +:+ rest)
      = scan {| statements := stmts; current := cur +:+ t; inString := false;
                stringChar := q1 |} rest.

(** A value whose rendering by [escapeValue] holds no quote or semicolon
    of its own. *)
Definition clean_value (v : Value) : bool :=
  match v with
  | VNil | VBool _ => true
  | VInt _ | VInt32 _ | VInt64 _ | VFloat32 _ | VFloat64 _ => plain (Sprintf_v v)
  | _ => lacks single_quote (Sprintf_v v)
  end.

(** A row with such values under column names without quotes and
    semicolons. *)
Definition clean_row (row : Row) : Prop :=
  forall col v, row !! col = Some v -> plain col = true /\ clean_value v = true.

(** The text of the script. *)
Definition line_feed : string := String "010" EmptyString.

Definition script (diffs : list DataDiffResult) : string :=
  strings.Join (ddiff_SQL <$> diffs) line_feed.

(** A statement without its final semicolon that the scanner copies whole
    and that is not blank. *)
Definition statement_body (body : string) : Prop := passes body /\ TrimSpace body <> "".

(** The rows of a keyed row set are clean. *)
Definition clean_rows (data : gmap string Row) : Prop :=
  forall key row, data !! key = Some row -> clean_row row.

Definition with_semicolon (body : string) : string := body +:+ ";".

(** Two keyed row sets of a table [users]. *)
Definition sync_source : gmap string Row :=
  {[ "1" := ({[ "id" := VInt64 1; "name" := VString "a;b" ]} : Row) ]}.

Definition sync_target : gmap string Row :=
  {[ "2" := ({[ "id" := VInt64 2; "name" := VString "c" ]} : Row) ]}.

(** * Properties *)

(** ** Range orders *)

Lemma fair_in_order : fair in_order.
Proof. intros s A l. reflexivity. Qed.

Lemma fair_backwards : fair backwards.
Proof. intros s A l. simpl. apply reverse_Permutation. Qed.

Lemma range_Permutation {V} (o : RangeOrder) (s : Site) (m : gmap string V) :
  fair o -> range o s m ≡ₚ map_to_list m.
Proof. intros Ho. apply Ho. Qed.

Lemma elem_of_range {V} (o : RangeOrder) (s : Site) (m : gmap string V) k v :
  fair o -> (k, v) ∈ range o s m <-> m !! k = Some v.
Proof.
  intros Ho. rewrite (range_Permutation o s m Ho). apply elem_of_map_to_list.
Qed.

(** A loop that appends nothing at any entry appends nothing. *)
Lemma bind_nil {A B} (f : A -> list B) (l : list A) :
  (forall x, x ∈ l -> f x = []) -> l ≫= f = [].
Proof.
  induction l as [|x l IH]; intros H; [done|].
  rewrite bind_cons, (H x), IH; [done| |]; [|left].
  intros y Hy. apply H. by right.
Qed.

Lemma bind_Permutation_ext {A B} (f g : A -> list B) (l1 l2 : list A) :
  l1 ≡ₚ l2 -> (forall x, x ∈ l1 -> f x ≡ₚ g x) -> l1 ≫= f ≡ₚ l2 ≫= g.
Proof.
  intros Hl Hfg. rewrite <- Hl. clear l2 Hl.
  induction l1 as [|x l IH]; [done|].
  rewrite !bind_cons. f_equiv.
  - apply Hfg. left.
  - apply IH. intros y Hy. apply Hfg. by right.
Qed.

(** ** [sort.Slice] returns a sorted rearrangement *)

Section sort_Slice_facts.
Context {A : Type} (lessA : A -> A -> bool).

Lemma sink_Permutation x back : sink lessA x back ≡ₚ x :: back.
Proof.
  induction back as [|y back IH]; simpl; [done|].
  destruct (lessA x y); [|done].
  rewrite IH. apply Permutation_swap.
Qed.

Lemma sort_Slice_Permutation data : sort_Slice lessA data ≡ₚ data.
Proof.
  unfold sort_Slice. rewrite reverse_Permutation.
  assert (forall back, foldl (fun back x => sink lessA x back) back data ≡ₚ data ++ back) as H.
  { induction data as [|x data IH]; intros back; simpl; [done|].
    rewrite IH, sink_Permutation. by rewrite Permutation_middle. }
  rewrite H. by rewrite app_nil_r.
Qed.

Lemma sort_Slice_nil : sort_Slice lessA [] = [].
Proof. reflexivity. Qed.

Hypothesis less_asym : forall x y, lessA x y = true -> lessA y x = false.

Lemma sink_Sorted x back : Sorted (not_before lessA) back -> Sorted (not_before lessA) (sink lessA x back).
Proof.
  induction 1 as [|y back Hs IH Hhd]; simpl.
  - repeat constructor.
  - destruct (lessA x y) eqn:Hxy.
    + constructor; [done|].
      destruct Hhd as [|z back' Hyz]; simpl.
      * constructor. by apply less_asym.
      * destruct (lessA x z); constructor; [done|]. by apply less_asym.
    + constructor; [by constructor|]. by constructor.
Qed.

Lemma sort_Slice_Sorted data : Sorted (flip (not_before lessA)) (sort_Slice lessA data).
Proof.
  unfold sort_Slice. apply Sorted_reverse.
  assert (forall back, Sorted (not_before lessA) back ->
            Sorted (not_before lessA) (foldl (fun back x => sink lessA x back) back data)) as H.
  { induction data as [|x data IH]; intros back Hb; simpl; [done|].
    apply IH. by apply sink_Sorted. }
  apply H. constructor.
Qed.
End sort_Slice_facts.

(** ** The comparison of [CompareSchemas] and the specified order *)

Lemma order_inj k1 k2 : order k1 = order k2 -> k1 = k2.
Proof. by destruct k1, k2. Qed.

Lemma strings_lt_asym a b : strings.lt a b = true -> strings.lt b a = false.
Proof.
  unfold strings.lt, String.ltb. rewrite (String.compare_antisym a b).
  by destruct (String.compare b a).
Qed.

Lemma strings_lt_false_le a b : strings.lt b a = false -> (a ≤ b)%string.
Proof.
  unfold strings.lt, String.ltb, String.le, String.leb.
  rewrite (String.compare_antisym a b). by destruct (String.compare b a).
Qed.

Lemma less_asym a b : less a b = true -> less b a = false.
Proof.
  unfold less. destruct (decide (diff_Type a = diff_Type b)) as [E|N].
  - rewrite (bool_decide_eq_true_2 _ E), (bool_decide_eq_true_2 _ (eq_sym E)). simpl.
    apply strings_lt_asym.
  - rewrite (bool_decide_eq_false_2 _ N).
    rewrite (bool_decide_eq_false_2 (diff_Type b = diff_Type a)) by congruence. simpl. lia.
Qed.

Lemma not_before_diff_le a b : not_before less b a -> diff_le a b.
Proof.
  unfold not_before, less, diff_le, key_le, sortKey. simpl.
  destruct (decide (diff_Type b = diff_Type a)) as [E|N].
  - rewrite (bool_decide_eq_true_2 _ E). simpl. intros H. right. split; [done|].
    by apply strings_lt_false_le.
  - rewrite (bool_decide_eq_false_2 _ N). simpl. intros H. left.
    assert (order (diff_Type a) <> order (diff_Type b)).
    { intros E. apply N. symmetry. by apply order_inj. }
    lia.
Qed.

Global Instance key_le_trans : Transitive key_le.
Proof.
  intros [k1 n1] [k2 n2] [k3 n3]. unfold key_le. simpl.
  intros [H1|[-> H1]] [H2|[-> H2]]; [left; lia|by left|by left|].
  right. split; [done|]. by etrans.
Qed.

Global Instance key_le_antisym : AntiSymm (=) key_le.
Proof.
  intros [k1 n1] [k2 n2]. unfold key_le. simpl.
  intros [H1|[-> H1]] [H2|[E H2]]; try lia.
  - rewrite E in H1. lia.
  - f_equal. by apply (anti_symm String.le).
Qed.

Global Instance diff_le_trans : Transitive diff_le.
Proof. intros a b c. unfold diff_le. apply key_le_trans. Qed.

Lemma sort_Slice_less_sorted (l : list DiffResult) :
  StronglySorted diff_le (sort_Slice less l).
Proof.
  apply Sorted_StronglySorted; [apply _|].
  rewrite <- (list_fmap_id (sort_Slice less l)).
  apply (Sorted_fmap id (flip (not_before less))).
  - intros x y. apply not_before_diff_le.
  - apply sort_Slice_Sorted, less_asym.
Qed.

(** Two sorted rearrangements of the same entries show the same kinds and
    table names, position by position. *)
Lemma sorted_keys_unique (l1 l2 : list DiffResult) :
  StronglySorted diff_le l1 -> StronglySorted diff_le l2 -> l1 ≡ₚ l2 ->
  sortKey <$> l1 = sortKey <$> l2.
Proof.
  intros H1 H2 Hp.
  apply (StronglySorted_unique key_le).
  - by apply (StronglySorted_fmap sortKey diff_le key_le).
  - by apply (StronglySorted_fmap sortKey diff_le key_le).
  - by rewrite Hp.
Qed.

(** ** The entries of [compareTableStructure] and [collectDiffs] *)

Lemma compareTableStructure_Permutation o1 o2 tableName source target :
  fair o1 -> fair o2 ->
  compareTableStructure o1 tableName source target
  ≡ₚ compareTableStructure o2 tableName source target.
Proof.
  intros H1 H2. unfold compareTableStructure.
  repeat apply Permutation_app;
    (apply bind_Permutation_ext; [by rewrite !range_Permutation|done]).
Qed.

Lemma collectDiffs_Permutation o1 o2 source target :
  fair o1 -> fair o2 -> collectDiffs o1 source target ≡ₚ collectDiffs o2 source target.
Proof.
  intros H1 H2. unfold collectDiffs.
  repeat apply Permutation_app;
    (apply bind_Permutation_ext; [by rewrite !range_Permutation|]); try done.
  intros [tableName sourceTable] _.
  destruct (schema_Tables target !! tableName); [|done].
  by apply compareTableStructure_Permutation.
Qed.

Lemma compareTableStructure_modified o tableName source target e :
  e ∈ compareTableStructure o tableName source target ->
  diff_Type e = modified /\ diff_TableName e = tableName.
Proof.
  unfold compareTableStructure. rewrite !elem_of_app, !list_elem_of_bind.
  intros [H|[H|[H|[H|H]]]]; destruct H as ([k v] & He & _); revert He;
    repeat case_match; rewrite ?elem_of_nil, ?list_elem_of_singleton;
    try done; by intros ->.
Qed.

Lemma elem_of_collectDiffs o source target e :
  fair o ->
  e ∈ collectDiffs o source target <->
    (exists tableName sourceTable,
        schema_Tables source !! tableName = Some sourceTable
        /\ schema_Tables target !! tableName = None
        /\ e = addedEntry tableName sourceTable)
    \/ (exists tableName,
        is_Some (schema_Tables target !! tableName)
        /\ schema_Tables source !! tableName = None
        /\ e = removedEntry tableName)
    \/ (exists tableName sourceTable targetTable,
        schema_Tables source !! tableName = Some sourceTable
        /\ schema_Tables target !! tableName = Some targetTable
        /\ e ∈ compareTableStructure o tableName sourceTable targetTable).
Proof.
  intros Ho. unfold collectDiffs. rewrite !elem_of_app, !list_elem_of_bind. split.
  - intros [H|[H|H]]; destruct H as ([k v] & He & Hk); apply (elem_of_range o) in Hk; try done.
    + destruct (schema_Tables target !! k) eqn:Et; [by apply elem_of_nil in He|].
      apply list_elem_of_singleton in He. left. eauto.
    + destruct (schema_Tables source !! k) eqn:Es; [by apply elem_of_nil in He|].
      apply list_elem_of_singleton in He. right; left. eauto.
    + destruct (schema_Tables target !! k) eqn:Et; [|by apply elem_of_nil in He].
      right; right. eauto 7.
  - intros [(k & v & Hs & Ht & ->)|[(k & [v Ht] & Hs & ->)|(k & sv & tv & Hs & Ht & He)]].
    + left. exists (k, v). rewrite Ht, (elem_of_range o) by done. split; [left|done].
    + right; left. exists (k, v). rewrite Hs, (elem_of_range o) by done. split; [left|done].
    + right; right. exists (k, sv). rewrite Ht, (elem_of_range o) by done. done.
Qed.

Lemma elem_of_CompareSchemas o source target e :
  e ∈ CompareSchemas o source target <-> e ∈ collectDiffs o source target.
Proof. unfold CompareSchemas. by rewrite sort_Slice_Permutation. Qed.

Lemma added_iff o source target tableName :
  fair o ->
  (exists e, e ∈ CompareSchemas o source target
             /\ diff_Type e = added /\ diff_TableName e = tableName)
  <-> is_Some (schema_Tables source !! tableName) /\ schema_Tables target !! tableName = None.
Proof.
  intros Ho. split.
  - intros (e & He & Hk & Hn). rewrite elem_of_CompareSchemas, elem_of_collectDiffs in He by done.
    destruct He as [(k & v & Hs & Ht & ->)|[(k & _ & _ & ->)|(k & sv & tv & _ & _ & He)]].
    + simpl in Hn. subst k. eauto.
    + done.
    + apply compareTableStructure_modified in He as [He _]. congruence.
  - intros [[v Hs] Ht]. exists (addedEntry tableName v).
    rewrite elem_of_CompareSchemas, elem_of_collectDiffs by done. split; [|done].
    left. eauto.
Qed.

Lemma removed_iff o source target tableName :
  fair o ->
  (exists e, e ∈ CompareSchemas o source target
             /\ diff_Type e = removed /\ diff_TableName e = tableName)
  <-> is_Some (schema_Tables target !! tableName) /\ schema_Tables source !! tableName = None.
Proof.
  intros Ho. split.
  - intros (e & He & Hk & Hn). rewrite elem_of_CompareSchemas, elem_of_collectDiffs in He by done.
    destruct He as [(k & v & Hs & Ht & ->)|[(k & Ht & Hs & ->)|(k & sv & tv & _ & _ & He)]].
    + done.
    + simpl in Hn. by subst k.
    + apply compareTableStructure_modified in He as [He _]. congruence.
  - intros [Ht Hs]. exists (removedEntry tableName).
    rewrite elem_of_CompareSchemas, elem_of_collectDiffs by done. split; [|done].
    right; left. eauto.
Qed.

(** The column scenario of the specification: [amount] is dropped, [total]
    is modified, nothing is added. *)
Example orders_scenario :
  (fun e => (diff_Type e, diff_Detail e, diff_SQL e))
    <$> CompareSchemas in_order orders_source orders_target
  = [(modified, "Drop column: amount", "ALTER TABLE `orders` DROP COLUMN `amount`;");
     (modified, "Modify column: total (VARCHAR -> DECIMAL)",
      "ALTER TABLE `orders` MODIFY COLUMN `total` DECIMAL;")].
Proof. vm_compute. reflexivity. Qed.

(** ** Ordering of the schema diff list *)

(** C2, as far as the code goes: the list [CompareSchemas] returns is
    sorted by kind ([added], then [modified], then [removed]) and, among
    entries of one kind, by table name ascending.  Whatever order the map
    loops take, two calls on the same snapshots return the same entries
    and the same sequence of kinds and table names; the order among entries
    of one kind and one table is not part of this. *)
Theorem CompareSchemas_sorted_same_keys (o1 o2 : RangeOrder) (source target : SchemaInfo) :
  fair o1 -> fair o2 ->
  StronglySorted diff_le (CompareSchemas o1 source target)
  /\ CompareSchemas o1 source target ≡ₚ CompareSchemas o2 source target
  /\ sortKey <$> CompareSchemas o1 source target = sortKey <$> CompareSchemas o2 source target.
Proof.
  intros H1 H2.
  assert (CompareSchemas o1 source target ≡ₚ CompareSchemas o2 source target) as Hp.
  { unfold CompareSchemas. rewrite !sort_Slice_Permutation. by apply collectDiffs_Permutation. }
  split; [apply sort_Slice_less_sorted|]. split; [done|].
  apply sorted_keys_unique; [apply sort_Slice_less_sorted..|done].
Qed.

Lemma CompareSchemas_sorted_same_keys_witness :
  fair in_order /\ fair backwards
  /\ StronglySorted diff_le (CompareSchemas in_order example_source example_target)
  /\ CompareSchemas in_order example_source example_target
     ≡ₚ CompareSchemas backwards example_source example_target
  /\ sortKey <$> CompareSchemas in_order example_source example_target
     = sortKey <$> CompareSchemas backwards example_source example_target.
Proof.
  split; [apply fair_in_order|]. split; [apply fair_backwards|].
  apply (CompareSchemas_sorted_same_keys in_order backwards example_source example_target
           fair_in_order fair_backwards).
Defined.

(** C2 as stated fails: on the example snapshots, where table [t] gains
    two columns, two fair loop orders return the two [modified] entries of
    [t] in different order. *)
Lemma CompareSchemas_order_not_fixed :
  ~ (forall o1 o2 : RangeOrder, fair o1 -> fair o2 ->
       CompareSchemas o1 example_source example_target
       = CompareSchemas o2 example_source example_target).
Proof.
  intros H. specialize (H in_order backwards fair_in_order fair_backwards).
  vm_compute in H. discriminate H.
Qed.

(** ** Antisymmetry of table existence *)

(** C9: a table yields an [added] entry when comparing [A] with [B]
    exactly when it yields a [removed] entry when comparing [B] with [A]. *)
Theorem added_removed_antisymmetry (o1 o2 : RangeOrder) (A B : SchemaInfo) (T : string) :
  fair o1 -> fair o2 ->
  (exists e, e ∈ CompareSchemas o1 A B /\ diff_Type e = added /\ diff_TableName e = T)
  <-> (exists e, e ∈ CompareSchemas o2 B A /\ diff_Type e = removed /\ diff_TableName e = T).
Proof.
  intros H1 H2. by rewrite added_iff, removed_iff.
Qed.

Lemma added_removed_antisymmetry_witness :
  fair in_order /\ fair backwards
  /\ ((exists e, e ∈ CompareSchemas in_order example_source example_target
                 /\ diff_Type e = added /\ diff_TableName e = "u")
      <-> (exists e, e ∈ CompareSchemas backwards example_target example_source
                     /\ diff_Type e = removed /\ diff_TableName e = "u")).
Proof.
  split; [apply fair_in_order|]. split; [apply fair_backwards|].
  apply (added_removed_antisymmetry in_order backwards example_source example_target "u"
           fair_in_order fair_backwards).
Defined.

(** ** Comparing a snapshot or a row set with itself *)

Lemma defaultsEqual_refl a : defaultsEqual a a = true.
Proof. destruct a; simpl; [apply String.eqb_refl|done]. Qed.

Lemma columnsEqual_refl c : columnsEqual c c = true.
Proof. unfold columnsEqual. by rewrite !String.eqb_refl, defaultsEqual_refl. Qed.

Lemma stringSlicesEqual_refl l : stringSlicesEqual l l = true.
Proof.
  unfold stringSlicesEqual. rewrite Nat.eqb_refl. simpl.
  induction l as [|x l IH]; simpl; [done|]. by rewrite String.eqb_refl.
Qed.

Lemma compareTableStructure_same o tableName t :
  fair o -> compareTableStructure o tableName t t = [].
Proof.
  intros Ho. unfold compareTableStructure.
  repeat (rewrite bind_nil; [rewrite ?app_nil_l|]); [done|..];
    intros [k v] Hk%(elem_of_range o); try done; rewrite ?Hk; try done.
  - by destruct (String.eqb k "PRIMARY").
  - destruct (String.eqb k "PRIMARY"); [done|]. by rewrite stringSlicesEqual_refl.
  - by rewrite columnsEqual_refl.
Qed.

Lemma rowsEqual_refl (row : Row) : rowsEqual row row = true.
Proof.
  unfold rowsEqual. rewrite Nat.eqb_refl. simpl. apply forallb_forall.
  intros [k v] Hk%list_elem_of_In%elem_of_map_to_list.
  unfold row_get. rewrite Hk. apply String.eqb_refl.
Qed.

Lemma CompareSchemas_same o S : fair o -> CompareSchemas o S S = [].
Proof.
  intros Ho. unfold CompareSchemas, collectDiffs.
  repeat (rewrite bind_nil; [rewrite ?app_nil_l|]); [done|..];
    intros [k v] Hk%(elem_of_range o); try done; rewrite Hk; try done.
  by apply compareTableStructure_same.
Qed.

Lemma compareKeyedRows_same o dbType tableName columns primaryKeys (data : gmap string Row) :
  fair o -> compareKeyedRows o dbType tableName columns primaryKeys data data = [].
Proof.
  intros Ho. unfold compareKeyedRows.
  repeat (rewrite bind_nil; [rewrite ?app_nil_l|]); [done|..];
    intros [k v] Hk%(elem_of_range o); try done; rewrite Hk; try done.
  by rewrite rowsEqual_refl.
Qed.

(** C6: comparing a snapshot with itself, or a keyed row set with itself,
    yields the empty list. *)
Theorem compare_with_itself_is_empty (o : RangeOrder) (S : SchemaInfo)
    (dbType : DBType) (tableName : string) (columns primaryKeys : list string)
    (data : gmap string Row) :
  fair o ->
  CompareSchemas o S S = []
  /\ compareKeyedRows o dbType tableName columns primaryKeys data data = [].
Proof.
  intros Ho. split; [by apply CompareSchemas_same|by apply compareKeyedRows_same].
Qed.

Lemma compare_with_itself_is_empty_witness :
  fair in_order
  /\ CompareSchemas in_order example_source example_source = []
  /\ compareKeyedRows in_order MySQL "users" ["id"; "name"] ["id"]
       example_source_rows example_source_rows = [].
Proof.
  split; [apply fair_in_order|].
  apply (compare_with_itself_is_empty in_order example_source MySQL "users"
           ["id"; "name"] ["id"] example_source_rows fair_in_order).
Defined.

(** ** Placing an added column *)

Lemma colMap_snoc cols c : colMap (cols ++ [c]) = <[col_Name c := c]> (colMap cols).
Proof. unfold colMap. by rewrite foldl_snoc. Qed.

Lemma colMap_lookup_Some cols name c :
  colMap cols !! name = Some c -> c ∈ cols /\ col_Name c = name.
Proof.
  induction cols as [|d cols IH] using rev_ind; [done|].
  rewrite colMap_snoc, lookup_insert. case_decide as E.
  - intros [= ->]. split; [|done]. apply elem_of_app. right. left.
  - intros [H1 H2]%IH. split; [|done]. apply elem_of_app. by left.
Qed.

Lemma colMap_lookup_None cols name :
  colMap cols !! name = None <-> name ∉ (col_Name <$> cols).
Proof.
  induction cols as [|d cols IH] using rev_ind.
  { split; [intros _ H; by apply elem_of_nil in H|done]. }
  rewrite colMap_snoc, lookup_insert, fmap_app, elem_of_app. simpl.
  rewrite list_elem_of_singleton. case_decide as E.
  - split; [done|]. intros H. destruct H. by right.
  - rewrite IH. split; [by intros H [?|?]|]. intros H ?. apply H. by left.
Qed.

Lemma colMap_lookup_NoDup cols c :
  NoDup (col_Name <$> cols) -> c ∈ cols -> colMap cols !! col_Name c = Some c.
Proof.
  induction cols as [|d cols IH] using rev_ind; [by intros _ ?%elem_of_nil|].
  rewrite fmap_app, NoDup_app. simpl. intros (Hnd & Hdis & _).
  rewrite colMap_snoc, lookup_insert, elem_of_app, list_elem_of_singleton.
  intros [Hc| ->].
  - rewrite decide_False; [by apply IH|].
    intros E. apply (Hdis (col_Name c)); [by apply list_elem_of_fmap_2|].
    rewrite E. left.
  - by rewrite decide_True.
Qed.

Lemma well_positioned_bounds cols c :
  well_positioned cols -> c ∈ cols -> (1 <= col_Position c <= Z.of_nat (length cols))%Z.
Proof.
  intros [_ Hp] Hc.
  assert (col_Position c ∈ seqZ 1 (Z.of_nat (length cols))) as H.
  { rewrite <- Hp. by apply list_elem_of_fmap_2. }
  apply elem_of_seqZ in H. lia.
Qed.

Lemma well_positioned_previous cols c :
  well_positioned cols -> c ∈ cols -> (1 < col_Position c)%Z ->
  exists p, p ∈ cols /\ col_Position p = (col_Position c - 1)%Z.
Proof.
  intros Hw Hc Hlt. pose proof (well_positioned_bounds cols c Hw Hc) as Hb.
  destruct Hw as [_ Hp].
  assert ((col_Position c - 1)%Z ∈ col_Position <$> cols) as H.
  { rewrite Hp. apply elem_of_seqZ. lia. }
  apply list_elem_of_fmap in H as (p & Hp1 & Hp2). eauto.
Qed.

Lemma well_positioned_unique cols p q :
  well_positioned cols -> p ∈ cols -> q ∈ cols -> col_Position p = col_Position q -> p = q.
Proof.
  intros [_ Hp] H1 H2 E.
  assert (NoDup (col_Position <$> cols)) as Hnd.
  { rewrite Hp. apply NoDup_seqZ. }
  clear Hp. induction cols as [|d cols IH]; [by apply elem_of_nil in H1|].
  rewrite fmap_cons in Hnd. apply NoDup_cons in Hnd as [Hd Hnd].
  apply elem_of_cons in H1 as [->|H1], H2 as [->|H2]; [done| | |by apply IH].
  - destruct Hd. rewrite E. by apply list_elem_of_fmap_2.
  - destruct Hd. rewrite <- E. by apply list_elem_of_fmap_2.
Qed.

Lemma afterClause_well_positioned cols c :
  well_positioned cols -> c ∈ cols ->
  (col_Position c = 1%Z -> afterClause cols c = " FIRST")
  /\ (col_Position c <> 1%Z ->
      exists p, p ∈ cols /\ col_Position p = (col_Position c - 1)%Z
                /\ (forall q, q ∈ cols -> col_Position q = (col_Position c - 1)%Z -> q = p)
                /\ afterClause cols c = " AFTER `" +:+ col_Name p +:+ "`").
Proof.
  intros Hw Hc. pose proof (well_positioned_bounds cols c Hw Hc) as Hb.
  unfold afterClause. split.
  - intros ->. done.
  - intros Hne. assert ((1 <? col_Position c)%Z = true) as -> by lia.
    destruct (well_positioned_previous cols c Hw Hc ltac:(lia)) as (p & Hp1 & Hp2).
    destruct (List.find _ cols) as [p'|] eqn:Hf.
    + apply find_some in Hf as [Hin%list_elem_of_In Heq%Z.eqb_eq].
      exists p'. split; [done|]. split; [done|]. split; [|done].
      intros q Hq1 Hq2. apply (well_positioned_unique cols); [done..|congruence].
    + apply find_none with (x := p) in Hf; [|by apply list_elem_of_In].
      apply Z.eqb_neq in Hf. done.
Qed.



(** ** Value escaping *)

Lemma literal_body_escaped (s : string) :
  literal_body (strings.ReplaceAll s "'" "''" +:+ "'") = Some s.
Proof.
  induction s as [|c s IH]; [done|].
  simpl. destruct (Ascii.eqb c "'") eqn:E.
  - apply Ascii.eqb_eq in E as ->. simpl.
    change ("" +:+ strings.ReplaceAll s "'" "''") with (strings.ReplaceAll s "'" "''").
    by rewrite IH.
  - simpl. by rewrite E, IH.
Qed.

(** C8: [escapeValue] renders nil as [NULL], the integer and floating
    point types by their plain text, booleans as [1] and [0], and anything
    else as its text between single quotes with every single quote doubled;
    read back as a quoted literal, such a value gives the original text,
    as [O'Brien] does through ['O''Brien']. *)
Theorem escapeValue_renders_and_reads_back :
  escapeValue VNil = "NULL"
  /\ (forall n, escapeValue (VInt n) = pretty n /\ escapeValue (VInt32 n) = pretty n
                /\ escapeValue (VInt64 n) = pretty n)
  /\ (forall t, escapeValue (VFloat32 t) = t /\ escapeValue (VFloat64 t) = t)
  /\ escapeValue (VBool true) = "1" /\ escapeValue (VBool false) = "0"
  /\ (forall s, escapeValue (VString s) = "'" +:+ strings.ReplaceAll s "'" "''" +:+ "'"
                /\ readLiteral (escapeValue (VString s)) = Some s)
  /\ (forall b, readLiteral (escapeValue (VBytes b)) = Some (Sprintf_v (VBytes b)))
  /\ (forall t, readLiteral (escapeValue (VOther t)) = Some t)
  /\ escapeValue (VString "O'Brien") = "'O''Brien'"
  /\ readLiteral "'O''Brien'" = Some "O'Brien".
Proof.
  repeat split; try reflexivity; try intros x; exact (literal_body_escaped _).
Qed.

(** ** Default values *)

Lemma numeric_from_later i s :
  numeric_from (S i) s = forallb digit_or_dot (list_ascii_of_string s).
Proof.
  revert i. induction s as [|c s IH]; intros i; [done|].
  cbn [numeric_from list_ascii_of_string forallb]. rewrite !IH.
  unfold digit_or_dot, is_digit. simpl.
  destruct (Ascii.eqb c "."); [by rewrite orb_true_r|].
  rewrite orb_false_r. by destruct (Ascii.ltb c "0" || Ascii.ltb "9" c).
Qed.

(** What [isNumericDefault] accepts: a non-empty text that, after one
    optional leading minus, holds only digits and dots. *)
Lemma isNumericDefault_accepts val :
  isNumericDefault val
  = negb (String.eqb val "") && forallb digit_or_dot (list_ascii_of_string (strip_minus val)).
Proof.
  unfold isNumericDefault. destruct val as [|c rest]; [done|].
  cbn [String.eqb negb andb numeric_from Nat.eqb strip_minus].
  destruct (Ascii.eqb c "-") eqn:E.
  - cbn [andb]. apply numeric_from_later.
  - cbn [andb list_ascii_of_string forallb]. rewrite numeric_from_later.
    unfold digit_or_dot, is_digit.
    destruct (Ascii.eqb c "."); [by rewrite orb_true_r|].
    rewrite orb_false_r. by destruct (Ascii.ltb c "0" || Ascii.ltb "9" c).
Qed.

(** Every numeric literal in the specification's sense is accepted. *)
Lemma numeric_literal_accepted s : numeric_literal s = true -> isNumericDefault s = true.
Proof.
  rewrite isNumericDefault_accepts. unfold numeric_literal.
  intros [[Hall _]%andb_true_iff Hex]%andb_true_iff.
  rewrite Hall, andb_true_r. by destruct s.
Qed.

(** A gap in the ordinal positions, which the data model excludes, leaves
    the added column without a positional clause. *)
Example afterClause_at_a_gap :
  afterClause [column "a" "INT" 1; column "c" "INT" 3] (column "c" "INT" 3) = "".
Proof. reflexivity. Qed.

(** C4 on the text default [1.2.3]: it is not a numeric literal (two
    decimal points), not one of the keywords, does not end in [()] and
    does not start with [(], yet [isNumericDefault] accepts it and the
    column definition carries it without quotes. *)
Theorem dotted_default_rendered_unquoted :
  numeric_literal "1.2.3" = false
  /\ existsb (String.eqb (strings.ToUpper "1.2.3")) specialDefaults = false
  /\ strings.HasSuffix "1.2.3" "()" = false
  /\ strings.HasPrefix "1.2.3" "(" = false
  /\ isNumericDefault "1.2.3" = true
  /\ buildColumnDef version_column = "VARCHAR(20) NOT NULL DEFAULT 1.2.3".
Proof. repeat split; reflexivity. Qed.

(** ** Classification of keys by the data diff *)

Lemma elements_dom_keys {V} (m : gmap string V) : elements (dom m) ≡ₚ (map_to_list m).*1.
Proof.
  rewrite dom_alt. apply elements_list_to_set, NoDup_fst_map_to_list.
Qed.

(** A loop over a map, read as a loop over its keys. *)
Lemma bind_map_to_list_keys {V B} (m : gmap string V) (g : string * V -> list B) :
  map_to_list m ≫= g
  ≡ₚ elements (dom m) ≫= (fun k => match m !! k with Some v => g (k, v) | None => [] end).
Proof.
  rewrite elements_dom_keys, list_fmap_bind.
  apply bind_Permutation_ext; [done|].
  intros [k v] Hk%elem_of_map_to_list. simpl. by rewrite Hk.
Qed.

(** Keys at which a loop appends nothing can be added to its range. *)
Lemma bind_elements_extend {B} (X Y : gset string) (h : string -> list B) :
  X ⊆ Y -> (forall k, k ∉ X -> h k = []) -> elements X ≫= h ≡ₚ elements Y ≫= h.
Proof.
  intros Hsub Hnil.
  assert (Y = X ∪ (Y ∖ X)) as -> by (apply union_difference_L; done).
  rewrite elements_disj_union by (by apply disjoint_difference_r1). rewrite bind_app.
  rewrite (bind_nil h (elements (_ ∖ _))); [by rewrite app_nil_r|].
  intros k [_ Hk]%elem_of_elements%elem_of_difference. by apply Hnil.
Qed.

Lemma bind_app_pointwise {A B} (f g : A -> list B) (l : list A) :
  (l ≫= f) ++ (l ≫= g) ≡ₚ l ≫= (fun x => f x ++ g x).
Proof.
  induction l as [|x l IH]; [done|].
  rewrite !bind_cons, <- IH.
  rewrite <- !(assoc_L (++)). f_equiv.
  rewrite !(assoc_L (++)). f_equiv. apply Permutation_app_comm.
Qed.

Lemma forallb_false {A} (f : A -> bool) (l : list A) :
  forallb f l = false <-> exists x, x ∈ l /\ f x = false.
Proof.
  induction l as [|x l IH]; simpl.
  - split; [done|]. by intros (x & ?%elem_of_nil & _).
  - rewrite andb_false_iff, IH. split.
    + intros [H|(y & Hy & Hf)]; [exists x; split; [left|done]|exists y; split; [by right|done]].
    + intros (y & [->|Hy]%elem_of_cons & Hf); [by left|right; eauto].
Qed.

Lemma rowsEqual_false (a b : Row) : rowsEqual a b = false <-> text_differs a b.
Proof.
  unfold rowsEqual, text_differs.
  destruct (size a =? size b)%nat eqn:E; simpl.
  - apply Nat.eqb_eq in E. rewrite forallb_false. split.
    + intros ([k v] & Hk%elem_of_map_to_list & Hf). right. exists k, v. split; [done|].
      by apply String.eqb_neq.
    + intros [Hne|(k & v & Hk & Hf)]; [done|]. exists (k, v).
      split; [by apply elem_of_map_to_list|]. by apply String.eqb_neq.
  - apply Nat.eqb_neq in E. split; [by left|done].
Qed.

(** C1: the entries [CompareTableData] builds from two keyed row sets are,
    up to order, one classification per composite key: an insert with the
    source row for a key only the source has, an update with old = target
    row and new = source row for a key both have with rows that differ in
    text form, a delete with the target row for a key only the target has,
    and nothing for a key whose rows are text-equal. *)
Theorem CompareTableData_classifies_every_key (o : RangeOrder) (targetType : DBType)
    (tableName : string) (columns primaryKeys : list string)
    (sourceData targetData : gmap string Row) :
  fair o ->
  compareKeyedRows o targetType tableName columns primaryKeys sourceData targetData
    ≡ₚ elements (dom sourceData ∪ dom targetData)
         ≫= classify o targetType tableName columns primaryKeys sourceData targetData
  /\ (forall a b : Row, rowsEqual a b = false <-> text_differs a b).
Proof.
  intros Ho. split; [|apply rowsEqual_false].
  unfold compareKeyedRows. rewrite !range_Permutation by done.
  rewrite !bind_map_to_list_keys.
  rewrite (bind_elements_extend (dom sourceData) (dom sourceData ∪ dom targetData));
    [|apply union_subseteq_l|by intros k ->%not_elem_of_dom].
  rewrite (bind_elements_extend (dom targetData) (dom sourceData ∪ dom targetData));
    [|apply union_subseteq_r|by intros k ->%not_elem_of_dom].
  rewrite bind_app_pointwise. apply bind_Permutation_ext; [done|].
  intros k _. unfold classify.
  destruct (sourceData !! k) as [s|], (targetData !! k) as [t|]; simpl; try done.
  destruct (rowsEqual s t); done.
Qed.

Lemma CompareTableData_classifies_every_key_witness :
  fair in_order
  /\ compareKeyedRows in_order MySQL "users" ["id"; "name"] ["id"]
       example_source_rows example_target_rows
     ≡ₚ elements (dom example_source_rows ∪ dom example_target_rows)
          ≫= classify in_order MySQL "users" ["id"; "name"] ["id"]
               example_source_rows example_target_rows
  /\ (forall a b : Row, rowsEqual a b = false <-> text_differs a b).
Proof.
  split; [apply fair_in_order|].
  apply (CompareTableData_classifies_every_key in_order MySQL "users" ["id"; "name"] ["id"]
           example_source_rows example_target_rows fair_in_order).
Defined.

(** The scenario of the specification: ids 1 and 2 in the source, 2 and 3
    in the target. *)
Example classification_scenario :
  (fun e => (ddiff_Type e, ddiff_SQL e))
    <$> compareKeyedRows in_order MySQL "users" ["id"; "name"] ["id"]
          example_source_rows example_target_rows
  = [(row_insert, "INSERT INTO `users` (`id`, `name`) VALUES (1, 'a');");
     (row_update, "UPDATE `users` SET `name` = 'b' WHERE `id` = 2;");
     (row_delete, "DELETE FROM `users` WHERE `id` = 3;")].
Proof. vm_compute. reflexivity. Qed.

(** ** The composite key is not injective *)

(** C10: two rows whose primary-key values differ column by column can
    have the same [|]-joined key; the later row then replaces the earlier
    one in the keyed row set, and the insert, update or delete that the
    replaced row calls for is not produced. *)
Theorem composite_key_collision :
  let columns := ["a"; "b"; "v"] in
  let primaryKeys := ["a"; "b"] in
  let row1 := scanRow columns pipe_row_1 in
  let row2 := scanRow columns pipe_row_2 in
  row_get row1 "a" <> row_get row2 "a"
  /\ row_get row1 "b" <> row_get row2 "b"
  /\ pkKeyOf primaryKeys row1 = "x|y|z"
  /\ pkKeyOf primaryKeys row2 = "x|y|z"
  /\ keyRows columns primaryKeys [pipe_row_1; pipe_row_2] = {[ "x|y|z" := row2 ]}
  /\ (forall o dbType, fair o ->
        compareKeyedRows o dbType "t" columns primaryKeys
          (keyRows columns primaryKeys [pipe_row_1; pipe_row_2])
          (keyRows columns primaryKeys [pipe_row_2]) = []
        /\ compareKeyedRows o dbType "t" columns primaryKeys
             (keyRows columns primaryKeys [pipe_row_1; pipe_row_2])
             (keyRows columns primaryKeys [pipe_row_1_changed; pipe_row_2]) = []
        /\ compareKeyedRows o dbType "t" columns primaryKeys
             (keyRows columns primaryKeys [pipe_row_2])
             (keyRows columns primaryKeys [pipe_row_1; pipe_row_2]) = []).
Proof.
  cbv zeta.
  assert (forall first,
            pkKeyOf ["a"; "b"] (scanRow ["a"; "b"; "v"] first) = "x|y|z" ->
            keyRows ["a"; "b"; "v"] ["a"; "b"] [first; pipe_row_2]
            = {[ "x|y|z" := scanRow ["a"; "b"; "v"] pipe_row_2 ]}) as E2.
  { intros first Hk. unfold keyRows. simpl foldl. rewrite Hk.
    change (pkKeyOf ["a"; "b"] (scanRow ["a"; "b"; "v"] pipe_row_2)) with "x|y|z".
    by rewrite insert_insert_eq, insert_empty. }
  assert (keyRows ["a"; "b"; "v"] ["a"; "b"] [pipe_row_2]
          = {[ "x|y|z" := scanRow ["a"; "b"; "v"] pipe_row_2 ]}) as E1.
  { unfold keyRows. simpl foldl.
    change (pkKeyOf ["a"; "b"] (scanRow ["a"; "b"; "v"] pipe_row_2)) with "x|y|z".
    by rewrite insert_empty. }
  split; [vm_compute; congruence|]. split; [vm_compute; congruence|].
  split; [reflexivity|]. split; [reflexivity|].
  split; [by apply E2|].
  intros o dbType Ho. rewrite !E2, E1 by reflexivity.
  repeat split; by apply compareKeyedRows_same.
Qed.

(** ** A table without a primary key *)

Lemma buildDSN_Ok_supported config driver dsn :
  buildDSN config = Ok (driver, dsn) -> supported (cfg_Type config) = true.
Proof.
  unfold buildDSN, supported. intros H. apply bool_decide_eq_true.
  repeat case_bool_decide; try discriminate H; tauto.
Qed.

Lemma supported_effective dbType :
  supported dbType = true -> supported (if String.eqb dbType "" then MySQL else dbType) = true.
Proof. intros H. by destruct (String.eqb dbType ""). Qed.

(** C3: when both connections open and the source reports no primary-key
    column for the table, [CompareTableData] stops with the error
    [table T has no primary key]: the databases were asked for nothing
    beyond the key columns (no column list, no rows), and the caller gets
    a nil slice with the error. *)
Theorem no_primary_key_is_fatal (w : World) (o : RangeOrder)
    (sourceConfig targetConfig : ConnectionConfig) (tableName : string)
    (sourceDB targetDB : DB) (sdriver sdsn tdriver tdsn : string) (tr : list Event) :
  buildDSN sourceConfig = Ok (sdriver, sdsn) -> w sdriver sdsn = Ok sourceDB ->
  buildDSN targetConfig = Ok (tdriver, tdsn) -> w tdriver tdsn = Ok targetDB ->
  db_primaryKeys sourceDB (cfg_Database sourceConfig) tableName = Ok [] ->
  CompareTableData w o sourceConfig targetConfig tableName tr
  = (tr ++ [ev_connect sourceConfig; ev_connect targetConfig; ev_primaryKeys tableName],
     Err ("table " +:+ tableName +:+ " has no primary key"))
  /\ returned (CompareTableData w o sourceConfig targetConfig tableName tr).2
     = ([], Some ("table " +:+ tableName +:+ " has no primary key")).
Proof.
  intros Hs Hws Ht Hwt Hpk.
  assert (CompareTableData w o sourceConfig targetConfig tableName tr
          = (tr ++ [ev_connect sourceConfig; ev_connect targetConfig; ev_primaryKeys tableName],
             Err ("table " +:+ tableName +:+ " has no primary key"))) as E.
  { unfold CompareTableData, mbind, M_bind, wrapErr, Connect, getPrimaryKeys, call, fail.
    rewrite Hs, Hws, Ht, Hwt.
    rewrite (supported_effective _ (buildDSN_Ok_supported _ _ _ Hs)).
    rewrite Hpk. simpl. by rewrite <- !(assoc_L (++)). }
  split; [exact E|]. by rewrite E.
Qed.

Lemma no_primary_key_is_fatal_witness :
  buildDSN example_config
  = Ok ("mysql", "root:secret@tcp(localhost:3306)/app?parseTime=true&multiStatements=true")
  /\ CompareTableData keyless_world in_order example_config example_config "log" []
     = ([ev_connect example_config; ev_connect example_config; ev_primaryKeys "log"],
        Err "table log has no primary key")
  /\ returned (CompareTableData keyless_world in_order example_config example_config "log" []).2
     = ([], Some "table log has no primary key").
Proof.
  split; [reflexivity|].
  apply (no_primary_key_is_fatal keyless_world in_order example_config example_config "log"
           keyless_db keyless_db "mysql"
           "root:secret@tcp(localhost:3306)/app?parseTime=true&multiStatements=true"
           "mysql" "root:secret@tcp(localhost:3306)/app?parseTime=true&multiStatements=true" []);
    reflexivity.
Defined.

(** ** Identifier quoting in generated statements *)

Lemma string_app_nil_l (b : string) : "" +:+ b = b.
Proof. reflexivity. Qed.

Lemma string_app_cons (x : ascii) (a b : string) : String x a +:+ b = String x (a +:+ b).
Proof. reflexivity. Qed.

Lemma string_app_assoc (a b c : string) : (a +:+ b) +:+ c = a +:+ (b +:+ c).
Proof.
  induction a as [|x a IH]; [done|]. rewrite !string_app_cons. by rewrite IH.
Qed.

(** Statements are compared after flattening their concatenations. *)
Ltac flatten_text :=
  unfold backtick, dquote, bracket;
  repeat (rewrite string_app_assoc || rewrite string_app_cons || rewrite string_app_nil_l).

Lemma buildIndexMap_snoc indexes idx :
  buildIndexMap (indexes ++ [idx])
  = <[idx_Name idx := default [] (buildIndexMap indexes !! idx_Name idx)
                      ++ [backtick (idx_Column idx)]]> (buildIndexMap indexes).
Proof. unfold buildIndexMap. by rewrite foldl_snoc. Qed.

Lemma buildIndexMap_backticked indexes name quoted :
  buildIndexMap indexes !! name = Some quoted -> exists cols, quoted = backtick <$> cols.
Proof.
  revert name quoted. induction indexes as [|idx indexes IH] using rev_ind; intros name quoted.
  - done.
  - rewrite buildIndexMap_snoc, lookup_insert. case_decide as E; [|by apply IH].
    intros [= <-]. destruct (buildIndexMap indexes !! idx_Name idx) as [l|] eqn:El; simpl.
    + apply IH in El as [cols ->]. exists (cols ++ [idx_Column idx]). by rewrite fmap_app.
    + by exists [idx_Column idx].
Qed.

Lemma extractPrimaryKey_snoc row pks key :
  extractPrimaryKey row (pks ++ [key]) = <[key := row_get row key]> (extractPrimaryKey row pks).
Proof. unfold extractPrimaryKey. by rewrite foldl_snoc. Qed.

Lemma extractPrimaryKey_get row pks key :
  key ∈ pks -> row_get (extractPrimaryKey row pks) key = row_get row key.
Proof.
  induction pks as [|k pks IH] using rev_ind; [by intros ?%elem_of_nil|].
  rewrite extractPrimaryKey_snoc. unfold row_get at 1. rewrite lookup_insert.
  case_decide as E; [by subst|].
  intros [H|H%list_elem_of_singleton]%elem_of_app; [by apply IH|congruence].
Qed.

Lemma generateDeleteSQL_extracted dbType tableName primaryKeys (row : Row) :
  generateDeleteSQL dbType tableName primaryKeys (extractPrimaryKey row primaryKeys)
  = "DELETE FROM " +:+ quoteIdentifier dbType tableName +:+ " WHERE "
    +:+ strings.Join ((fun key => quoteIdentifier dbType key +:+ " = "
                                  +:+ escapeValue (row_get row key)) <$> primaryKeys) " AND "
    +:+ ";".
Proof.
  unfold generateDeleteSQL. do 4 f_equal. unfold strings.Join. f_equal.
  apply list_eq. intros i. rewrite !list_lookup_fmap.
  destruct (primaryKeys !! i) as [key|] eqn:Ei; simpl; [|done].
  rewrite extractPrimaryKey_get; [done|]. by eapply list_elem_of_lookup_2.
Qed.

Lemma quoteIdentifier_lookup :
  (forall name,
      quoteIdentifier MySQL name = backtick name
      /\ quoteIdentifier "" name = backtick name
      /\ quoteIdentifier PostgreSQL name = dquote name
      /\ quoteIdentifier SQLite name = dquote name
      /\ quoteIdentifier SQLServer name = bracket name)
  /\ (forall dbType name,
        dbType <> PostgreSQL -> dbType <> SQLite -> dbType <> SQLServer ->
        quoteIdentifier dbType name = backtick name).
Proof.
  split; [done|]. intros d name H1 H2 H3. unfold quoteIdentifier.
  repeat case_decide; done.
Qed.

Lemma afterClause_forms cols c :
  afterClause cols c = " FIRST" \/ afterClause cols c = ""
  \/ exists p, afterClause cols c = " AFTER " +:+ backtick p.
Proof.
  unfold afterClause. destruct (1 <? col_Position c)%Z; [|by left].
  destruct (List.find _ cols) as [p|]; [|by right; left].
  right; right. exists (col_Name p). by flatten_text.
Qed.

Lemma compareTableStructure_form o source tableName sourceTable targetTable e :
  fair o -> e ∈ compareTableStructure o tableName sourceTable targetTable ->
  schema_statement_form source e.
Proof.
  intros Ho He. pose proof (compareTableStructure_modified _ _ _ _ _ He) as [Hk Hn].
  unfold schema_statement_form. rewrite Hk, Hn. clear Hk Hn.
  unfold compareTableStructure in He. rewrite !elem_of_app, !list_elem_of_bind in He.
  destruct He as [H|[H|[H|[H|H]]]]; destruct H as ([k v] & He & Hkv);
    apply (elem_of_range o) in Hkv; try done.
  - destruct (colMap (tbl_Columns targetTable) !! k); [by apply elem_of_nil in He|].
    apply list_elem_of_singleton in He as ->. left.
    exists k, (buildColumnDef v), (afterClause (tbl_Columns sourceTable) v).
    split; [simpl; by flatten_text|apply afterClause_forms].
  - destruct (colMap (tbl_Columns sourceTable) !! k); [by apply elem_of_nil in He|].
    apply list_elem_of_singleton in He as ->. right; left. exists k. simpl. by flatten_text.
  - destruct (colMap (tbl_Columns targetTable) !! k) as [tc|]; [|by apply elem_of_nil in He].
    destruct (negb _); [|by apply elem_of_nil in He].
    apply list_elem_of_singleton in He as ->. right; right; left.
    exists k, (buildColumnDef v). simpl. by flatten_text.
  - destruct (String.eqb k "PRIMARY"); [by apply elem_of_nil in He|].
    apply buildIndexMap_backticked in Hkv as [cols ->].
    destruct (buildIndexMap (tbl_Indexes targetTable) !! k) as [tcols|].
    + destruct (negb _); [|by apply elem_of_nil in He].
      apply list_elem_of_singleton in He as ->. do 4 right; left.
      exists k, cols. simpl. by flatten_text.
    + apply list_elem_of_singleton in He as ->. do 3 right; left.
      exists k, cols. simpl. by flatten_text.
  - destruct (String.eqb k "PRIMARY"); [by apply elem_of_nil in He|].
    destruct (buildIndexMap (tbl_Indexes sourceTable) !! k); [by apply elem_of_nil in He|].
    apply list_elem_of_singleton in He as ->. do 5 right.
    exists k. simpl. by flatten_text.
Qed.

Lemma CompareSchemas_form o source target e :
  fair o -> e ∈ CompareSchemas o source target -> schema_statement_form source e.
Proof.
  intros Ho. rewrite elem_of_CompareSchemas, elem_of_collectDiffs by done.
  intros [(k & v & Hs & Ht & ->)|[(k & _ & _ & ->)|(k & sv & tv & _ & _ & He)]].
  - unfold schema_statement_form. simpl. eauto.
  - unfold schema_statement_form. simpl. by flatten_text.
  - by eapply compareTableStructure_form.
Qed.

Lemma generateUpdateSQL_form o s dbType tableName (row : Row) primaryKeys :
  fair o ->
  exists sets,
    Forall (fun s => exists col val, row !! col = Some val
                                     /\ s = quoted_assignment dbType col val) sets
    /\ generateUpdateSQL o s dbType tableName row primaryKeys
       = "UPDATE " +:+ quoteIdentifier dbType tableName
         +:+ " SET " +:+ strings.Join sets ", "
         +:+ " WHERE "
         +:+ strings.Join ((fun pk => quoted_assignment dbType pk (row_get row pk))
                             <$> primaryKeys) " AND "
         +:+ ";".
Proof.
  intros Ho. eexists. split; [|reflexivity].
  apply Forall_forall. intros x ([col val] & Hx & Hcv)%list_elem_of_bind.
  apply (elem_of_range o) in Hcv; [|done]. cbv zeta in Hx.
  destruct (negb (existsb (String.eqb col) primaryKeys)); [|by apply elem_of_nil in Hx].
  apply list_elem_of_singleton in Hx as ->. by exists col, val.
Qed.

Lemma compareKeyedRows_form o dbType tableName columns primaryKeys
    (sourceData targetData : gmap string Row) e :
  fair o ->
  e ∈ compareKeyedRows o dbType tableName columns primaryKeys sourceData targetData ->
  data_statement_form dbType tableName columns primaryKeys e.
Proof.
  intros Ho. unfold compareKeyedRows. rewrite elem_of_app, !list_elem_of_bind.
  intros [([k s] & He & _)|([k t] & He & _)].
  - destruct (targetData !! k) as [t|].
    + destruct (negb _); [|by apply elem_of_nil in He].
      apply list_elem_of_singleton in He as ->. unfold data_statement_form. simpl.
      destruct (generateUpdateSQL_form o (update_sets k) dbType tableName s primaryKeys Ho)
        as (sets & Hsets & ->).
      by exists s, sets.
    + apply list_elem_of_singleton in He as ->. unfold data_statement_form. simpl.
      by exists s, (filter (fun col => is_Some (s !! col)) columns).
  - destruct (sourceData !! k); [by apply elem_of_nil in He|].
    apply list_elem_of_singleton in He as ->. unfold data_statement_form. simpl.
    exists t. split; [done|]. apply generateDeleteSQL_extracted.
Qed.




(** * Further properties *)

(** ** Maps filled by a loop of assignments *)

Section assigned_facts.
Context {A V : Type} (key : A -> string) (val : A -> V).

Lemma assigned_snoc l x : assigned key val (l ++ [x]) = <[key x := val x]> (assigned key val l).
Proof. unfold assigned. by rewrite foldl_snoc. Qed.

Lemma assigned_lookup_None l k :
  assigned key val l !! k = None <-> forall x, x ∈ l -> key x <> k.
Proof.
  induction l as [|x l IH] using rev_ind.
  - split; [by intros _ x ?%elem_of_nil|done].
  - rewrite assigned_snoc, lookup_insert. case_decide as E.
    + split; [done|]. intros H. destruct (H x); [|done]. apply elem_of_app. right. left.
    + rewrite IH. split.
      * intros H y [Hy| ->%list_elem_of_singleton]%elem_of_app; [by apply H|done].
      * intros H y Hy. apply H, elem_of_app. by left.
Qed.

Lemma assigned_lookup_Some l k v :
  assigned key val l !! k = Some v
  <-> exists i x, last_with_key key l k i x /\ val x = v.
Proof.
  induction l as [|x l IH] using rev_ind.
  - split; [done|]. by intros (i & y & [Hy _] & _).
  - rewrite assigned_snoc, lookup_insert. case_decide as E.
    + split.
      * intros [= <-]. exists (length l), x. split; [|done]. split; [|split; [done|]].
        -- by rewrite lookup_app_r, Nat.sub_diag.
        -- intros j y Hj Hy. apply lookup_lt_Some in Hy. rewrite length_app in Hy. simpl in Hy. lia.
      * intros (i & y & (Hy & Hk & Hlast) & <-).
        destruct (decide (i = length l)) as [->|Hi].
        -- rewrite lookup_app_r, Nat.sub_diag in Hy by lia. by injection Hy as ->.
        -- assert (i < length l)%nat as Hlt.
           { apply lookup_lt_Some in Hy. rewrite length_app in Hy. simpl in Hy. lia. }
           destruct (Hlast (length l) x Hlt); [|done].
           by rewrite lookup_app_r, Nat.sub_diag.
    + rewrite IH. split.
      * intros (i & y & (Hy & Hk & Hlast) & <-). exists i, y. split; [|done].
        split; [by apply lookup_app_l_Some|]. split; [done|].
        intros j z Hj Hz. destruct (decide (j < length l)%nat) as [Hlt|Hge].
        -- rewrite lookup_app_l in Hz by done. by eapply Hlast.
        -- rewrite lookup_app_r in Hz by lia.
           destruct (j - length l)%nat; [|done]. injection Hz as <-. done.
      * intros (i & y & (Hy & Hk & Hlast) & <-).
        assert (i < length l)%nat as Hlt.
        { destruct (decide (i < length l)%nat) as [|Hge]; [done|].
          rewrite lookup_app_r in Hy by lia.
          destruct (i - length l)%nat; [|done]. injection Hy as <-. done. }
        rewrite lookup_app_l in Hy by done. exists i, y. split; [|done].
        split; [done|]. split; [done|].
        intros j z Hj Hz. apply (Hlast j z Hj). by apply lookup_app_l_Some.
Qed.

Lemma assigned_dom l : dom (assigned key val l) = list_to_set (key <$> l).
Proof.
  induction l as [|x l IH] using rev_ind; [apply dom_empty_L|].
  rewrite assigned_snoc, dom_insert_L, IH, fmap_app, list_to_set_app_L. simpl.
  rewrite (right_id_L ∅ (∪)). apply (comm_L (∪)).
Qed.

Lemma assigned_size l : NoDup (key <$> l) -> size (assigned key val l) = length l.
Proof.
  intros Hnd. rewrite <- size_dom, assigned_dom, size_list_to_set by done.
  by rewrite length_fmap.
Qed.

Lemma assigned_size_le l : (size (assigned key val l) <= length l)%nat.
Proof.
  induction l as [|x l IH] using rev_ind; [done|].
  rewrite assigned_snoc, map_size_insert, length_app. simpl.
  destruct (assigned key val l !! key x); simpl; lia.
Qed.
End assigned_facts.

(** ** Rows and keyed row sets as [getTableData] builds them *)

Lemma foldl_ext_all {A B} (f g : A -> B -> A) (l : list B) (a : A) :
  (forall a x, f a x = g a x) -> foldl f a l = foldl g a l.
Proof.
  intros H. revert a. induction l as [|x l IH]; intros a; simpl; [done|]. by rewrite H, IH.
Qed.

Lemma scanRow_assigned columns values :
  scanRow columns values
  = assigned snd (fun p : nat * string => stored (default VNil (values !! p.1)))
      (imap (fun i col => (i, col)) columns).
Proof.
  unfold scanRow, assigned. apply foldl_ext_all.
  intros row [i col]. simpl. by destruct (default VNil (values !! i)).
Qed.

Lemma last_with_key_imap (columns : list string) col i p :
  last_with_key snd (imap (fun i col => (i, col)) columns) col i p
  <-> p = (i, col) /\ columns !! i = Some col
      /\ forall j, (i < j)%nat -> columns !! j <> Some col.
Proof.
  unfold last_with_key. rewrite list_lookup_imap. split.
  - intros (Hp & Hk & Hlast).
    destruct (columns !! i) as [c|] eqn:Hc; [|done]. injection Hp as <-. simpl in Hk. subst c.
    split; [done|]. split; [done|].
    intros j Hj Hcj. apply (Hlast j (j, col) Hj); [|done].
    by rewrite list_lookup_imap, Hcj.
  - intros (-> & Hc & Hlast). rewrite Hc. split; [done|]. split; [done|].
    intros j [j' c] Hj Hy. rewrite list_lookup_imap in Hy.
    destruct (columns !! j) as [c'|] eqn:Hc'; [|done]. injection Hy as <- <-.
    simpl. intros ->. by apply (Hlast j Hj).
Qed.

(** X1: a scanned row holds, for each column name, the value scanned
    for the last column of that name, a byte slice turned into a string;
    it holds nothing under any other name and never a byte slice. *)
Theorem scanRow_holds_last_column (columns : list string) (values : list Value) :
  (forall col v,
      scanRow columns values !! col = Some v
      <-> exists i, columns !! i = Some col
                    /\ (forall j, (i < j)%nat -> columns !! j <> Some col)
                    /\ v = stored (default VNil (values !! i)))
  /\ (forall col, scanRow columns values !! col = None <-> col ∉ columns)
  /\ (forall col b, scanRow columns values !! col <> Some (VBytes b)).
Proof.
  assert (forall col v,
      scanRow columns values !! col = Some v
      <-> exists i, columns !! i = Some col
                    /\ (forall j, (i < j)%nat -> columns !! j <> Some col)
                    /\ v = stored (default VNil (values !! i))) as Hsome.
  { intros col v. rewrite scanRow_assigned, assigned_lookup_Some. split.
    - intros (i & p & (-> & Hc & Hlast)%last_with_key_imap & <-). eauto.
    - intros (i & Hc & Hlast & ->). exists i, (i, col). split; [|done].
      by apply last_with_key_imap. }
  split; [exact Hsome|]. split.
  - intros col. rewrite scanRow_assigned, assigned_lookup_None. split.
    + intros H [i Hi]%list_elem_of_lookup. apply (H (i, col)); [|done].
      apply list_elem_of_lookup. exists i. by rewrite list_lookup_imap, Hi.
    + intros H [i c] [j Hj]%list_elem_of_lookup. rewrite list_lookup_imap in Hj.
      destruct (columns !! j) as [c'|] eqn:Hc'; [|done]. injection Hj as <- <-.
      simpl. intros ->. apply H. by eapply list_elem_of_lookup_2.
  - intros col b [i (_ & _ & Hv)]%Hsome. by destruct (default VNil (values !! i)).
Qed.

Lemma keyRows_assigned columns primaryKeys scanned :
  keyRows columns primaryKeys scanned
  = assigned (fun values => pkKeyOf primaryKeys (scanRow columns values))
      (scanRow columns) scanned.
Proof. reflexivity. Qed.

(** X2: the keyed row set holds, under each key, the last scanned row
    with that key, and nothing else: every row it holds is stored under
    its own key, its keys are the keys of the scanned rows, and it never
    has more entries than rows were scanned. *)
Theorem keyRows_holds_last_row (columns primaryKeys : list string)
    (scanned : list (list Value)) :
  (forall k row,
      keyRows columns primaryKeys scanned !! k = Some row
      <-> exists i values,
            last_with_key (fun values => pkKeyOf primaryKeys (scanRow columns values))
              scanned k i values
            /\ row = scanRow columns values)
  /\ (forall k row,
        keyRows columns primaryKeys scanned !! k = Some row -> pkKeyOf primaryKeys row = k)
  /\ dom (keyRows columns primaryKeys scanned)
     = list_to_set ((fun values => pkKeyOf primaryKeys (scanRow columns values)) <$> scanned)
  /\ (size (keyRows columns primaryKeys scanned) <= length scanned)%nat.
Proof.
  rewrite keyRows_assigned. split; [|split; [|split]].
  - intros k row. rewrite assigned_lookup_Some. split.
    + intros (i & values & H & <-). eauto.
    + intros (i & values & H & ->). eauto.
  - intros k row (i & values & (_ & Hk & _) & <-)%assigned_lookup_Some. done.
  - apply assigned_dom.
  - apply assigned_size_le.
Qed.

(** X3: when the scanned rows have pairwise different keys, no row is
    lost: the keyed row set has as many entries as rows were scanned and
    every scanned row is found under its key. *)
Theorem keyRows_keeps_every_row (columns primaryKeys : list string)
    (scanned : list (list Value)) :
  NoDup ((fun values => pkKeyOf primaryKeys (scanRow columns values)) <$> scanned) ->
  size (keyRows columns primaryKeys scanned) = length scanned
  /\ forall values, values ∈ scanned ->
       keyRows columns primaryKeys scanned !! pkKeyOf primaryKeys (scanRow columns values)
       = Some (scanRow columns values).
Proof.
  intros Hnd. rewrite keyRows_assigned. split; [by apply assigned_size|].
  intros values [i Hi]%list_elem_of_lookup. apply assigned_lookup_Some.
  exists i, values. split; [|done]. split; [done|]. split; [done|].
  intros j y Hj Hy E.
  assert (i = j); [|lia].
  eapply NoDup_lookup; [exact Hnd| |]; rewrite list_lookup_fmap.
  - by rewrite Hi.
  - by rewrite Hy, <- E.
Qed.

Lemma keyRows_keeps_every_row_witness :
  NoDup ((fun values => pkKeyOf ["id"] (scanRow ["id"; "name"] values))
           <$> [[VInt64 1; VBytes "a"]; [VInt64 2; VBytes "b"]])
  /\ size example_source_rows = 2%nat
  /\ forall values, values ∈ [[VInt64 1; VBytes "a"]; [VInt64 2; VBytes "b"]] ->
       example_source_rows !! pkKeyOf ["id"] (scanRow ["id"; "name"] values)
       = Some (scanRow ["id"; "name"] values).
Proof.
  assert (NoDup ((fun values => pkKeyOf ["id"] (scanRow ["id"; "name"] values))
                   <$> [[VInt64 1; VBytes "a"]; [VInt64 2; VBytes "b"]])) as Hnd.
  { apply (bool_decide_unpack _). vm_compute. exact I. }
  split; [exact Hnd|].
  apply (keyRows_keeps_every_row ["id"; "name"] ["id"]
           [[VInt64 1; VBytes "a"]; [VInt64 2; VBytes "b"]] Hnd).
Defined.

(** ** Comparing rows of the same columns *)

Lemma row_get_outside (row : Row) col : col ∉ dom row -> row_get row col = VNil.
Proof. intros H%not_elem_of_dom. unfold row_get. by rewrite H. Qed.

Lemma rowsEqual_true_same_columns (a b : Row) :
  dom a = dom b ->
  rowsEqual a b = true <-> forall col, Sprintf_v (row_get a col) = Sprintf_v (row_get b col).
Proof.
  intros Hdom. unfold rowsEqual.
  assert (size a = size b) as -> by (by rewrite <- !size_dom, Hdom).
  rewrite Nat.eqb_refl. simpl. rewrite forallb_forall. split.
  - intros H col. destruct (a !! col) as [v|] eqn:Ha.
    + specialize (H (col, v)). rewrite String.eqb_eq in H.
      unfold row_get at 1. rewrite Ha. simpl. apply H.
      by apply list_elem_of_In, elem_of_map_to_list.
    + rewrite !row_get_outside; [done| |].
      * rewrite <- Hdom. by apply not_elem_of_dom.
      * by apply not_elem_of_dom.
  - intros H [col v] Hin%list_elem_of_In%elem_of_map_to_list.
    apply String.eqb_eq. specialize (H col). unfold row_get at 1 in H. by rewrite Hin in H.
Qed.

(** X4: on two rows with the same columns, as any two rows of one
    comparison are, [rowsEqual] holds exactly when every column renders to
    the same text on both sides, whatever the types of the values, and it
    does not matter which row is given first. *)
Theorem rowsEqual_on_same_columns (a b : Row) :
  dom a = dom b ->
  (rowsEqual a b = true
   <-> forall col, Sprintf_v (row_get a col) = Sprintf_v (row_get b col))
  /\ rowsEqual a b = rowsEqual b a.
Proof.
  intros Hdom. split; [by apply rowsEqual_true_same_columns|].
  destruct (rowsEqual a b) eqn:Hab, (rowsEqual b a) eqn:Hba; try done.
  - rewrite rowsEqual_true_same_columns in Hab by done.
    assert (rowsEqual b a = true); [|congruence].
    apply rowsEqual_true_same_columns; [done|]. intros col. by rewrite Hab.
  - rewrite rowsEqual_true_same_columns in Hba by done.
    assert (rowsEqual a b = true); [|congruence].
    apply rowsEqual_true_same_columns; [done|]. intros col. by rewrite Hba.
Qed.

Lemma rowsEqual_on_same_columns_witness :
  dom (scanRow ["id"; "n"] [VInt64 7; VInt64 1]) = dom (scanRow ["id"; "n"] [VBytes "7"; VBytes "1"])
  /\ (rowsEqual (scanRow ["id"; "n"] [VInt64 7; VInt64 1])
               (scanRow ["id"; "n"] [VBytes "7"; VBytes "1"]) = true
      <-> forall col,
            Sprintf_v (row_get (scanRow ["id"; "n"] [VInt64 7; VInt64 1]) col)
            = Sprintf_v (row_get (scanRow ["id"; "n"] [VBytes "7"; VBytes "1"]) col))
  /\ rowsEqual (scanRow ["id"; "n"] [VInt64 7; VInt64 1])
               (scanRow ["id"; "n"] [VBytes "7"; VBytes "1"])
     = rowsEqual (scanRow ["id"; "n"] [VBytes "7"; VBytes "1"])
                 (scanRow ["id"; "n"] [VInt64 7; VInt64 1]).
Proof.
  assert (dom (scanRow ["id"; "n"] [VInt64 7; VInt64 1])
          = dom (scanRow ["id"; "n"] [VBytes "7"; VBytes "1"])) as Hdom.
  { rewrite !scanRow_assigned, !assigned_dom. reflexivity. }
  split; [exact Hdom|].
  apply (rowsEqual_on_same_columns _ _ Hdom).
Defined.

(** ** The key carried by an entry *)

Lemma extractPrimaryKey_lookup (row : Row) primaryKeys k :
  extractPrimaryKey row primaryKeys !! k
  = if decide (k ∈ primaryKeys) then Some (row_get row k) else None.
Proof.
  change (extractPrimaryKey row primaryKeys) with (assigned id (row_get row) primaryKeys).
  case_decide as Hk.
  - apply assigned_lookup_Some.
    assert (exists i, primaryKeys !! i = Some k
                      /\ forall j, (i < j)%nat -> primaryKeys !! j <> Some k) as (i & Hi & Hlast).
    { clear row. induction primaryKeys as [|p pks IH] using rev_ind; [by apply elem_of_nil in Hk|].
      destruct (decide (p = k)) as [->|Hne].
      - exists (length pks). split; [by rewrite lookup_app_r, Nat.sub_diag|].
        intros j Hj Hl. apply lookup_lt_Some in Hl. rewrite length_app in Hl. simpl in Hl. lia.
      - apply elem_of_app in Hk as [Hk|Hk%list_elem_of_singleton]; [|done].
        destruct (IH Hk) as (i & Hi & Hlast). exists i.
        split; [by apply lookup_app_l_Some|].
        intros j Hj Hl. destruct (decide (j < length pks)%nat).
        + rewrite lookup_app_l in Hl by done. by eapply Hlast.
        + rewrite lookup_app_r in Hl by lia. destruct (j - length pks)%nat; [|done].
          by injection Hl as ->. }
    exists i, k. split; [|done]. split; [done|]. split; [done|].
    intros j y Hj Hy E. simpl in E. subst y. by apply (Hlast j Hj).
  - apply assigned_lookup_None. intros x Hx E. simpl in E. by subst x.
Qed.

(** X5: every entry of the data diff carries, as its primary key,
    exactly the primary-key columns with the values of its own row (nil
    for a column the row lacks): the source row it carries as new values
    for an insert or an update, the target row it carries as old values
    for a delete. *)
Theorem entry_key_is_taken_from_its_row (o : RangeOrder) (targetType : DBType)
    (tableName : string) (columns primaryKeys : list string)
    (sourceData targetData : gmap string Row) (e : DataDiffResult) :
  fair o ->
  e ∈ compareKeyedRows o targetType tableName columns primaryKeys sourceData targetData ->
  exists pkKey row,
    match ddiff_Type e with
    | row_delete => targetData !! pkKey = Some row /\ ddiff_OldValues e = Some row
    | _ => sourceData !! pkKey = Some row /\ ddiff_NewValues e = Some row
    end
    /\ forall k, ddiff_PrimaryKey e !! k
                 = if decide (k ∈ primaryKeys) then Some (row_get row k) else None.
Proof.
  intros Ho. unfold compareKeyedRows. rewrite elem_of_app, !list_elem_of_bind.
  intros [([k s] & He & Hk%(elem_of_range o))|([k t] & He & Hk%(elem_of_range o))]; try done.
  - exists k, s. destruct (targetData !! k) as [t|].
    + destruct (negb _); [|by apply elem_of_nil in He].
      apply list_elem_of_singleton in He as ->. simpl. split; [done|].
      apply extractPrimaryKey_lookup.
    + apply list_elem_of_singleton in He as ->. simpl. split; [done|].
      apply extractPrimaryKey_lookup.
  - exists k, t. destruct (sourceData !! k); [by apply elem_of_nil in He|].
    apply list_elem_of_singleton in He as ->. simpl. split; [done|].
    apply extractPrimaryKey_lookup.
Qed.

Lemma entry_key_is_taken_from_its_row_witness :
  fair in_order
  /\ insertEntry MySQL "users" ["id"; "name"] ["id"] (scanRow ["id"; "name"] [VInt64 1; VBytes "a"])
       ∈ compareKeyedRows in_order MySQL "users" ["id"; "name"] ["id"]
           example_source_rows example_target_rows
  /\ exists pkKey row,
       (example_source_rows !! pkKey = Some row
        /\ Some (scanRow ["id"; "name"] [VInt64 1; VBytes "a"]) = Some row)
       /\ forall k, extractPrimaryKey (scanRow ["id"; "name"] [VInt64 1; VBytes "a"]) ["id"] !! k
                    = if decide (k ∈ ["id"]) then Some (row_get row k) else None.
Proof.
  assert (insertEntry MySQL "users" ["id"; "name"] ["id"]
            (scanRow ["id"; "name"] [VInt64 1; VBytes "a"])
          ∈ compareKeyedRows in_order MySQL "users" ["id"; "name"] ["id"]
              example_source_rows example_target_rows) as Hin.
  { vm_compute. left. }
  split; [apply fair_in_order|]. split; [exact Hin|].
  apply (entry_key_is_taken_from_its_row in_order MySQL "users" ["id"; "name"] ["id"]
           example_source_rows example_target_rows _ fair_in_order Hin).
Defined.

(** ** A whole run of [CompareTableData] *)

Lemma supported_effectiveType config driver dsn :
  buildDSN config = Ok (driver, dsn) -> supported (effectiveType config) = true.
Proof.
  intros H. unfold effectiveType. by eapply supported_effective, buildDSN_Ok_supported.
Qed.

Lemma CompareTableData_healthy w o sourceConfig targetConfig tableName sourceDB targetDB
    primaryKeys columns sourceRows targetRows tr :
  Healthy w sourceConfig targetConfig tableName sourceDB targetDB primaryKeys columns
    sourceRows targetRows ->
  CompareTableData w o sourceConfig targetConfig tableName tr
  = (tr ++ healthy_trace sourceConfig targetConfig tableName columns,
     Ok (compareKeyedRows o (effectiveType targetConfig) tableName columns primaryKeys
           (keyRows columns primaryKeys sourceRows) (keyRows columns primaryKeys targetRows))).
Proof.
  intros [(sd & sn & Hs & Hws) (td & tn & Ht & Hwt) Hpk Hne Hcols Hsr Htr].
  pose proof (supported_effectiveType _ _ _ Hs) as Hsup.
  unfold CompareTableData, mbind, M_bind, wrapErr, Connect, getPrimaryKeys, getColumns,
    getTableData, mbind, M_bind, mret, M_ret, call, fail.
  fold (effectiveType sourceConfig) (effectiveType targetConfig).
  rewrite Hs, Hws, Ht, Hwt, Hsup, Hpk.
  destruct primaryKeys as [|pk pks]; [done|].
  rewrite Hcols.
  fold (selectAll (effectiveType sourceConfig) tableName columns)
       (selectAll (effectiveType targetConfig) tableName columns).
  rewrite Hsr, Htr. unfold healthy_trace. cbn [length Nat.eqb].
  f_equal. by rewrite <- !(assoc_L (++)).
Qed.

(** X6: when every step succeeds, [CompareTableData] makes six calls in
    a fixed order (two connections, key columns and columns of the source,
    then all rows of the source and of the target) and returns the diff of
    the two keyed row sets.  The target is read and keyed with the
    source's column and key lists, each table is queried in its own
    dialect, and the statements are written for the target's dialect. *)
Theorem CompareTableData_whole_run (w : World) (o : RangeOrder)
    (sourceConfig targetConfig : ConnectionConfig) (tableName : string)
    (sourceDB targetDB : DB) (primaryKeys columns : list string)
    (sourceRows targetRows : list (list Value)) (tr : list Event) :
  Healthy w sourceConfig targetConfig tableName sourceDB targetDB primaryKeys columns
    sourceRows targetRows ->
  CompareTableData w o sourceConfig targetConfig tableName tr
  = (tr ++ [ev_connect sourceConfig; ev_connect targetConfig; ev_primaryKeys tableName;
            ev_columns tableName;
            ev_rows ("SELECT "
                     +:+ strings.Join (quoteIdentifier (effectiveType sourceConfig) <$> columns) ", "
                     +:+ " FROM " +:+ quoteIdentifier (effectiveType sourceConfig) tableName);
            ev_rows ("SELECT "
                     +:+ strings.Join (quoteIdentifier (effectiveType targetConfig) <$> columns) ", "
                     +:+ " FROM " +:+ quoteIdentifier (effectiveType targetConfig) tableName)],
     Ok (compareKeyedRows o (effectiveType targetConfig) tableName columns primaryKeys
           (keyRows columns primaryKeys sourceRows) (keyRows columns primaryKeys targetRows))).
Proof. apply CompareTableData_healthy. Qed.

Lemma users_healthy :
  Healthy users_world example_config staging_config "users"
    (users_db [[VInt64 1; VBytes "a"]; [VInt64 2; VBytes "b"]])
    (users_db [[VInt64 2; VBytes "B"]; [VInt64 3; VBytes "c"]])
    ["id"] ["id"; "name"]
    [[VInt64 1; VBytes "a"]; [VInt64 2; VBytes "b"]]
    [[VInt64 2; VBytes "B"]; [VInt64 3; VBytes "c"]].
Proof.
  split; try reflexivity; try discriminate.
  - eexists _, _. split; reflexivity.
  - eexists _, _. split; reflexivity.
Qed.

Lemma CompareTableData_whole_run_witness :
  Healthy users_world example_config staging_config "users"
    (users_db [[VInt64 1; VBytes "a"]; [VInt64 2; VBytes "b"]])
    (users_db [[VInt64 2; VBytes "B"]; [VInt64 3; VBytes "c"]])
    ["id"] ["id"; "name"]
    [[VInt64 1; VBytes "a"]; [VInt64 2; VBytes "b"]]
    [[VInt64 2; VBytes "B"]; [VInt64 3; VBytes "c"]]
  /\ CompareTableData users_world in_order example_config staging_config "users" []
     = ([ev_connect example_config; ev_connect staging_config; ev_primaryKeys "users";
         ev_columns "users"; ev_rows "SELECT `id`, `name` FROM `users`";
         ev_rows "SELECT `id`, `name` FROM `users`"],
        Ok (compareKeyedRows in_order MySQL "users" ["id"; "name"] ["id"]
              example_source_rows example_target_rows)).
Proof.
  split; [exact users_healthy|].
  apply (CompareTableData_whole_run users_world in_order example_config staging_config "users"
           _ _ _ _ _ _ [] users_healthy).
Defined.

(** ** Where [CompareTableData] stops *)

(** X7: a connection that cannot be made ends [CompareTableData] at
    once.  A refused or failed source connection is reported as
    [source connection failed: ...] and the target is not dialled; a
    refused or failed target connection is reported as
    [target connection failed: ...]; in neither case is any query sent. *)
Theorem CompareTableData_connection_failures (w : World) (o : RangeOrder)
    (sourceConfig targetConfig : ConnectionConfig) (tableName : string) (tr : list Event) :
  (forall e, buildDSN sourceConfig = Err e ->
     CompareTableData w o sourceConfig targetConfig tableName tr
     = (tr, Err ("source connection failed: " +:+ e)))
  /\ (forall driver dsn e, buildDSN sourceConfig = Ok (driver, dsn) -> w driver dsn = Err e ->
        CompareTableData w o sourceConfig targetConfig tableName tr
        = (tr ++ [ev_connect sourceConfig], Err ("source connection failed: " +:+ e)))
  /\ (forall sourceDB e, opens w sourceConfig sourceDB -> buildDSN targetConfig = Err e ->
        CompareTableData w o sourceConfig targetConfig tableName tr
        = (tr ++ [ev_connect sourceConfig], Err ("target connection failed: " +:+ e)))
  /\ (forall sourceDB driver dsn e, opens w sourceConfig sourceDB ->
        buildDSN targetConfig = Ok (driver, dsn) -> w driver dsn = Err e ->
        CompareTableData w o sourceConfig targetConfig tableName tr
        = (tr ++ [ev_connect sourceConfig; ev_connect targetConfig],
           Err ("target connection failed: " +:+ e))).
Proof.
  unfold opens, CompareTableData, mbind, M_bind, wrapErr, Connect, call, fail.
  repeat split.
  - intros e ->. done.
  - intros driver dsn e -> ->. done.
  - intros sourceDB e (sd & sn & -> & ->) ->. done.
  - intros sourceDB driver dsn e (sd & sn & -> & ->) -> ->. by rewrite <- (assoc_L (++)).
Qed.

(** X8: once both connections are open, the first query that fails
    ends [CompareTableData] and nothing is asked after it.  A failing key
    or column query is returned as it is; a failing row query is reported
    as [failed to get source data: ...] (the target's rows are then never
    requested) or [failed to get target data: ...]. *)
Theorem CompareTableData_query_failures (w : World) (o : RangeOrder)
    (sourceConfig targetConfig : ConnectionConfig) (tableName : string)
    (sourceDB targetDB : DB) (tr : list Event) :
  opens w sourceConfig sourceDB -> opens w targetConfig targetDB ->
  (forall e,
      db_primaryKeys sourceDB (cfg_Database sourceConfig) tableName = Err e ->
      CompareTableData w o sourceConfig targetConfig tableName tr
      = (tr ++ [ev_connect sourceConfig; ev_connect targetConfig; ev_primaryKeys tableName],
         Err e))
  /\ (forall primaryKeys e,
        db_primaryKeys sourceDB (cfg_Database sourceConfig) tableName = Ok primaryKeys ->
        primaryKeys <> [] ->
        db_columns sourceDB (cfg_Database sourceConfig) tableName = Err e ->
        CompareTableData w o sourceConfig targetConfig tableName tr
        = (tr ++ [ev_connect sourceConfig; ev_connect targetConfig; ev_primaryKeys tableName;
                  ev_columns tableName],
           Err e))
  /\ (forall primaryKeys columns e,
        db_primaryKeys sourceDB (cfg_Database sourceConfig) tableName = Ok primaryKeys ->
        primaryKeys <> [] ->
        db_columns sourceDB (cfg_Database sourceConfig) tableName = Ok columns ->
        db_query sourceDB (selectAll (effectiveType sourceConfig) tableName columns) = Err e ->
        CompareTableData w o sourceConfig targetConfig tableName tr
        = (tr ++ [ev_connect sourceConfig; ev_connect targetConfig; ev_primaryKeys tableName;
                  ev_columns tableName;
                  ev_rows (selectAll (effectiveType sourceConfig) tableName columns)],
           Err ("failed to get source data: " +:+ e)))
  /\ (forall primaryKeys columns sourceRows e,
        db_primaryKeys sourceDB (cfg_Database sourceConfig) tableName = Ok primaryKeys ->
        primaryKeys <> [] ->
        db_columns sourceDB (cfg_Database sourceConfig) tableName = Ok columns ->
        db_query sourceDB (selectAll (effectiveType sourceConfig) tableName columns)
        = Ok sourceRows ->
        db_query targetDB (selectAll (effectiveType targetConfig) tableName columns) = Err e ->
        CompareTableData w o sourceConfig targetConfig tableName tr
        = (tr ++ healthy_trace sourceConfig targetConfig tableName columns,
           Err ("failed to get target data: " +:+ e))).
Proof.
  intros (sd & sn & Hs & Hws) (td & tn & Ht & Hwt).
  pose proof (supported_effectiveType _ _ _ Hs) as Hsup.
  unfold CompareTableData, mbind, M_bind, wrapErr, Connect, getPrimaryKeys, getColumns,
    getTableData, mbind, M_bind, mret, M_ret, call, fail.
  fold (effectiveType sourceConfig) (effectiveType targetConfig).
  rewrite Hs, Hws, Ht, Hwt, Hsup. repeat split.
  - intros e ->. by rewrite <- !(assoc_L (++)).
  - intros [|pk pks] e -> Hne ->; [done|]. cbn [length Nat.eqb].
    f_equal. by rewrite <- !(assoc_L (++)).
  - intros [|pk pks] columns e -> Hne -> Hq; [done|]. cbn [length Nat.eqb].
    fold (selectAll (effectiveType sourceConfig) tableName columns).
    rewrite Hq. f_equal. by rewrite <- !(assoc_L (++)).
  - intros [|pk pks] columns sourceRows e -> Hne -> Hq Hq'; [done|]. cbn [length Nat.eqb].
    fold (selectAll (effectiveType sourceConfig) tableName columns)
         (selectAll (effectiveType targetConfig) tableName columns).
    rewrite Hq, Hq'. unfold healthy_trace. f_equal. by rewrite <- !(assoc_L (++)).
Qed.

Lemma broken_world_opens config :
  buildDSN config = Ok ("mysql", "root:secret@tcp(localhost:3306)/app?parseTime=true&multiStatements=true") ->
  opens broken_world config broken_db.
Proof. intros H. eexists _, _. split; [exact H|reflexivity]. Qed.

Lemma CompareTableData_query_failures_witness :
  opens broken_world example_config broken_db
  /\ CompareTableData broken_world in_order example_config example_config "users" []
     = ([ev_connect example_config; ev_connect example_config; ev_primaryKeys "users";
         ev_columns "users"; ev_rows "SELECT `id`, `name` FROM `users`"],
        Err "failed to get source data: connection reset").
Proof.
  assert (opens broken_world example_config broken_db) as Hopen
    by (apply broken_world_opens; reflexivity).
  split; [exact Hopen|].
  destruct (CompareTableData_query_failures broken_world in_order example_config example_config
              "users" broken_db broken_db [] Hopen Hopen) as (_ & _ & Hrows & _).
  apply (Hrows ["id"] ["id"; "name"] "connection reset"); (reflexivity || discriminate).
Defined.

(** ** The counters of [GetDataSyncSummary] *)

Lemma countDiffs_fields info diffs :
  let info' := countDiffs info diffs in
  tdi_TableName info' = tdi_TableName info
  /\ tdi_PrimaryKeys info' = tdi_PrimaryKeys info
  /\ tdi_Columns info' = tdi_Columns info
  /\ tdi_SourceCount info' = tdi_SourceCount info
  /\ tdi_TargetCount info' = tdi_TargetCount info
  /\ tdi_InsertCount info'
     = (tdi_InsertCount info + Z.of_nat (length (filter (of_kind row_insert) diffs)))%Z
  /\ tdi_UpdateCount info'
     = (tdi_UpdateCount info + Z.of_nat (length (filter (of_kind row_update) diffs)))%Z
  /\ tdi_DeleteCount info'
     = (tdi_DeleteCount info + Z.of_nat (length (filter (of_kind row_delete) diffs)))%Z.
Proof.
  cbv zeta. unfold countDiffs. revert info.
  induction diffs as [|d diffs IH]; intros info.
  - simpl. repeat split; lia.
  - cbn [foldl]. destruct (IH (countDiff info d)) as (H1 & H2 & H3 & H4 & H5 & H6 & H7 & H8).
    rewrite H1, H2, H3, H4, H5, H6, H7, H8. rewrite !filter_cons.
    destruct d as [ty tn pk ov nv sql]. unfold countDiff, of_kind.
    destruct ty; simpl; repeat case_decide; try done; simpl; repeat split; lia.
Qed.

(** A loop that appends at most one entry of the kind per element. *)
Lemma count_of_kind_bind {A} (k : DataKind) (hit : A -> bool) (f : A -> list DataDiffResult)
    (l : list A) :
  (forall x, length (filter (of_kind k) (f x)) = if hit x then 1%nat else 0%nat) ->
  length (filter (of_kind k) (l ≫= f)) = length (filter (fun x => hit x = true) l).
Proof.
  intros H. induction l as [|x l IH]; [done|].
  rewrite bind_cons, filter_app, length_app, IH, H, filter_cons.
  destruct (hit x); by case_decide.
Qed.

Lemma length_filter_map_to_list {V} (P : string * V -> Prop) `{!forall x, Decision (P x)}
    (m : gmap string V) :
  length (filter P (map_to_list m)) = size (filter P m).
Proof.
  rewrite map_filter_alt, map_size_list_to_map; [done|].
  eapply NoDup_fmap_fst; [|apply NoDup_filter, NoDup_map_to_list].
  intros k v1 v2 [_ H1%elem_of_map_to_list]%list_elem_of_filter
         [_ H2%elem_of_map_to_list]%list_elem_of_filter. congruence.
Qed.

Lemma size_absent_keys {V} (m1 m2 : gmap string V) :
  size (filter (fun kv => (m2 !! kv.1 = None) ) m1) = size (dom m1 ∖ dom m2).
Proof.
  rewrite <- size_dom. f_equal. apply set_eq. intros k.
  rewrite elem_of_difference, not_elem_of_dom, !elem_of_dom. split.
  - intros [v [Hv Hk]%map_lookup_filter_Some]. eauto.
  - intros [[v Hv] Hk]. exists v. by apply map_lookup_filter_Some.
Qed.

Lemma compareKeyedRows_counts o targetType tableName columns primaryKeys
    (sourceData targetData : gmap string Row) :
  fair o ->
  let diffs := compareKeyedRows o targetType tableName columns primaryKeys sourceData targetData in
  length (filter (of_kind row_insert) diffs) = size (dom sourceData ∖ dom targetData)
  /\ length (filter (of_kind row_update) diffs) = size (differing sourceData targetData)
  /\ length (filter (of_kind row_delete) diffs) = size (dom targetData ∖ dom sourceData).
Proof.
  intros Ho. cbv zeta. unfold compareKeyedRows.
  rewrite !filter_app, !length_app, !range_Permutation by done.
  rewrite (count_of_kind_bind row_insert (fun kv => bool_decide (targetData !! kv.1 = None))).
  2:{ intros [k s]. simpl. destruct (targetData !! k) as [t|]; simpl; [|done].
      by destruct (negb _). }
  rewrite (count_of_kind_bind row_insert (fun _ => false)).
  2:{ intros [k t]. by destruct (sourceData !! k). }
  rewrite (count_of_kind_bind row_update (differs_from targetData)).
  2:{ intros [k s]. unfold differs_from. simpl. destruct (targetData !! k) as [t|]; [|done].
      by destruct (negb _). }
  rewrite (count_of_kind_bind row_update (fun _ => false)).
  2:{ intros [k t]. by destruct (sourceData !! k). }
  rewrite (count_of_kind_bind row_delete (fun _ => false)).
  2:{ intros [k s]. simpl. destruct (targetData !! k) as [t|]; simpl; [|done].
      by destruct (negb _). }
  rewrite (count_of_kind_bind row_delete (fun kv => bool_decide (sourceData !! kv.1 = None))).
  2:{ intros [k t]. simpl. by destruct (sourceData !! k). }
  assert (forall (l : list (string * Row)),
            length (filter (fun _ : string * Row => false = true) l) = 0%nat) as Hnone.
  { intros l. induction l as [|x l IH]; [done|]. by rewrite filter_cons_False. }
  rewrite !Hnone, !Nat.add_0_r. simpl.
  rewrite !length_filter_map_to_list.
  unfold differing. split; [|split; [done|]].
  - rewrite <- size_absent_keys. f_equal. apply map_filter_ext.
    intros k v _. simpl. by rewrite bool_decide_eq_true.
  - rewrite <- size_absent_keys. f_equal. apply map_filter_ext.
    intros k v _. simpl. by rewrite bool_decide_eq_true.
Qed.

(** X9: when every step succeeds, [GetDataSyncSummary] runs the whole
    comparison, connects to both databases a second time, asks again for
    key columns, columns and the two row counts, and returns a summary
    whose insert, update and delete counters are the number of keys only
    the source has, the number of common keys whose rows differ, and the
    number of keys only the target has. *)
Theorem GetDataSyncSummary_counts_keys (w : World) (o : RangeOrder) (counted : DB -> string -> Z)
    (sourceConfig targetConfig : ConnectionConfig) (tableName : string)
    (sourceDB targetDB : DB) (primaryKeys columns : list string)
    (sourceRows targetRows : list (list Value)) (tr : list Event) :
  fair o ->
  Healthy w sourceConfig targetConfig tableName sourceDB targetDB primaryKeys columns
    sourceRows targetRows ->
  GetDataSyncSummary w o counted sourceConfig targetConfig tableName tr
  = (tr ++ healthy_trace sourceConfig targetConfig tableName columns
        ++ [ev_connect sourceConfig; ev_connect targetConfig; ev_primaryKeys tableName;
            ev_columns tableName;
            ev_rows ("SELECT COUNT(*) FROM "
                     +:+ quoteIdentifier (effectiveType sourceConfig) tableName);
            ev_rows ("SELECT COUNT(*) FROM "
                     +:+ quoteIdentifier (effectiveType targetConfig) tableName)],
     Ok {| tdi_TableName := tableName;
           tdi_PrimaryKeys := primaryKeys;
           tdi_Columns := columns;
           tdi_SourceCount :=
             counted sourceDB ("SELECT COUNT(*) FROM "
                               +:+ quoteIdentifier (effectiveType sourceConfig) tableName);
           tdi_TargetCount :=
             counted targetDB ("SELECT COUNT(*) FROM "
                               +:+ quoteIdentifier (effectiveType targetConfig) tableName);
           tdi_InsertCount :=
             Z.of_nat (size (dom (keyRows columns primaryKeys sourceRows)
                             ∖ dom (keyRows columns primaryKeys targetRows)));
           tdi_UpdateCount :=
             Z.of_nat (size (differing (keyRows columns primaryKeys sourceRows)
                               (keyRows columns primaryKeys targetRows)));
           tdi_DeleteCount :=
             Z.of_nat (size (dom (keyRows columns primaryKeys targetRows)
                             ∖ dom (keyRows columns primaryKeys sourceRows))) |}).
Proof.
  intros Ho Hh. unfold GetDataSyncSummary.
  unfold mbind at 1. unfold M_bind at 1. rewrite (CompareTableData_healthy _ _ _ _ _ _ _ _ _ _ _ _ Hh).
  destruct Hh as [(sd & sn & Hs & Hws) (td & tn & Ht & Hwt) Hpk Hne Hcols Hsr Htr].
  pose proof (supported_effectiveType _ _ _ Hs) as Hsup.
  unfold mbind, M_bind, ignoreErr, queryCount, Connect, getPrimaryKeys, getColumns,
    mret, M_ret, call, fail.
  rewrite Hs, Hws, Ht, Hwt, Hsup, Hpk, Hcols. f_equal.
  - by rewrite <- !(assoc_L (++)).
  - f_equal.
    match goal with |- countDiffs ?i ?d = _ =>
      pose proof (countDiffs_fields i d) as Hf; cbv zeta in Hf;
      destruct (countDiffs i d) as [f1 f2 f3 f4 f5 f6 f7 f8] end.
    simpl in Hf. destruct Hf as (-> & -> & -> & -> & -> & -> & -> & ->).
    destruct (compareKeyedRows_counts o (effectiveType targetConfig) tableName columns
                primaryKeys (keyRows columns primaryKeys sourceRows)
                (keyRows columns primaryKeys targetRows) Ho) as (-> & -> & ->).
    reflexivity.
Qed.

Lemma GetDataSyncSummary_counts_keys_witness :
  fair in_order
  /\ Healthy users_world example_config staging_config "users"
       (users_db [[VInt64 1; VBytes "a"]; [VInt64 2; VBytes "b"]])
       (users_db [[VInt64 2; VBytes "B"]; [VInt64 3; VBytes "c"]])
       ["id"] ["id"; "name"]
       [[VInt64 1; VBytes "a"]; [VInt64 2; VBytes "b"]]
       [[VInt64 2; VBytes "B"]; [VInt64 3; VBytes "c"]]
  /\ (GetDataSyncSummary users_world in_order (fun _ _ => 2%Z) example_config staging_config
        "users" []).2
     = Ok {| tdi_TableName := "users"; tdi_PrimaryKeys := ["id"]; tdi_Columns := ["id"; "name"];
             tdi_SourceCount := 2; tdi_TargetCount := 2;
             tdi_InsertCount := 1; tdi_UpdateCount := 1; tdi_DeleteCount := 1 |}.
Proof.
  split; [apply fair_in_order|]. split; [exact users_healthy|].
  rewrite (GetDataSyncSummary_counts_keys users_world in_order (fun _ _ => 2%Z) example_config
             staging_config "users" _ _ _ _ _ _ [] fair_in_order users_healthy).
  vm_compute. reflexivity.
Defined.

(** * Further properties of the schema diff (table_browser.go) *)

Lemma bind_nil_iff {A B} (f : A -> list B) (l : list A) :
  l ≫= f = [] <-> forall x, x ∈ l -> f x = [].
Proof.
  split; [|apply bind_nil].
  induction l as [|x l IH]; [by intros _ y ?%elem_of_nil|].
  rewrite bind_cons. intros [H1 H2]%app_eq_nil y [->|Hy]%elem_of_cons; [done|by apply IH].
Qed.

(** ** Index maps *)

Lemma index_columns_snoc indexes idx name :
  index_columns (indexes ++ [idx]) name
  = index_columns indexes name ++ (if decide (idx_Name idx = name) then [idx_Column idx] else []).
Proof.
  unfold index_columns. rewrite filter_app, fmap_app. f_equal.
  rewrite filter_cons, filter_nil. by case_decide.
Qed.

Lemma buildIndexMap_lookup indexes name :
  buildIndexMap indexes !! name
  = match index_columns indexes name with
    | [] => None
    | cols => Some (backtick <$> cols)
    end.
Proof.
  induction indexes as [|idx indexes IH] using rev_ind; [done|].
  rewrite buildIndexMap_snoc, index_columns_snoc, lookup_insert.
  case_decide as E.
  - subst name. rewrite IH. destruct (index_columns indexes (idx_Name idx)) as [|c cols]; simpl.
    + done.
    + by rewrite fmap_app.
  - by rewrite IH, app_nil_r.
Qed.

(** X10: [buildIndexMap] maps every index name to the backtick-quoted
    columns of its rows, in the order the rows are listed; a name without
    rows is absent.  The sequence number and the uniqueness flag of a row
    play no part. *)
Theorem buildIndexMap_lists_columns_in_order (indexes : list IndexInfo) (name : string) :
  (buildIndexMap indexes !! name = None <-> forall idx, idx ∈ indexes -> idx_Name idx <> name)
  /\ (forall quoted, buildIndexMap indexes !! name = Some quoted ->
        quoted = backtick <$> index_columns indexes name /\ quoted <> []).
Proof.
  rewrite buildIndexMap_lookup. split.
  - unfold index_columns.
    destruct (filter _ indexes) as [|i l] eqn:Hf; simpl.
    + split; [|done]. intros _ idx Hin E.
      by apply (filter_nil_not_elem_of _ _ idx Hf E).
    + split; [done|]. intros H.
      assert (i ∈ filter (fun idx => idx_Name idx = name) indexes) as [Hi Hin]%list_elem_of_filter
        by (rewrite Hf; left).
      by destruct (H i).
  - intros quoted. destruct (index_columns indexes name); [done|].
    by intros [= <-].
Qed.

(** ** What [compareTableStructure] reports *)

Lemma defaultsEqual_true_iff a b : defaultsEqual a b = true <-> a = b.
Proof.
  destruct a as [x|], b as [y|]; simpl; try (split; congruence).
  rewrite String.eqb_eq. split; congruence.
Qed.

Lemma columnsEqual_true_iff a b : columnsEqual a b = true <-> same_definition a b.
Proof.
  unfold columnsEqual, same_definition.
  rewrite !andb_true_iff, !String.eqb_eq, defaultsEqual_true_iff. tauto.
Qed.

Lemma columnsEqual_false_iff a b : columnsEqual a b = false <-> ~ same_definition a b.
Proof. rewrite <- columnsEqual_true_iff. by destruct (columnsEqual a b). Qed.

Lemma stringSlicesEqual_true_iff a b : stringSlicesEqual a b = true <-> a = b.
Proof.
  unfold stringSlicesEqual. revert b. induction a as [|x a IH]; intros [|y b]; simpl; try done.
  destruct (length a =? length b)%nat eqn:E; simpl.
  - specialize (IH b). rewrite E in IH. simpl in IH.
    rewrite andb_true_iff, String.eqb_eq, IH. split; [by intros [-> ->]|by intros [= -> ->]].
  - apply Nat.eqb_neq in E. split; [done|]. intros [= -> ->]. done.
Qed.

Lemma stringSlicesEqual_false_iff a b : stringSlicesEqual a b = false <-> a <> b.
Proof. rewrite <- stringSlicesEqual_true_iff. by destruct (stringSlicesEqual a b). Qed.

Lemma elem_of_compareTableStructure o tableName source target e :
  fair o ->
  e ∈ compareTableStructure o tableName source target
  <-> (exists name c,
          colMap (tbl_Columns source) !! name = Some c
          /\ colMap (tbl_Columns target) !! name = None
          /\ e = addColumnEntry tableName source name c)
      \/ (exists name,
          is_Some (colMap (tbl_Columns target) !! name)
          /\ colMap (tbl_Columns source) !! name = None
          /\ e = dropColumnEntry tableName name)
      \/ (exists name s t,
          colMap (tbl_Columns source) !! name = Some s
          /\ colMap (tbl_Columns target) !! name = Some t
          /\ ~ same_definition s t
          /\ e = modifyColumnEntry tableName name s t)
      \/ (exists name cols,
          name <> "PRIMARY"
          /\ buildIndexMap (tbl_Indexes source) !! name = Some cols
          /\ buildIndexMap (tbl_Indexes target) !! name = None
          /\ e = addIndexEntry tableName name cols)
      \/ (exists name cols tcols,
          name <> "PRIMARY"
          /\ buildIndexMap (tbl_Indexes source) !! name = Some cols
          /\ buildIndexMap (tbl_Indexes target) !! name = Some tcols
          /\ cols <> tcols
          /\ e = recreateIndexEntry tableName name cols)
      \/ (exists name,
          name <> "PRIMARY"
          /\ is_Some (buildIndexMap (tbl_Indexes target) !! name)
          /\ buildIndexMap (tbl_Indexes source) !! name = None
          /\ e = dropIndexEntry tableName name).
Proof.
  intros Ho. unfold compareTableStructure.
  rewrite !elem_of_app, !list_elem_of_bind. split.
  - intros [H|[H|[H|[H|H]]]]; destruct H as ([k v] & He & Hkv);
      apply (elem_of_range o) in Hkv; try done.
    + destruct (colMap (tbl_Columns target) !! k) eqn:Et; [by apply elem_of_nil in He|].
      apply list_elem_of_singleton in He. left. eauto.
    + destruct (colMap (tbl_Columns source) !! k) eqn:Es; [by apply elem_of_nil in He|].
      apply list_elem_of_singleton in He. right; left. eauto.
    + destruct (colMap (tbl_Columns target) !! k) as [tc|] eqn:Et; [|by apply elem_of_nil in He].
      destruct (columnsEqual v tc) eqn:Eq; [by apply elem_of_nil in He|].
      apply list_elem_of_singleton in He. apply columnsEqual_false_iff in Eq.
      right; right; left. eauto 8.
    + destruct (String.eqb k "PRIMARY") eqn:Ep; [by apply elem_of_nil in He|].
      apply String.eqb_neq in Ep.
      destruct (buildIndexMap (tbl_Indexes target) !! k) as [tcols|] eqn:Et.
      * destruct (stringSlicesEqual v tcols) eqn:Eq; [by apply elem_of_nil in He|].
        apply list_elem_of_singleton in He. apply stringSlicesEqual_false_iff in Eq.
        do 4 right; left. eauto 10.
      * apply list_elem_of_singleton in He. do 3 right; left. eauto 8.
    + destruct (String.eqb k "PRIMARY") eqn:Ep; [by apply elem_of_nil in He|].
      apply String.eqb_neq in Ep.
      destruct (buildIndexMap (tbl_Indexes source) !! k) eqn:Es; [by apply elem_of_nil in He|].
      apply list_elem_of_singleton in He. do 5 right. eauto 8.
  - intros [(k & c & Hs & Ht & ->)|[(k & [c Ht] & Hs & ->)|[(k & s & t & Hs & Ht & Hne & ->)|
            [(k & cols & Hp & Hs & Ht & ->)|[(k & cols & tcols & Hp & Hs & Ht & Hne & ->)|
             (k & Hp & [cols Ht] & Hs & ->)]]]]].
    + left. exists (k, c). rewrite Ht, (elem_of_range o) by done. split; [left|done].
    + right; left. exists (k, c). rewrite Hs, (elem_of_range o) by done. split; [left|done].
    + right; right; left. exists (k, s). rewrite Ht, (elem_of_range o) by done.
      apply columnsEqual_false_iff in Hne. rewrite Hne. split; [left|done].
    + do 3 right; left. exists (k, cols). rewrite Ht, (elem_of_range o) by done.
      apply String.eqb_neq in Hp. rewrite Hp. split; [left|done].
    + do 3 right; left. exists (k, cols). rewrite Ht, (elem_of_range o) by done.
      apply String.eqb_neq in Hp. rewrite Hp.
      apply stringSlicesEqual_false_iff in Hne. rewrite Hne. split; [left|done].
    + do 4 right. exists (k, cols). rewrite Hs, (elem_of_range o) by done.
      apply String.eqb_neq in Hp. rewrite Hp. split; [left|done].
Qed.

(** X11: the entries [compareTableStructure] returns are exactly these:
    an add-column entry for every column name only the source has, a
    drop-column entry for every name only the target has, a modify-column
    entry for every common name whose two columns differ in type,
    nullability, extra text or default, and, for every index name other
    than [PRIMARY], an add-index, recreate-index or drop-index entry when
    the name is only in the source, in both with different column lists,
    or only in the target. *)
Theorem compareTableStructure_reports_exactly (o : RangeOrder) (tableName : string)
    (source target : TableInfo) (e : DiffResult) :
  fair o ->
  e ∈ compareTableStructure o tableName source target
  <-> (exists name c,
          colMap (tbl_Columns source) !! name = Some c
          /\ colMap (tbl_Columns target) !! name = None
          /\ e = addColumnEntry tableName source name c)
      \/ (exists name,
          is_Some (colMap (tbl_Columns target) !! name)
          /\ colMap (tbl_Columns source) !! name = None
          /\ e = dropColumnEntry tableName name)
      \/ (exists name s t,
          colMap (tbl_Columns source) !! name = Some s
          /\ colMap (tbl_Columns target) !! name = Some t
          /\ ~ same_definition s t
          /\ e = modifyColumnEntry tableName name s t)
      \/ (exists name cols,
          name <> "PRIMARY"
          /\ buildIndexMap (tbl_Indexes source) !! name = Some cols
          /\ buildIndexMap (tbl_Indexes target) !! name = None
          /\ e = addIndexEntry tableName name cols)
      \/ (exists name cols tcols,
          name <> "PRIMARY"
          /\ buildIndexMap (tbl_Indexes source) !! name = Some cols
          /\ buildIndexMap (tbl_Indexes target) !! name = Some tcols
          /\ cols <> tcols
          /\ e = recreateIndexEntry tableName name cols)
      \/ (exists name,
          name <> "PRIMARY"
          /\ is_Some (buildIndexMap (tbl_Indexes target) !! name)
          /\ buildIndexMap (tbl_Indexes source) !! name = None
          /\ e = dropIndexEntry tableName name).
Proof. apply elem_of_compareTableStructure. Qed.

Lemma string_app_length (a b : string) :
  String.length (a +:+ b) = (String.length a + String.length b)%nat.
Proof. induction a as [|x a IH]; [done|]. rewrite string_app_cons. simpl. by rewrite IH. Qed.

Lemma string_app_inj_r (a b c : string) : a +:+ c = b +:+ c -> a = b.
Proof.
  revert b. induction a as [|x a IH]; intros [|y b] H; [done| | |].
  - apply (f_equal String.length) in H. rewrite string_app_nil_l, string_app_cons in H.
    simpl in H. rewrite string_app_length in H. lia.
  - apply (f_equal String.length) in H. rewrite string_app_nil_l, string_app_cons in H.
    simpl in H. rewrite string_app_length in H. lia.
  - rewrite !string_app_cons in H. injection H as -> H. f_equal. by apply IH.
Qed.

Global Instance backtick_inj : Inj (=) (=) backtick.
Proof.
  intros a b H. unfold backtick in H. rewrite !string_app_cons, !string_app_nil_l in H.
  injection H as H. by apply string_app_inj_r in H.
Qed.

(** ** When the schema diff is empty *)

Lemma colMap_is_Some cols name : is_Some (colMap cols !! name) <-> name ∈ (col_Name <$> cols).
Proof.
  rewrite <- not_eq_None_Some, colMap_lookup_None.
  destruct (decide (name ∈ (col_Name <$> cols))); tauto.
Qed.

Lemma compareTableStructure_nil_iff o tableName source target :
  fair o -> compareTableStructure o tableName source target = [] <-> tables_agree source target.
Proof.
  intros Ho. split.
  - intros Hnil.
    assert (forall e, ~ e ∈ compareTableStructure o tableName source target) as Hno.
    { intros e. rewrite Hnil. apply not_elem_of_nil. }
    assert (forall P e, e ∈ compareTableStructure o tableName source target -> P) as Hex.
    { intros P e He. by destruct (Hno e). }
    clear Hnil Hno. split; [|split].
    + intros name. rewrite <- !colMap_is_Some. split.
      * intros [c Hc]. destruct (colMap (tbl_Columns target) !! name) eqn:Et; [done|].
        apply (Hex _ (addColumnEntry tableName source name c)).
        apply elem_of_compareTableStructure; [done|]. left. eauto.
      * intros Hc. destruct (colMap (tbl_Columns source) !! name) eqn:Es; [done|].
        apply (Hex _ (dropColumnEntry tableName name)).
        apply elem_of_compareTableStructure; [done|]. right; left. eauto.
    + intros name s t Hs Ht. apply columnsEqual_true_iff.
      destruct (columnsEqual s t) eqn:Eq; [done|]. apply columnsEqual_false_iff in Eq.
      apply (Hex _ (modifyColumnEntry tableName name s t)).
      apply elem_of_compareTableStructure; [done|]. right; right; left. eauto 8.
    + intros name Hp.
      pose proof (buildIndexMap_lookup (tbl_Indexes source) name) as Hs.
      pose proof (buildIndexMap_lookup (tbl_Indexes target) name) as Ht.
      destruct (index_columns (tbl_Indexes source) name) as [|c cols] eqn:Es,
               (index_columns (tbl_Indexes target) name) as [|c' cols'] eqn:Et; [done| | |].
      * apply (Hex _ (dropIndexEntry tableName name)).
        apply elem_of_compareTableStructure; [done|]. do 5 right. eauto 8.
      * apply (Hex _ (addIndexEntry tableName name (backtick <$> c :: cols))).
        apply elem_of_compareTableStructure; [done|]. do 3 right; left. eauto 8.
      * destruct (decide (backtick <$> c :: cols = backtick <$> c' :: cols')) as [E|N].
        -- by apply (inj (fmap backtick)) in E.
        -- apply (Hex _ (recreateIndexEntry tableName name (backtick <$> c :: cols))).
           apply elem_of_compareTableStructure; [done|]. do 4 right; left. eauto 10.
  - intros (Hnames & Hsame & Hidx). apply elem_of_nil_inv. intros e.
    rewrite elem_of_compareTableStructure by done.
    intros [(k & c & Hs & Ht & _)|[(k & Ht & Hs & _)|[(k & s & t & Hs & Ht & Hne & _)|
            [(k & cols & Hp & Hs & Ht & _)|[(k & cols & tcols & Hp & Hs & Ht & Hne & _)|
             (k & Hp & Ht & Hs & _)]]]]].
    + apply colMap_lookup_None in Ht. apply Ht, Hnames, colMap_is_Some. eauto.
    + apply colMap_lookup_None in Hs. apply Hs, Hnames, colMap_is_Some. done.
    + by apply Hne, (Hsame k).
    + rewrite buildIndexMap_lookup in Hs, Ht. rewrite (Hidx k Hp) in Hs.
      by destruct (index_columns (tbl_Indexes target) k).
    + rewrite buildIndexMap_lookup in Hs, Ht. rewrite (Hidx k Hp) in Hs. congruence.
    + destruct Ht as [cols Ht].
      rewrite buildIndexMap_lookup in Hs, Ht. rewrite (Hidx k Hp) in Hs.
      by destruct (index_columns (tbl_Indexes target) k).
Qed.

(** X12: [CompareSchemas] returns the empty list exactly when the two
    snapshots hold the same table names and every table agrees with its
    namesake: the same column names, each column with the same type,
    nullability, extra text and default, and the same column list under
    every index name but [PRIMARY].  Column order, ordinal positions, key
    roles, the stored create text and the primary key are not compared. *)
Theorem CompareSchemas_empty_iff_agree (o : RangeOrder) (source target : SchemaInfo) :
  fair o ->
  CompareSchemas o source target = []
  <-> dom (schema_Tables source) = dom (schema_Tables target)
      /\ forall name s t, schema_Tables source !! name = Some s ->
                          schema_Tables target !! name = Some t -> tables_agree s t.
Proof.
  intros Ho.
  assert (CompareSchemas o source target = [] <-> collectDiffs o source target = []) as ->.
  { unfold CompareSchemas. split.
    - intros H. apply Permutation_nil_r. rewrite <- H. by rewrite sort_Slice_Permutation.
    - intros ->. done. }
  split.
  - intros Hnil.
    assert (forall P e, e ∈ collectDiffs o source target -> P) as Hex.
    { intros P e He. rewrite Hnil in He. by apply elem_of_nil in He. }
    split.
    + apply set_eq. intros name. rewrite !elem_of_dom. split.
      * intros [s Hs]. destruct (schema_Tables target !! name) eqn:Et; [done|].
        apply (Hex _ (addedEntry name s)). apply elem_of_collectDiffs; [done|]. left. eauto.
      * intros Ht. destruct (schema_Tables source !! name) eqn:Es; [done|].
        apply (Hex _ (removedEntry name)). apply elem_of_collectDiffs; [done|]. right; left. eauto.
    + intros name s t Hs Ht. apply (compareTableStructure_nil_iff o name); [done|].
      apply elem_of_nil_inv. intros e He. apply (Hex _ e).
      apply elem_of_collectDiffs; [done|]. right; right. eauto 8.
  - intros [Hdom Hagree]. apply elem_of_nil_inv. intros e.
    rewrite elem_of_collectDiffs by done.
    intros [(k & v & Hs & Ht & _)|[(k & Ht & Hs & _)|(k & s & t & Hs & Ht & He)]].
    + apply not_elem_of_dom in Ht. apply Ht. rewrite <- Hdom. by apply elem_of_dom.
    + apply not_elem_of_dom in Hs. apply Hs. rewrite Hdom. by apply elem_of_dom.
    + rewrite (proj2 (compareTableStructure_nil_iff o k s t Ho)) in He by eauto.
      by apply elem_of_nil in He.
Qed.

Lemma compareTableStructure_reports_exactly_witness :
  fair in_order
  /\ (dropColumnEntry "orders" "amount"
        ∈ compareTableStructure in_order "orders"
            (table "orders" [column "id" "INT" 1; column "total" "DECIMAL" 2])
            (table "orders" [column "id" "INT" 1; column "amount" "DECIMAL" 2;
                             column "total" "VARCHAR" 3])).
Proof.
  split; [apply fair_in_order|].
  apply (compareTableStructure_reports_exactly in_order "orders" _ _ _ fair_in_order).
  right; left. exists "amount". split; [|split]; [|reflexivity..].
  vm_compute. eauto.
Defined.

Lemma CompareSchemas_empty_iff_agree_witness :
  fair in_order
  /\ CompareSchemas in_order orders_source orders_moved = []
  /\ dom (schema_Tables orders_source) = dom (schema_Tables orders_moved)
  /\ forall name s t, schema_Tables orders_source !! name = Some s ->
                      schema_Tables orders_moved !! name = Some t -> tables_agree s t.
Proof.
  split; [apply fair_in_order|].
  assert (CompareSchemas in_order orders_source orders_moved = []) as Hnil
    by (vm_compute; reflexivity).
  split; [exact Hnil|].
  apply (CompareSchemas_empty_iff_agree in_order orders_source orders_moved fair_in_order), Hnil.
Defined.

(** ** The primary key is left alone *)

Ltac text_eq H :=
  rewrite ?string_app_cons, ?string_app_nil_l in H; simplify_eq.


(** ** Trimming *)

Lemma trimLeft_head s c r : trimLeft s = String c r -> asciiSpace c = false.
Proof.
  induction s as [|x s IH]; simpl; [done|].
  destruct (asciiSpace x) eqn:E; [done|]. by intros [= <- _].
Qed.

Lemma trimRight_keeps_head c s :
  asciiSpace c = false -> exists r, trimRight (String c s) = String c r.
Proof. intros E. simpl. destruct (trimRight s); rewrite ?E; eauto. Qed.

Lemma trimRight_idemp s : trimRight (trimRight s) = trimRight s.
Proof.
  induction s as [|x s IH]; [done|]. simpl.
  destruct (trimRight s) as [|y t] eqn:E.
  - destruct (asciiSpace x) eqn:Ex; simpl; [done|by rewrite Ex].
  - change (trimRight (String x (String y t)))
      with (match trimRight (String y t) with
            | EmptyString => if asciiSpace x then EmptyString else String x EmptyString
            | kept => String x kept
            end).
    by rewrite IH.
Qed.

Lemma TrimSpace_idemp s : TrimSpace (TrimSpace s) = TrimSpace s.
Proof.
  unfold TrimSpace. destruct (trimLeft s) as [|c r] eqn:E; [done|].
  apply trimLeft_head in E.
  destruct (trimRight_keeps_head c r E) as [r' Hr]. rewrite Hr.
  simpl trimLeft. rewrite E, <- Hr. apply trimRight_idemp.
Qed.

Lemma trimRight_not_blank a q b :
  asciiSpace q = false -> trimRight (a +:+ String q b) <> "".
Proof.
  intros E. induction a as [|x a IH].
  - rewrite string_app_nil_l. by destruct (trimRight_keeps_head q b E) as [r ->].
  - rewrite string_app_cons. simpl. by destruct (trimRight (a +:+ String q b)).
Qed.

Lemma trimLeft_not_blank a q b :
  asciiSpace q = false -> exists a', trimLeft (a +:+ String q b) = a' +:+ String q b.
Proof.
  intros E. induction a as [|x a IH].
  - exists "". rewrite !string_app_nil_l. simpl. by rewrite E.
  - rewrite string_app_cons. simpl. destruct (asciiSpace x); [done|].
    exists (String x a). by rewrite string_app_cons.
Qed.

Lemma TrimSpace_not_blank a q b :
  asciiSpace q = false -> TrimSpace (a +:+ String q b) <> "".
Proof.
  intros E. unfold TrimSpace. destruct (trimLeft_not_blank a q b E) as [a' ->].
  by apply trimRight_not_blank.
Qed.

Lemma string_eqb_empty s : String.eqb s "" = false <-> s <> "".
Proof. destruct s; simpl; split; done. Qed.

(** ** The scanner *)

Lemma flush_trimmed st : Forall trimmed (statements st) -> Forall trimmed (flush st).
Proof.
  intros H. unfold flush. destruct (String.eqb _ "") eqn:E; [done|].
  apply Forall_app. split; [done|]. apply Forall_singleton.
  split; [by apply string_eqb_empty|apply TrimSpace_idemp].
Qed.

Lemma scanStep_trimmed st c next :
  Forall trimmed (statements st) -> Forall trimmed (statements (scanStep st c next)).
Proof.
  intros H. unfold scanStep.
  repeat match goal with |- context [if ?b then _ else _] => destruct b end;
    simpl; try done. by apply flush_trimmed.
Qed.

Lemma scan_trimmed sql st :
  Forall trimmed (statements st) -> Forall trimmed (statements (scan st sql)).
Proof.
  revert st. induction sql as [|c rest IH]; intros st H; [done|].
  simpl. apply IH. by apply scanStep_trimmed.
Qed.

Lemma splitSQLStatements_trimmed sql : Forall trimmed (splitSQLStatements sql).
Proof. apply flush_trimmed, scan_trimmed. constructor. Qed.

Lemma string_app_nil_r (a : string) : a +:+ "" = a.
Proof. induction a as [|x a IH]; [done|]. by rewrite string_app_cons, IH. Qed.

Lemma plain_cons c t :
  plain (String c t) = true ->
  Ascii.eqb c single_quote = false /\ Ascii.eqb c double_quote = false
  /\ Ascii.eqb c ";" = false /\ plain t = true.
Proof.
  unfold plain. simpl. rewrite !andb_true_iff, !negb_true_iff. tauto.
Qed.

(** Outside a literal, text without quotes and semicolons is copied. *)
Lemma scan_plain t rest stmts cur q0 :
  plain t = true ->
  scan {| statements := stmts; current := cur; inString := false; stringChar := q0 |}
       (t +:+ rest)
  = scan {| statements := stmts; current := cur +:+ t; inString := false; stringChar := q0 |}
         rest.
Proof.
  revert cur. induction t as [|c t IH]; intros cur H.
  - by rewrite string_app_nil_l, string_app_nil_r.
  - apply plain_cons in H as (E1 & E2 & E3 & H).
    rewrite string_app_cons. simpl. unfold scanStep. simpl. rewrite E1, E2, E3. simpl.
    rewrite IH by done. by rewrite string_app_assoc, string_app_cons, string_app_nil_l.
Qed.

(** Inside a literal, text without the literal's quote is copied. *)
Lemma scan_inside t rest stmts cur q :
  lacks q t = true ->
  scan {| statements := stmts; current := cur; inString := true; stringChar := q |}
       (t +:+ rest)
  = scan {| statements := stmts; current := cur +:+ t; inString := true; stringChar := q |}
         rest.
Proof.
  revert cur. induction t as [|c t IH]; intros cur H.
  - by rewrite string_app_nil_l, string_app_nil_r.
  - simpl in H. apply andb_true_iff in H as [E H]. apply negb_true_iff in E.
    rewrite string_app_cons. simpl. unfold scanStep. simpl. rewrite E.
    rewrite IH by done. by rewrite string_app_assoc, string_app_cons, string_app_nil_l.
Qed.

Lemma scan_close q rest stmts cur :
  begins q rest = false ->
  scan {| statements := stmts; current := cur; inString := true; stringChar := q |}
       (String q rest)
  = scan {| statements := stmts; current := cur +:+ String q ""; inString := false;
            stringChar := q |} rest.
Proof.
  intros H. simpl. unfold scanStep. simpl. rewrite Ascii.eqb_refl.
  destruct rest as [|n rest]; [done|]. simpl in H. by rewrite H.
Qed.

Lemma scan_doubled q rest stmts cur :
  scan {| statements := stmts; current := cur; inString := true; stringChar := q |}
       (String q (String q rest))
  = scan {| statements := stmts; current := cur +:+ String q ""; inString := true;
            stringChar := q |} (String q rest).
Proof.
  change (scan ?st (String q (String q rest)))
    with (scan (scanStep st q (Some q)) (String q rest)).
  unfold scanStep. simpl. by rewrite Ascii.eqb_refl.
Qed.

Lemma scan_open q rest stmts cur q0 :
  q = single_quote \/ q = double_quote ->
  scan {| statements := stmts; current := cur; inString := false; stringChar := q0 |}
       (String q rest)
  = scan {| statements := stmts; current := cur +:+ String q ""; inString := true;
            stringChar := q |} rest.
Proof. by intros [-> | ->]. Qed.

Lemma scan_semicolon rest stmts cur q0 :
  scan {| statements := stmts; current := cur; inString := false; stringChar := q0 |}
       (String ";" rest)
  = scan {| statements :=
              flush {| statements := stmts; current := cur; inString := false;
                       stringChar := q0 |};
            current := ""; inString := false; stringChar := q0 |} rest.
Proof. done. Qed.

Lemma flush_alike st1 st2 found : alike st1 st2 found -> flush st1 = found ++ flush st2.
Proof.
  intros (H1 & H2 & _). unfold flush. rewrite H1, H2.
  destruct (String.eqb _ ""); [done|]. by rewrite app_assoc.
Qed.

Lemma scanStep_alike st1 st2 found c next :
  alike st1 st2 found -> alike (scanStep st1 c next) (scanStep st2 c next) found.
Proof.
  intros H. pose proof (flush_alike _ _ _ H) as Hf. destruct H as (H1 & H2 & H3 & H4).
  unfold scanStep, alike. rewrite <- H3, <- H2.
  destruct (inString st1).
  - rewrite <- (H4 eq_refl).
    repeat match goal with |- context [if ?b then _ else _] => destruct b end; simpl; done.
  - repeat match goal with |- context [if ?b then _ else _] => destruct b end; simpl; done.
Qed.

Lemma scan_alike sql st1 st2 found :
  alike st1 st2 found -> alike (scan st1 sql) (scan st2 sql) found.
Proof.
  revert st1 st2. induction sql as [|c rest IH]; intros st1 st2 H; [done|].
  simpl. by apply IH, scanStep_alike.
Qed.

Lemma flush_scan_found found q0 rest :
  flush (scan {| statements := found; current := ""; inString := false; stringChar := q0 |}
              rest)
  = found ++ splitSQLStatements rest.
Proof.
  apply flush_alike, scan_alike. unfold alike, scanner0. simpl.
  by rewrite app_nil_r.
Qed.

Lemma Split_cons s sep : exists piece pieces, Split s sep = piece :: pieces.
Proof.
  induction s as [|c s (p & ps & IH)]; simpl; [by eauto|].
  destruct (Ascii.eqb c sep); [by eauto|]. rewrite IH. eauto.
Qed.

Lemma scan_without_quotes sql stmts cur q0 :
  lacks single_quote sql = true -> lacks double_quote sql = true ->
  flush (scan {| statements := stmts; current := cur; inString := false; stringChar := q0 |}
              sql)
  = stmts ++ filter (fun stmt => stmt <> "")
               (TrimSpace <$> match Split sql ";" with
                              | piece :: pieces => (cur +:+ piece) :: pieces
                              | [] => []
                              end).
Proof.
  revert stmts cur. induction sql as [|c sql IH]; intros stmts cur H1 H2.
  - simpl. rewrite string_app_nil_r. unfold flush. simpl.
    destruct (String.eqb (TrimSpace cur) "") eqn:E.
    + apply String.eqb_eq in E. rewrite filter_cons_False by (by intros ?).
      by rewrite filter_nil, app_nil_r.
    + apply string_eqb_empty in E. by rewrite filter_cons_True.
  - simpl in H1, H2. apply andb_true_iff in H1 as [E1 H1]. apply andb_true_iff in H2 as [E2 H2].
    apply negb_true_iff in E1, E2.
    destruct (Split_cons sql ";") as (p & ps & Hs).
    destruct (Ascii.eqb c ";") eqn:E3.
    + apply Ascii.eqb_eq in E3 as ->. rewrite scan_semicolon, IH by done.
      simpl. rewrite Hs, string_app_nil_l, string_app_nil_r. unfold flush. simpl.
      destruct (String.eqb (TrimSpace cur) "") eqn:E.
      * apply String.eqb_eq in E. by rewrite (filter_cons_False _ (TrimSpace cur)) by (by intros ?).
      * apply string_eqb_empty in E. rewrite (filter_cons_True _ (TrimSpace cur)) by done.
        by rewrite <- app_assoc.
    + simpl. unfold scanStep. simpl. rewrite E1, E2, E3. simpl.
      rewrite IH by done. rewrite Hs. simpl.
      by rewrite string_app_assoc, string_app_cons, string_app_nil_l.
Qed.

(** X14: on ASCII text, every statement [splitSQLStatements] returns is
    non-empty and free of leading and trailing white space, so the
    [TrimSpace] and the empty test in the loop of [ExecuteSQL] never
    change or drop one. *)
Theorem splitSQLStatements_returns_trimmed_statements (sql stmt : string) :
  ascii_text sql = true ->
  stmt ∈ splitSQLStatements sql ->
  stmt <> "" /\ TrimSpace stmt = stmt.
Proof.
  intros _ H. pose proof (splitSQLStatements_trimmed sql) as Hall.
  rewrite Forall_forall in Hall. by apply Hall.
Qed.

Lemma splitSQLStatements_returns_trimmed_statements_witness :
  ascii_text "  SELECT 1 ;; SELECT 2  " = true
  /\ "SELECT 2" ∈ splitSQLStatements "  SELECT 1 ;; SELECT 2  "
  /\ "SELECT 2" <> "" /\ TrimSpace "SELECT 2" = "SELECT 2".
Proof.
  assert ("SELECT 2" ∈ splitSQLStatements "  SELECT 1 ;; SELECT 2  ") as H.
  { vm_compute. right. left. }
  split; [reflexivity|]. split; [exact H|].
  exact (splitSQLStatements_returns_trimmed_statements "  SELECT 1 ;; SELECT 2  " "SELECT 2"
           eq_refl H).
Defined.

(** X15: ASCII text without quote characters is cut at every semicolon:
    the result is the pieces of [strings.Split(sql, ";")], each trimmed,
    without the pieces that are blank. *)
Theorem splitSQLStatements_without_quotes (sql : string) :
  ascii_text sql = true ->
  lacks single_quote sql = true -> lacks double_quote sql = true ->
  splitSQLStatements sql
  = filter (fun stmt => stmt <> "") (TrimSpace <$> Split sql ";").
Proof.
  intros _ H1 H2. unfold splitSQLStatements, scanner0.
  rewrite scan_without_quotes by done. simpl.
  destruct (Split_cons sql ";") as (p & ps & ->). by rewrite string_app_nil_l.
Qed.

Lemma splitSQLStatements_without_quotes_witness :
  splitSQLStatements "DROP TABLE [a]; ;DROP TABLE [b];"
  = filter (fun stmt => stmt <> "") (TrimSpace <$> Split "DROP TABLE [a]; ;DROP TABLE [b];" ";").
Proof.
  exact (splitSQLStatements_without_quotes "DROP TABLE [a]; ;DROP TABLE [b];"
           eq_refl eq_refl eq_refl).
Defined.

Lemma quote_not_space q : q = single_quote \/ q = double_quote -> asciiSpace q = false.
Proof. by intros [-> | ->]. Qed.

Lemma plain_begins q b rest :
  q = single_quote \/ q = double_quote -> plain b = true ->
  begins q (b +:+ String ";" rest) = false.
Proof.
  intros Hq H. destruct b as [|c b].
  - rewrite string_app_nil_l. by destruct Hq as [-> | ->].
  - apply plain_cons in H as (E1 & E2 & _). rewrite string_app_cons. simpl.
    by destruct Hq as [-> | ->].
Qed.

(** X16: a quoted text whose body does not hold its own quote character
    is never cut: the semicolons inside it stay in the statement, and the
    statement ends at the first semicolon after it. *)
Theorem splitSQLStatements_keeps_literal_whole (q : ascii) (a body b rest : string) :
  ascii_text (a +:+ quoted q body +:+ b +:+ ";" +:+ rest) = true ->
  q = single_quote \/ q = double_quote ->
  plain a = true -> lacks q body = true -> plain b = true ->
  splitSQLStatements (a +:+ quoted q body +:+ b +:+ ";" +:+ rest)
  = TrimSpace (a +:+ quoted q body +:+ b) :: splitSQLStatements rest.
Proof.
  intros _ Hq Ha Hbody Hb. unfold splitSQLStatements at 1, scanner0, quoted.
  rewrite scan_plain by done. rewrite string_app_nil_l.
  rewrite string_app_cons, scan_open by done.
  rewrite string_app_assoc, scan_inside by done.
  rewrite string_app_cons, string_app_nil_l.
  rewrite scan_close by (by apply plain_begins).
  rewrite scan_plain by done.
  rewrite string_app_cons, string_app_nil_l, scan_semicolon, flush_scan_found.
  unfold flush. simpl.
  replace ((((a +:+ String q "") +:+ body) +:+ String q "") +:+ b)
    with (a +:+ String q (body +:+ String q "") +:+ b).
  2:{ rewrite !string_app_assoc, !string_app_cons, !string_app_nil_l.
      by rewrite ?string_app_assoc, ?string_app_cons, ?string_app_nil_l. }
  pose proof (TrimSpace_not_blank a q ((body +:+ String q "") +:+ b) (quote_not_space q Hq)) as Hn.
  rewrite string_app_cons.
  apply string_eqb_empty in Hn. by rewrite Hn.
Qed.

Lemma splitSQLStatements_keeps_literal_whole_witness :
  splitSQLStatements ("UPDATE [t] SET [n] = " +:+ quoted single_quote "a;b" +:+ " WHERE [id] = 1"
                      +:+ ";" +:+ " DELETE FROM [t]")
  = TrimSpace ("UPDATE [t] SET [n] = " +:+ quoted single_quote "a;b" +:+ " WHERE [id] = 1")
    :: splitSQLStatements " DELETE FROM [t]".
Proof.
  apply (splitSQLStatements_keeps_literal_whole single_quote "UPDATE [t] SET [n] = " "a;b"
           " WHERE [id] = 1" " DELETE FROM [t]"); [reflexivity|by left|reflexivity..].
Defined.

Lemma ReplaceAll_lacks s old new : lacks old s = true -> strings.ReplaceAll s old new = s.
Proof.
  induction s as [|c s IH]; [done|]. simpl. intros H.
  apply andb_true_iff in H as [E H]. apply negb_true_iff in E. by rewrite E, IH.
Qed.

Lemma ReplaceAll_app s t old new :
  strings.ReplaceAll (s +:+ t) old new
  = strings.ReplaceAll s old new +:+ strings.ReplaceAll t old new.
Proof.
  induction s as [|c s IH]; [done|]. rewrite string_app_cons. simpl.
  destruct (Ascii.eqb c old); rewrite IH; [by rewrite string_app_assoc|done].
Qed.

Ltac flat := repeat (rewrite string_app_assoc || rewrite string_app_cons
                     || rewrite string_app_nil_l || rewrite string_app_nil_r).

Lemma escapeValue_embedded_quote b1 b2 :
  lacks single_quote b1 = true -> lacks single_quote b2 = true ->
  escapeValue (VString (b1 +:+ "'" +:+ b2))
  = String single_quote (b1 +:+ String single_quote (String single_quote
      (b2 +:+ String single_quote ""))).
Proof.
  intros H1 H2. unfold escapeValue. simpl Sprintf_v.
  rewrite !ReplaceAll_app, (ReplaceAll_lacks b1), (ReplaceAll_lacks b2) by done.
  simpl. by flat.
Qed.

Lemma plain_lacks_single s : plain s = true -> lacks single_quote s = true.
Proof. unfold plain. rewrite !andb_true_iff. tauto. Qed.

(** X17: a text value that holds a single quote with at least one
    character after it (here: one quote, and after it text without quotes
    and semicolons) is rendered by [escapeValue] as a literal that
    [splitSQLStatements] does not keep apart from what follows: whatever
    comes after the literal without a further single quote, semicolons
    and further statements included, stays in the same statement, and the
    whole text is returned as one statement. *)
Theorem splitSQLStatements_embedded_quote (a b1 b2 rest : string) :
  ascii_text (a +:+ escapeValue (VString (b1 +:+ "'" +:+ b2)) +:+ rest) = true ->
  plain a = true -> lacks single_quote b1 = true ->
  b2 <> "" -> plain b2 = true -> lacks single_quote rest = true ->
  splitSQLStatements (a +:+ escapeValue (VString (b1 +:+ "'" +:+ b2)) +:+ rest)
  = [TrimSpace (a +:+ escapeValue (VString (b1 +:+ "'" +:+ b2)) +:+ rest)].
Proof.
  intros _ Ha H1 Hne H2 Hrest.
  rewrite escapeValue_embedded_quote by auto using plain_lacks_single.
  unfold splitSQLStatements, scanner0.
  rewrite scan_plain by done. flat.
  rewrite scan_open by (by left). flat.
  rewrite scan_inside by done.
  rewrite scan_doubled, scan_close.
  2:{ destruct b2 as [|c b2]; [done|]. apply plain_cons in H2 as (E & _).
      by rewrite string_app_cons. }
  rewrite scan_plain by done.
  rewrite scan_open by (by left).
  rewrite <- (string_app_nil_r rest) at 1. rewrite scan_inside by done.
  unfold flush. simpl. flat.
  pose proof (TrimSpace_not_blank a single_quote
                (b1 +:+ String single_quote (String single_quote
                    (b2 +:+ String single_quote rest))) eq_refl) as Hn.
  apply string_eqb_empty in Hn. by rewrite Hn.
Qed.

Lemma splitSQLStatements_embedded_quote_witness :
  splitSQLStatements ("UPDATE [t] SET [n] = " +:+ escapeValue (VString ("O" +:+ "'" +:+ "Brien"))
                      +:+ " WHERE [id] = 1; DELETE FROM [t] WHERE [id] = 2;")
  = [TrimSpace ("UPDATE [t] SET [n] = " +:+ escapeValue (VString ("O" +:+ "'" +:+ "Brien"))
                +:+ " WHERE [id] = 1; DELETE FROM [t] WHERE [id] = 2;")].
Proof.
  apply (splitSQLStatements_embedded_quote "UPDATE [t] SET [n] = " "O" "Brien"
           " WHERE [id] = 1; DELETE FROM [t] WHERE [id] = 2;");
    [reflexivity|reflexivity|reflexivity|discriminate|reflexivity|reflexivity].
Defined.

Lemma execEach_trimmed exec stmts :
  Forall trimmed stmts ->
  forall sent,
    match execEach exec sent stmts with
    | (ran, None) =>
        ran = sent ++ stmts
        /\ forall i stmt, stmts !! i = Some stmt -> exec (sent ++ take i stmts) stmt = None
    | (ran, Some err) =>
        exists before stmt after,
          stmts = before ++ stmt :: after
          /\ ran = sent ++ before ++ [stmt]
          /\ exec (sent ++ before) stmt = Some err
          /\ forall i s, before !! i = Some s -> exec (sent ++ take i before) s = None
    end.
Proof.
  induction 1 as [|stmt rest [Hne Htrim] _ IH]; intros sent.
  - simpl. rewrite app_nil_r. split; [done|]. intros i stmt H. by destruct i.
  - simpl. rewrite Htrim. apply string_eqb_empty in Hne. rewrite Hne.
    destruct (exec sent stmt) as [err|] eqn:E.
    + exists [], stmt, rest. rewrite app_nil_r. repeat split; [done|].
      intros i s H. by destruct i.
    + specialize (IH (sent ++ [stmt])).
      destruct (execEach exec (sent ++ [stmt]) rest) as [ran [err|]].
      * destruct IH as (before & s & after & -> & -> & Hs & Hbefore).
        exists (stmt :: before), s, after. rewrite <- !app_assoc in *. simpl in *.
        repeat split; [done|]. intros [|i] s' H; simpl in *.
        -- injection H as <-. by rewrite app_nil_r.
        -- specialize (Hbefore i s' H). by rewrite <- app_assoc in Hbefore.
      * destruct IH as [-> Hall]. rewrite <- app_assoc. split; [done|].
        intros [|i] s' H; simpl in *.
        -- injection H as <-. by rewrite app_nil_r.
        -- specialize (Hall i s' H). by rewrite <- app_assoc in Hall.
Qed.

Lemma Connect_opens w config db tr :
  opens w config db -> Connect w config tr = (tr ++ [ev_connect config], Ok db).
Proof.
  intros (driver & dsn & Hdsn & Hw). unfold Connect. rewrite Hdsn. unfold call. by rewrite Hw.
Qed.

(** X18: for a target that is not MySQL, [ExecuteSQL] hands the
    statements of [splitSQLStatements] to [db.Exec] one by one and in
    order.  It returns no error exactly when every statement was run and
    succeeded; otherwise it returns the error of the first statement that
    failed, and what stood after that statement is not run. *)
Theorem ExecuteSQL_runs_statements_in_turn (w : World) (exec : Exec)
    (config : ConnectionConfig) (db : DB) (sql : string) (tr : list Event) :
  ascii_text sql = true ->
  opens w config db ->
  cfg_Type config <> "" -> cfg_Type config <> MySQL ->
  exists ran err,
    ExecuteSQL w exec config sql tr = (tr ++ [ev_connect config], (ran, err))
    /\ match err with
       | None =>
           ran = splitSQLStatements sql
           /\ forall i stmt, splitSQLStatements sql !! i = Some stmt ->
                exec db (take i (splitSQLStatements sql)) stmt = None
       | Some msg =>
           exists before stmt after,
             splitSQLStatements sql = before ++ stmt :: after
             /\ ran = before ++ [stmt]
             /\ exec db before stmt = Some msg
             /\ forall i s, before !! i = Some s -> exec db (take i before) s = None
       end.
Proof.
  intros _ Hopen H1 H2. unfold ExecuteSQL. rewrite (Connect_opens _ _ _ _ Hopen).
  rewrite bool_decide_eq_false_2 by tauto.
  pose proof (execEach_trimmed (exec db) _ (splitSQLStatements_trimmed sql) []) as H.
  destruct (execEach (exec db) [] (splitSQLStatements sql)) as [ran err].
  exists ran, err. split; [done|]. by destruct err.
Qed.

Lemma keyless_world_opens_reporting : opens keyless_world reporting_config keyless_db.
Proof. eexists _, _. split; reflexivity. Qed.

Lemma ExecuteSQL_runs_statements_in_turn_witness :
  exists ran err,
    ExecuteSQL keyless_world (refuses "DROP TABLE [b]") reporting_config
      "DROP TABLE [a]; DROP TABLE [b]; DROP TABLE [c];" []
    = ([] ++ [ev_connect reporting_config], (ran, err))
    /\ match err with
       | None =>
           ran = splitSQLStatements "DROP TABLE [a]; DROP TABLE [b]; DROP TABLE [c];"
           /\ forall i stmt,
                splitSQLStatements "DROP TABLE [a]; DROP TABLE [b]; DROP TABLE [c];" !! i
                = Some stmt ->
                refuses "DROP TABLE [b]" keyless_db
                  (take i (splitSQLStatements "DROP TABLE [a]; DROP TABLE [b]; DROP TABLE [c];"))
                  stmt = None
       | Some msg =>
           exists before stmt after,
             splitSQLStatements "DROP TABLE [a]; DROP TABLE [b]; DROP TABLE [c];"
             = before ++ stmt :: after
             /\ ran = before ++ [stmt]
             /\ refuses "DROP TABLE [b]" keyless_db before stmt = Some msg
             /\ forall i s, before !! i = Some s ->
                  refuses "DROP TABLE [b]" keyless_db (take i before) s = None
       end.
Proof.
  apply (ExecuteSQL_runs_statements_in_turn keyless_world (refuses "DROP TABLE [b]")
           reporting_config keyless_db "DROP TABLE [a]; DROP TABLE [b]; DROP TABLE [c];" []);
    [reflexivity|exact keyless_world_opens_reporting|discriminate|discriminate].
Defined.

(** X19: what [ExecuteSQL] does without splitting.  A configuration
    [buildDSN] refuses is not dialled and nothing is executed; a
    connection that fails executes nothing either, and both return the
    error as it is.  For MySQL, and for a configuration without type, the
    whole text goes to [db.Exec] in one call, whatever it holds, and the
    answer of that call is returned. *)
Theorem ExecuteSQL_without_splitting (w : World) (exec : Exec) (config : ConnectionConfig)
    (sql : string) (tr : list Event) :
  (forall msg, buildDSN config = Err msg ->
     ExecuteSQL w exec config sql tr = (tr, ([], Some msg)))
  /\ (forall driver dsn msg, buildDSN config = Ok (driver, dsn) -> w driver dsn = Err msg ->
        ExecuteSQL w exec config sql tr = (tr ++ [ev_connect config], ([], Some msg)))
  /\ (forall db, opens w config db -> cfg_Type config = "" \/ cfg_Type config = MySQL ->
        ExecuteSQL w exec config sql tr
        = (tr ++ [ev_connect config], ([sql], exec db [] sql))).
Proof.
  split; [|split].
  - intros msg H. unfold ExecuteSQL, Connect. by rewrite H.
  - intros driver dsn msg H Hw. unfold ExecuteSQL, Connect, call. by rewrite H, Hw.
  - intros db Hopen Ht. unfold ExecuteSQL. rewrite (Connect_opens _ _ _ _ Hopen).
    by rewrite bool_decide_eq_true_2.
Qed.

Section compareVersions_facts.
Variable scanInt : string -> Z.

Lemma compareFrom_cases parts1 parts2 turns : forall i,
  (forall j, (j < i)%nat -> part scanInt parts1 j = part scanInt parts2 j) ->
  (forall j, (i + turns <= j)%nat -> part scanInt parts1 j = part scanInt parts2 j) ->
  (compareFrom scanInt parts1 parts2 i turns = 0%Z
   /\ forall j, part scanInt parts1 j = part scanInt parts2 j)
  \/ (compareFrom scanInt parts1 parts2 i turns = 1%Z
      /\ exists k, (forall j, (j < k)%nat -> part scanInt parts1 j = part scanInt parts2 j)
                   /\ (part scanInt parts1 k > part scanInt parts2 k)%Z)
  \/ (compareFrom scanInt parts1 parts2 i turns = (-1)%Z
      /\ exists k, (forall j, (j < k)%nat -> part scanInt parts1 j = part scanInt parts2 j)
                   /\ (part scanInt parts1 k < part scanInt parts2 k)%Z).
Proof.
  induction turns as [|turns IH]; intros i Hlow Hhigh.
  - left. split; [done|]. intros j. destruct (decide (j < i)%nat); [by apply Hlow|].
    apply Hhigh. lia.
  - simpl. destruct (Z.gtb_spec (part scanInt parts1 i) (part scanInt parts2 i)) as [Hgt|Hle].
    { right; left. split; [done|]. exists i. split; [done|lia]. }
    destruct (Z.ltb_spec (part scanInt parts1 i) (part scanInt parts2 i)) as [Hlt|Hge].
    { right; right. split; [done|]. exists i. split; [done|lia]. }
    apply IH.
    + intros j Hj. destruct (decide (j = i)) as [->|]; [lia|]. apply Hlow. lia.
    + intros j Hj. apply Hhigh. lia.
Qed.

Lemma part_beyond parts j : (length parts <= j)%nat -> part scanInt parts j = 0%Z.
Proof. intros H. unfold part. by rewrite lookup_ge_None_2. Qed.

Lemma compareVersions_cases v1 v2 :
  (compareVersions scanInt v1 v2 = 0%Z
   /\ forall j, number scanInt v1 j = number scanInt v2 j)
  \/ (compareVersions scanInt v1 v2 = 1%Z
      /\ exists k, agree_before scanInt v1 v2 k
                   /\ (number scanInt v1 k > number scanInt v2 k)%Z)
  \/ (compareVersions scanInt v1 v2 = (-1)%Z
      /\ exists k, agree_before scanInt v1 v2 k
                   /\ (number scanInt v1 k < number scanInt v2 k)%Z).
Proof.
  unfold compareVersions, number, agree_before. apply compareFrom_cases.
  - intros j Hj. lia.
  - intros j Hj. rewrite !part_beyond; [done| |].
    + destruct (Nat.ltb_spec (length (Split v1 ".")) (length (Split v2 "."))); lia.
    + destruct (Nat.ltb_spec (length (Split v1 ".")) (length (Split v2 "."))); lia.
Qed.

(** Two first differences of one pair of versions are the same one. *)
Lemma first_difference_unique v1 v2 k k' :
  agree_before scanInt v1 v2 k -> number scanInt v1 k <> number scanInt v2 k ->
  agree_before scanInt v1 v2 k' -> number scanInt v1 k' <> number scanInt v2 k' ->
  k = k'.
Proof.
  intros H1 H2 H3 H4. destruct (Nat.lt_trichotomy k k') as [Hlt|[->|Hlt]]; [|done|].
  - by specialize (H3 k Hlt).
  - by specialize (H1 k' Hlt).
Qed.

Lemma compareVersions_0 v1 v2 :
  compareVersions scanInt v1 v2 = 0%Z <-> forall j, number scanInt v1 j = number scanInt v2 j.
Proof.
  destruct (compareVersions_cases v1 v2) as [[-> H]|[[-> (k & _ & H)]|[-> (k & _ & H)]]].
  - done.
  - split; [done|]. intros Hall. specialize (Hall k). lia.
  - split; [done|]. intros Hall. specialize (Hall k). lia.
Qed.

Lemma compareVersions_1 v1 v2 :
  compareVersions scanInt v1 v2 = 1%Z
  <-> exists k, agree_before scanInt v1 v2 k /\ (number scanInt v1 k > number scanInt v2 k)%Z.
Proof.
  destruct (compareVersions_cases v1 v2) as [[-> H]|[[-> H]|[-> (k & Hk & H)]]].
  - split; [done|]. intros (k & _ & Hk). specialize (H k). lia.
  - done.
  - split; [done|]. intros (k' & Hk' & H').
    assert (k = k') as -> by (eapply first_difference_unique; eauto; lia). lia.
Qed.

Lemma compareVersions_m1 v1 v2 :
  compareVersions scanInt v1 v2 = (-1)%Z
  <-> exists k, agree_before scanInt v1 v2 k /\ (number scanInt v1 k < number scanInt v2 k)%Z.
Proof.
  destruct (compareVersions_cases v1 v2) as [[-> H]|[[-> (k & Hk & H)]|[-> H]]].
  - split; [done|]. intros (k & _ & Hk). specialize (H k). lia.
  - split; [done|]. intros (k' & Hk' & H').
    assert (k = k') as -> by (eapply first_difference_unique; eauto; lia). lia.
  - done.
Qed.

Lemma agree_before_sym v1 v2 k : agree_before scanInt v1 v2 k -> agree_before scanInt v2 v1 k.
Proof. intros H j Hj. symmetry. by apply H. Qed.

Lemma compareVersions_flip v1 v2 :
  compareVersions scanInt v2 v1 = (- compareVersions scanInt v1 v2)%Z.
Proof.
  destruct (compareVersions_cases v1 v2) as [[-> H]|[[-> (k & Hk & H)]|[-> (k & Hk & H)]]].
  - by apply compareVersions_0.
  - apply compareVersions_m1. exists k. split; [by apply agree_before_sym|lia].
  - apply compareVersions_1. exists k. split; [by apply agree_before_sym|lia].
Qed.

Lemma compareVersions_ext v1 v1' v2 :
  (forall j, number scanInt v1 j = number scanInt v1' j) ->
  compareVersions scanInt v1 v2 = compareVersions scanInt v1' v2.
Proof.
  intros Hsame.
  destruct (compareVersions_cases v1' v2) as [[-> H]|[[-> (k & Hk & H)]|[-> (k & Hk & H)]]].
  - apply compareVersions_0. intros j. by rewrite Hsame.
  - apply compareVersions_1. exists k. rewrite Hsame. split; [|done].
    intros j Hj. rewrite Hsame. by apply Hk.
  - apply compareVersions_m1. exists k. rewrite Hsame. split; [|done].
    intros j Hj. rewrite Hsame. by apply Hk.
Qed.

Lemma compareVersions_1_trans v1 v2 v3 :
  compareVersions scanInt v1 v2 = 1%Z -> compareVersions scanInt v2 v3 = 1%Z ->
  compareVersions scanInt v1 v3 = 1%Z.
Proof.
  rewrite !compareVersions_1. intros (i & Hi & Hgt1) (j & Hj & Hgt2).
  destruct (Nat.lt_trichotomy i j) as [Hlt|[->|Hlt]].
  - exists i. split.
    + intros k Hk. rewrite (Hi k Hk). apply Hj. lia.
    + rewrite <- (Hj i Hlt). done.
  - exists j. split; [|lia]. intros k Hk. rewrite (Hi k Hk). by apply Hj.
  - exists j. split.
    + intros k Hk. rewrite <- (Hj k Hk). apply Hi. lia.
    + rewrite (Hi j Hlt). done.
Qed.

End compareVersions_facts.

Lemma Split_app_sep a b sep :
  Split (a +:+ String sep b) sep = Split a sep ++ Split b sep.
Proof.
  induction a as [|c a IH].
  - rewrite string_app_nil_l. simpl. by rewrite Ascii.eqb_refl.
  - rewrite string_app_cons. simpl. destruct (Ascii.eqb c sep); [by rewrite IH|].
    rewrite IH. destruct (Split_cons a sep) as (p & ps & ->). done.
Qed.

Lemma number_trailing_zero scanInt v j :
  scanInt "0" = 0%Z -> number scanInt (v +:+ ".0") j = number scanInt v j.
Proof.
  intros H0. unfold number, part.
  change (v +:+ ".0") with (v +:+ String "." "0"). rewrite Split_app_sep.
  change (Split "0" ".") with ["0"].
  destruct (Nat.lt_trichotomy j (length (Split v "."))) as [Hlt|[->|Hlt]].
  - by rewrite lookup_app_l.
  - rewrite lookup_app_r, Nat.sub_diag by done. simpl.
    by rewrite lookup_ge_None_2.
  - rewrite !lookup_ge_None_2; [done|lia|]. rewrite length_app. simpl. lia.
Qed.

(** X20: [compareVersions] compares the numbers of the two versions part
    by part, a missing part counting as 0.  The result is 0, 1 or -1: 0
    when all numbers agree, 1 when the first number that differs is
    greater in the first version, -1 when it is smaller. *)
Theorem compareVersions_first_difference (scanInt : string -> Z) (v1 v2 : string) :
  (compareVersions scanInt v1 v2 = 0%Z
   <-> forall i, number scanInt v1 i = number scanInt v2 i)
  /\ (compareVersions scanInt v1 v2 = 1%Z
      <-> exists i, agree_before scanInt v1 v2 i
                    /\ (number scanInt v1 i > number scanInt v2 i)%Z)
  /\ (compareVersions scanInt v1 v2 = (-1)%Z
      <-> exists i, agree_before scanInt v1 v2 i
                    /\ (number scanInt v1 i < number scanInt v2 i)%Z)
  /\ (compareVersions scanInt v1 v2 = 0%Z \/ compareVersions scanInt v1 v2 = 1%Z
      \/ compareVersions scanInt v1 v2 = (-1)%Z).
Proof.
  split; [apply compareVersions_0|]. split; [apply compareVersions_1|].
  split; [apply compareVersions_m1|].
  destruct (compareVersions_cases scanInt v1 v2) as [[-> _]|[[-> _]|[-> _]]]; auto.
Qed.

(** X21: exchanging the two versions negates the result, so each of two
    versions is newer than the other in at most one direction, and a
    version is never newer than itself. *)
Theorem compareVersions_exchanged (scanInt : string -> Z) (v1 v2 : string) :
  compareVersions scanInt v2 v1 = (- compareVersions scanInt v1 v2)%Z
  /\ compareVersions scanInt v1 v1 = 0%Z.
Proof.
  split; [apply compareVersions_flip|]. by apply compareVersions_0.
Qed.

(** X22: being newer is transitive. *)
Theorem compareVersions_newer_transitive (scanInt : string -> Z) (v1 v2 v3 : string) :
  compareVersions scanInt v1 v2 = 1%Z -> compareVersions scanInt v2 v3 = 1%Z ->
  compareVersions scanInt v1 v3 = 1%Z.
Proof. apply compareVersions_1_trans. Qed.

Lemma compareVersions_newer_transitive_witness :
  compareVersions decimal "1.10" "1.9.5" = 1%Z /\ compareVersions decimal "1.9.5" "1.1.0" = 1%Z
  /\ compareVersions decimal "1.10" "1.1.0" = 1%Z.
Proof.
  split; [reflexivity|]. split; [reflexivity|].
  exact (compareVersions_newer_transitive decimal "1.10" "1.9.5" "1.1.0" eq_refl eq_refl).
Defined.

(** X23: when the text 0 is read as the number 0, a trailing [.0] does
    not change how a version compares, on either side. *)
Theorem compareVersions_trailing_zero (scanInt : string -> Z) (v w : string) :
  scanInt "0" = 0%Z ->
  compareVersions scanInt (v +:+ ".0") w = compareVersions scanInt v w
  /\ compareVersions scanInt w (v +:+ ".0") = compareVersions scanInt w v.
Proof.
  intros H0.
  assert (compareVersions scanInt (v +:+ ".0") w = compareVersions scanInt v w) as H.
  { apply compareVersions_ext. intros j. by apply number_trailing_zero. }
  split; [done|]. by rewrite (compareVersions_flip scanInt (v +:+ ".0") w), H,
    <- compareVersions_flip.
Qed.

Lemma compareVersions_trailing_zero_witness :
  decimal "0" = 0%Z
  /\ compareVersions decimal ("1.1" +:+ ".0") "1.1.0" = compareVersions decimal "1.1" "1.1.0"
  /\ compareVersions decimal "1.1.0" ("1.1" +:+ ".0") = compareVersions decimal "1.1.0" "1.1".
Proof.
  split; [reflexivity|].
  exact (compareVersions_trailing_zero decimal "1.1" "1.1.0" eq_refl).
Defined.

(** ** The connection store *)

Lemma list_find_named_split name (l : list SavedConnection) i c :
  list_find (named name) l = Some (i, c) ->
  l = take i l ++ c :: drop (S i) l
  /\ sc_Name c = name
  /\ (i < length l)%nat
  /\ Forall (fun x => ~ named name x) (take i l).
Proof.
  intros H. apply list_find_Some in H as (Hi & Hc & Hbefore).
  split; [by rewrite take_drop_middle|]. split; [done|].
  pose proof (lookup_lt_Some _ _ _ Hi) as Hlt.
  split; [done|].
  apply Forall_forall. intros x Hx. apply list_elem_of_lookup in Hx as [j Hj].
  pose proof (lookup_lt_Some _ _ _ Hj) as Hjlt. rewrite length_take in Hjlt.
  rewrite lookup_take_lt in Hj by lia. eapply Hbefore; [done|lia].
Qed.

Lemma list_find_named_None name (l : list SavedConnection) :
  list_find (named name) l = None <-> name ∉ (sc_Name <$> l).
Proof.
  rewrite list_find_None, Forall_forall, list_elem_of_fmap. split.
  - intros H (c & -> & Hc). by apply (H c).
  - intros H c Hc Hn. apply H. by exists c.
Qed.

Lemma list_find_named_first name before c after :
  name ∉ (sc_Name <$> before) -> sc_Name c = name ->
  list_find (named name) (before ++ c :: after) = Some (length before, c).
Proof.
  intros Hb Hc. apply list_find_Some. split; [|split; [done|]].
  - by rewrite lookup_app_r, Nat.sub_diag.
  - intros j y Hj Hlt Hy. rewrite lookup_app_l in Hj by done.
    apply Hb, list_elem_of_fmap. exists y. split; [done|]. by eapply list_elem_of_lookup_2.
Qed.

Lemma not_named_names name (l : list SavedConnection) :
  Forall (fun x => ~ named name x) l -> name ∉ (sc_Name <$> l).
Proof.
  rewrite Forall_forall, list_elem_of_fmap. intros H (c & -> & Hc). by apply (H c).
Qed.

(** How [Save] changes the list. *)
Lemma Save_cases write conn s :
  ((sc_Name conn ∉ names s)
   /\ Save write conn s = save write s (Connections s ++ [conn]))
  \/ (exists before old after,
        (Connections s = before ++ old :: after)
        /\ sc_Name old = sc_Name conn
        /\ (sc_Name conn ∉ (sc_Name <$> before))
        /\ Save write conn s = save write s (before ++ conn :: after)).
Proof.
  unfold Save. destruct (list_find _ _) as [[i c]|] eqn:E.
  - right. destruct (list_find_named_split _ _ _ _ E) as (Hl & Hc & Hlen & Hb).
    exists (take i (Connections s)), c, (drop (S i) (Connections s)).
    split; [done|]. split; [done|]. split; [by apply not_named_names|].
    by rewrite insert_take_drop.
  - left. split; [|done]. by apply list_find_named_None.
Qed.

(** How [Delete] changes the list. *)
Lemma Delete_cases write name s :
  ((name ∉ names s) /\ Delete write name s = (s, None))
  \/ (exists before old after,
        (Connections s = before ++ old :: after)
        /\ sc_Name old = name
        /\ (name ∉ (sc_Name <$> before))
        /\ Delete write name s = save write s (before ++ after)).
Proof.
  unfold Delete. destruct (list_find _ _) as [[i c]|] eqn:E.
  - right. destruct (list_find_named_split _ _ _ _ E) as (Hl & Hc & Hlen & Hb).
    exists (take i (Connections s)), c, (drop (S i) (Connections s)).
    split; [done|]. split; [done|]. split; [by apply not_named_names|done].
  - left. split; [|done]. by apply list_find_named_None.
Qed.

Lemma filter_other_names name before (old new : SavedConnection) after :
  sc_Name old = name -> sc_Name new = name ->
  filter (fun c => ~ named name c) (before ++ new :: after)
  = filter (fun c => ~ named name c) (before ++ old :: after).
Proof.
  intros Ho Hn. rewrite !filter_app. f_equal.
  by rewrite !filter_cons_False by (by intros H; apply H).
Qed.

Lemma Save_names write conn s :
  names (Save write conn s).1 = names s
  \/ ((sc_Name conn ∉ names s)
      /\ names (Save write conn s).1 = names s ++ [sc_Name conn]).
Proof.
  destruct (Save_cases write conn s) as [[Hnew ->]|(before & old & after & Hl & Ho & Hb & ->)];
    unfold names; simpl.
  - right. split; [done|]. by rewrite fmap_app.
  - left. by rewrite Hl, !fmap_app, !fmap_cons, Ho.
Qed.

(** X24: [Save] replaces the first connection of the same name in its
    place, or appends the connection when the name is new.  So the names
    keep their order, the connection is afterwards the first one found
    under its name, and the connections of other names are untouched.
    The new list is handed to [save] once, and the list in memory is the
    new one also when the write fails. *)
Theorem Save_replaces_or_appends (write : WriteFile) (conn : SavedConnection)
    (s : ConnectionStore) :
  names (Save write conn s).1
  = (if decide (sc_Name conn ∈ names s) then names s else names s ++ [sc_Name conn])
  /\ (exists i, list_find (named (sc_Name conn)) (GetAll (Save write conn s).1)
                = Some (i, conn))
  /\ filter (fun c => ~ named (sc_Name conn) c) (GetAll (Save write conn s).1)
     = filter (fun c => ~ named (sc_Name conn) c) (GetAll s)
  /\ written (Save write conn s).1 = written s ++ [GetAll (Save write conn s).1]
  /\ (Save write conn s).2 = write (GetAll (Save write conn s).1).
Proof.
  unfold GetAll.
  destruct (Save_cases write conn s) as [[Hnew ->]|(before & old & after & Hl & Ho & Hb & ->)];
    simpl; unfold names; simpl.
  - rewrite decide_False by done. rewrite fmap_app. split; [done|]. split.
    + eexists. by apply list_find_named_first; [apply Hnew|].
    + split; [|done]. rewrite filter_app, filter_cons_False by (by intros H; apply H).
      by rewrite filter_nil, app_nil_r.
  - rewrite Hl. rewrite decide_True.
    2:{ rewrite fmap_app, fmap_cons, Ho. apply elem_of_app. right. left. }
    split; [by rewrite !fmap_app, !fmap_cons, Ho|]. split.
    + eexists. by apply list_find_named_first.
    + split; [|done]. by apply filter_other_names.
Qed.

(** X25: [Delete] removes the first connection of the given name and
    nothing else, and hands the shortened list to [save].  When no
    connection has the name, the store is left as it is, nothing is
    written and no error is returned. *)
Theorem Delete_removes_first (write : WriteFile) (name : string) (s : ConnectionStore) :
  (name ∉ names s -> Delete write name s = (s, None))
  /\ (name ∈ names s ->
      exists before old after,
        Connections s = before ++ old :: after
        /\ sc_Name old = name
        /\ (name ∉ (sc_Name <$> before))
        /\ Delete write name s
           = ({| Connections := before ++ after;
                 written := written s ++ [before ++ after] |},
              write (before ++ after))).
Proof.
  destruct (Delete_cases write name s) as [[Hnew ->]|(before & old & after & Hl & Ho & Hb & ->)].
  - split; [done|]. by intros H.
  - split.
    + intros H. exfalso. apply H. unfold names. rewrite Hl, fmap_app, fmap_cons, Ho.
      apply elem_of_app. right. left.
    + intros _. by exists before, old, after.
Qed.

(** X26: names that are unique stay unique under [Save] and [Delete],
    and after [Delete] of a name no connection has that name. *)
Theorem unique_names_are_kept (write : WriteFile) (conn : SavedConnection) (name : string)
    (s : ConnectionStore) :
  NoDup (names s) ->
  NoDup (names (Save write conn s).1)
  /\ NoDup (names (Delete write name s).1)
  /\ (name ∉ names (Delete write name s).1).
Proof.
  intros Hs. split.
  - destruct (Save_names write conn s) as [-> | [Hnew ->]]; [done|].
    apply NoDup_app. split; [done|]. split; [|apply NoDup_singleton].
    intros x Hx ->%list_elem_of_singleton. done.
  - destruct (Delete_cases write name s)
      as [[Hnew ->]|(before & old & after & Hl & Ho & Hb & ->)]; [done|].
    unfold names in *. simpl. rewrite Hl, fmap_app, fmap_cons, Ho in Hs.
    apply NoDup_app in Hs as (H1 & H2 & H3). apply NoDup_cons in H3 as [H3 H4].
    rewrite fmap_app. split.
    + apply NoDup_app. split; [done|]. split; [|done].
      intros x Hx Hx'. apply (H2 x Hx). by right.
    + intros [H|H]%elem_of_app; [by apply Hb|by apply H3].
Qed.

Lemma unique_names_are_kept_witness :
  NoDup (names {| Connections := [office; staging]; written := [] |})
  /\ NoDup (names (Save read_only office {| Connections := [office; staging]; written := [] |}).1)
  /\ NoDup (names (Delete read_only "office"
                     {| Connections := [office; staging]; written := [] |}).1)
  /\ ("office" ∉ names (Delete read_only "office"
                          {| Connections := [office; staging]; written := [] |}).1).
Proof.
  assert (NoDup (names {| Connections := [office; staging]; written := [] |})) as H.
  { apply (bool_decide_unpack _). reflexivity. }
  split; [exact H|].
  exact (unique_names_are_kept read_only office "office"
           {| Connections := [office; staging]; written := [] |} H).
Defined.

(** X27: saving a connection under a new name and deleting that name
    again gives back the list as it was; the file is written twice. *)
Theorem Save_then_Delete_restores (write1 write2 : WriteFile) (conn : SavedConnection)
    (s : ConnectionStore) :
  sc_Name conn ∉ names s ->
  Delete write2 (sc_Name conn) (Save write1 conn s).1
  = ({| Connections := Connections s;
        written := written s ++ [Connections s ++ [conn]; Connections s] |},
     write2 (Connections s)).
Proof.
  intros Hnew.
  destruct (Save_cases write1 conn s) as [[_ ->]|(before & old & after & Hl & Ho & Hb & _)].
  - unfold Delete, save; simpl.
    rewrite (list_find_named_first (sc_Name conn) (Connections s) conn []) by done.
    rewrite take_app_length. rewrite drop_ge by (rewrite length_app; simpl; lia).
    by rewrite app_nil_r, <- app_assoc.
  - exfalso. apply Hnew. unfold names. rewrite Hl, fmap_app, fmap_cons, Ho.
    apply elem_of_app. right. left.
Qed.

Lemma Save_then_Delete_restores_witness :
  (sc_Name staging ∉ names {| Connections := [office]; written := [] |})
  /\ Delete read_only (sc_Name staging)
       (Save read_only staging {| Connections := [office]; written := [] |}).1
     = ({| Connections := [office]; written := [] ++ [[office] ++ [staging]; [office]] |},
        read_only [office]).
Proof.
  assert (sc_Name staging ∉ names {| Connections := [office]; written := [] |}) as H.
  { apply (bool_decide_unpack _). reflexivity. }
  split; [exact H|].
  exact (Save_then_Delete_restores read_only read_only staging
           {| Connections := [office]; written := [] |} H).
Defined.

(** ** Defaults in column definitions *)

Lemma literal_body_shorter n : forall s t,
  (String.length s <= n)%nat -> literal_body s = Some t ->
  (String.length t < String.length s)%nat.
Proof.
  induction n as [|n IH]; intros [|c rest] t Hn H; simpl in *; try done; [lia|].
  destruct (Ascii.eqb c "'").
  - destruct rest as [|c' rest']; [injection H as <-; simpl; lia|].
    destruct (Ascii.eqb c' "'"); [|done].
    destruct (literal_body rest') as [t'|] eqn:E; [|done]. injection H as <-.
    simpl in *. assert (String.length t' < String.length rest')%nat; [|lia].
    apply IH; [lia|done].
  - destruct (literal_body rest) as [t'|] eqn:E; [|done]. injection H as <-.
    simpl. assert (String.length t' < String.length rest)%nat; [|lia].
    apply IH; [lia|done].
Qed.

Lemma literal_body_verbatim d :
  literal_body (d +:+ "'") = Some d -> lacks "'" d = true.
Proof.
  induction d as [|c d IH]; [done|]. rewrite string_app_cons. simpl.
  destruct (Ascii.eqb c "'") eqn:Ec.
  - destruct (d +:+ "'") as [|c' rest'] eqn:E; [by destruct d|].
    destruct (Ascii.eqb c' "'"); [|done].
    destruct (literal_body rest') as [t'|] eqn:E'; [|done]. simpl. intros [= _ ->].
    apply literal_body_shorter with (n := String.length rest') in E'; [|done].
    apply (f_equal String.length) in E. rewrite string_app_length in E. simpl in E. lia.
  - destruct (literal_body (d +:+ "'")) as [t'|] eqn:E; [|done]. simpl. intros [= ->].
    by rewrite IH.
Qed.



(** ** Pages *)

Lemma int64_small z : (- 2 ^ 63 <= z < 2 ^ 63)%Z -> int64 z = z.
Proof. intros H. unfold int64. rewrite Z.mod_small; lia. Qed.

Lemma pageOffset_in_range page pageSize :
  (- 2 ^ 63 <= page - 1 < 2 ^ 63)%Z ->
  (- 2 ^ 63 <= (page - 1) * pageSize < 2 ^ 63)%Z ->
  pageOffset page pageSize = Z.max 0 ((page - 1) * pageSize).
Proof.
  intros H1 H2. unfold pageOffset. rewrite (int64_small (page - 1)) by done.
  rewrite int64_small by done. destruct (Z.ltb_spec ((page - 1) * pageSize) 0); lia.
Qed.

(** X29: the offset of the page query is never negative.  As long as
    the product does not overflow, page [p >= 1] starts at row
    [(p - 1) * pageSize] and the next page starts where it ends; a page
    number below 1 gives the query of page 1. *)
Theorem pageQuery_pages (dbType : DBType) (tableName : string) (columns : list string)
    (page pageSize : Z) :
  (0 <= pageSize)%Z ->
  (- 2 ^ 63 <= page - 1)%Z -> (page + 1 < 2 ^ 63)%Z ->
  (- 2 ^ 63 <= (page - 1) * pageSize)%Z -> (page * pageSize < 2 ^ 63)%Z ->
  (0 <= pageOffset page pageSize)%Z
  /\ ((1 <= page)%Z ->
      pageOffset page pageSize = ((page - 1) * pageSize)%Z
      /\ pageOffset (page + 1) pageSize = (pageOffset page pageSize + pageSize)%Z)
  /\ ((page < 1)%Z ->
      pageQuery dbType tableName columns page pageSize
      = pageQuery dbType tableName columns 1 pageSize).
Proof.
  intros Hsize Hlow Hhigh Hprod1 Hprod2.
  assert (pageOffset page pageSize = Z.max 0 ((page - 1) * pageSize)) as Hoff.
  { apply pageOffset_in_range; [lia|nia]. }
  split; [lia|]. split.
  - intros Hp. split; [nia|].
    rewrite (pageOffset_in_range (page + 1)); [nia|lia|nia].
  - intros Hp. unfold pageQuery. rewrite Hoff.
    rewrite (pageOffset_in_range 1 pageSize) by lia.
    replace (Z.max 0 ((page - 1) * pageSize)) with (Z.max 0 ((1 - 1) * pageSize)) by nia.
    done.
Qed.

Lemma pageQuery_pages_witness :
  (0 <= pageOffset 0 50)%Z
  /\ ((1 <= 0)%Z ->
      pageOffset 0 50 = ((0 - 1) * 50)%Z
      /\ pageOffset (0 + 1) 50 = (pageOffset 0 50 + 50)%Z)
  /\ ((0 < 1)%Z ->
      pageQuery SQLServer "orders" ["id"; "total"] 0 50
      = pageQuery SQLServer "orders" ["id"; "total"] 1 50).
Proof.
  apply (pageQuery_pages SQLServer "orders" ["id"; "total"] 0 50); lia.
Defined.

(** ** Generated statements under the scanner *)

Lemma plain_app a b : plain (a +:+ b) = plain a && plain b.
Proof.
  induction a as [|c a IH]; [done|]. rewrite string_app_cons.
  unfold plain in *. simpl.
  destruct (Ascii.eqb c single_quote), (Ascii.eqb c double_quote), (Ascii.eqb c ";");
    simpl; try done; rewrite ?andb_false_r; try done.
Qed.

Lemma plain_begins_quote t :
  plain t = true -> begins single_quote t = false /\ begins double_quote t = false.
Proof.
  destruct t as [|c t]; [done|]. intros (E1 & E2 & _)%plain_cons. done.
Qed.

Lemma begins_app q a b : a <> "" -> begins q (a +:+ b) = begins q a.
Proof. by destruct a. Qed.

Lemma passes_plain t : plain t = true -> passes t.
Proof. intros H stmts cur q0 rest _ _. exists q0. by apply scan_plain. Qed.

Lemma passes_quoted q body :
  q = single_quote \/ q = double_quote -> lacks q body = true -> passes (quoted q body).
Proof.
  intros Hq Hbody stmts cur q0 rest H1 H2. exists q. unfold quoted.
  rewrite string_app_cons, scan_open by done.
  rewrite string_app_assoc, scan_inside by done.
  rewrite string_app_cons, string_app_nil_l, scan_close by (by destruct Hq as [-> | ->]).
  f_equal. f_equal. by flat.
Qed.

Lemma passes_app a b :
  passes a -> passes b -> b <> "" ->
  begins single_quote b = false -> begins double_quote b = false ->
  passes (a +:+ b).
Proof.
  intros Ha Hb Hne H1 H2 stmts cur q0 rest Hr1 Hr2.
  rewrite string_app_assoc.
  destruct (Ha stmts cur q0 (b +:+ rest)) as [q1 ->]; [by rewrite begins_app..|].
  destruct (Hb stmts (cur +:+ a) q1 rest) as [q2 ->]; [done..|].
  exists q2. by rewrite string_app_assoc.
Qed.

Lemma passes_plain_app a b : plain a = true -> passes b -> passes (a +:+ b).
Proof.
  intros Ha Hb stmts cur q0 rest Hr1 Hr2.
  rewrite string_app_assoc, scan_plain by done.
  destruct (Hb stmts (cur +:+ a) q0 rest) as [q2 ->]; [done..|].
  exists q2. by rewrite string_app_assoc.
Qed.

(** Two pieces with plain text between them. *)
Lemma passes_between a sep b :
  passes a -> plain sep = true -> sep <> "" -> passes b -> passes (a +:+ sep +:+ b).
Proof.
  intros Ha Hsep Hne Hb. destruct (plain_begins_quote sep Hsep) as [H1 H2].
  apply passes_app; [done|by apply passes_plain_app|by destruct sep| |].
  - by rewrite begins_app.
  - by rewrite begins_app.
Qed.

Lemma passes_Join pieces sep :
  Forall passes pieces -> plain sep = true -> sep <> "" -> passes (strings.Join pieces sep).
Proof.
  intros Hall Hsep Hne. unfold strings.Join.
  induction Hall as [|x l Hx Hl IH]; [by apply passes_plain|].
  destruct l as [|y l]; [done|].
  change (String.concat sep (x :: y :: l)) with (x +:+ sep +:+ String.concat sep (y :: l)).
  by apply passes_between.
Qed.

Lemma passes_quoteIdentifier dbType name :
  plain name = true -> passes (quoteIdentifier dbType name).
Proof.
  intros H. assert (lacks double_quote name = true) as Hq.
  { unfold plain in H. rewrite !andb_true_iff in H. tauto. }
  unfold quoteIdentifier.
  repeat case_decide;
    try (apply passes_plain; unfold backtick, bracket; rewrite !plain_app, H; reflexivity).
  - by apply (passes_quoted double_quote); [right|].
  - by apply (passes_quoted double_quote); [right|].
Qed.

Lemma passes_escapeValue v : clean_value v = true -> passes (escapeValue v).
Proof.
  intros H.
  assert (forall s, lacks single_quote s = true ->
            passes ("'" +:+ strings.ReplaceAll s "'" "''" +:+ "'")) as Hlit.
  { intros s Hs. rewrite ReplaceAll_lacks by done. by apply (passes_quoted single_quote); [left|]. }
  destruct v as [| | | | | |[|]| | |];
    first [exact (passes_plain _ H) | exact (Hlit _ H) | by apply passes_plain].
Qed.

Lemma passes_assignment dbType col v :
  plain col = true -> clean_value v = true ->
  passes (quoteIdentifier dbType col +:+ " = " +:+ escapeValue v).
Proof.
  intros Hc Hv.
  apply passes_between; [by apply passes_quoteIdentifier|done|done|by apply passes_escapeValue].
Qed.

Lemma clean_row_get row col : clean_row row -> clean_value (row_get row col) = true.
Proof.
  intros H. unfold row_get. destruct (row !! col) as [v|] eqn:E; [|done]. by apply (H col v).
Qed.

Ltac passes_step :=
  first [ apply passes_between; [|reflexivity|discriminate|]
        | apply passes_plain_app; [reflexivity|] ].

Lemma statement_body_keyword (c : ascii) (text : string) :
  asciiSpace c = false -> passes (String c text) -> statement_body (String c text).
Proof. intros Hc H. split; [done|]. by apply (TrimSpace_not_blank "" c text). Qed.

Lemma passes_wheres dbType (row : Row) primaryKeys :
  Forall (fun key => plain key = true) primaryKeys ->
  (forall key, key ∈ primaryKeys -> clean_value (row_get row key) = true) ->
  passes (strings.Join
            ((fun key => quoteIdentifier dbType key +:+ " = " +:+ escapeValue (row_get row key))
               <$> primaryKeys) " AND ").
Proof.
  intros Hkeys Hrow. apply passes_Join; [|done|done].
  apply Forall_fmap, Forall_forall. intros key Hkey.
  rewrite Forall_forall in Hkeys. apply passes_assignment; [by apply Hkeys|by apply Hrow].
Qed.

Lemma generateInsertSQL_body dbType tableName row columns :
  plain tableName = true -> Forall (fun col => plain col = true) columns -> clean_row row ->
  exists body, generateInsertSQL dbType tableName row columns = with_semicolon body
               /\ statement_body body.
Proof.
  intros Ht Hcols Hrow. rewrite Forall_forall in Hcols.
  exists ("INSERT INTO " +:+ quoteIdentifier dbType tableName +:+ " ("
          +:+ strings.Join (quoteIdentifier dbType
                              <$> filter (fun col => is_Some (row !! col)) columns) ", "
          +:+ ") VALUES ("
          +:+ strings.Join ((fun col => escapeValue (row_get row col))
                              <$> filter (fun col => is_Some (row !! col)) columns) ", "
          +:+ ")").
  split.
  - unfold generateInsertSQL, with_semicolon. by flat.
  - apply statement_body_keyword; [done|].
    change (passes ("INSERT INTO " +:+ quoteIdentifier dbType tableName +:+ " ("
          +:+ strings.Join (quoteIdentifier dbType
                              <$> filter (fun col => is_Some (row !! col)) columns) ", "
          +:+ ") VALUES ("
          +:+ strings.Join ((fun col => escapeValue (row_get row col))
                              <$> filter (fun col => is_Some (row !! col)) columns) ", "
          +:+ ")")).
    passes_step. passes_step; [by apply passes_quoteIdentifier|].
    passes_step.
    { apply passes_Join; [|done|done]. apply Forall_fmap, Forall_forall.
      intros col [_ Hcol]%list_elem_of_filter. by apply passes_quoteIdentifier, Hcols. }
    apply passes_app; [|by apply passes_plain|done..].
    apply passes_Join; [|done|done]. apply Forall_fmap, Forall_forall.
    intros col _. by apply passes_escapeValue, clean_row_get.
Qed.

Lemma generateUpdateSQL_body o s dbType tableName row primaryKeys :
  fair o ->
  plain tableName = true -> Forall (fun key => plain key = true) primaryKeys -> clean_row row ->
  exists body, generateUpdateSQL o s dbType tableName row primaryKeys = with_semicolon body
               /\ statement_body body.
Proof.
  intros Ho Ht Hkeys Hrow.
  set (sets := range o s row ≫= (fun '(col, val) =>
      let isPK := existsb (String.eqb col) primaryKeys in
      if negb isPK then [quoteIdentifier dbType col +:+ " = " +:+ escapeValue val] else [])).
  set (wheres := (fun pk => quoteIdentifier dbType pk +:+ " = " +:+ escapeValue (row_get row pk))
      <$> primaryKeys).
  exists ("UPDATE " +:+ quoteIdentifier dbType tableName +:+ " SET " +:+ strings.Join sets ", "
          +:+ " WHERE " +:+ strings.Join wheres " AND ").
  split.
  - unfold generateUpdateSQL, with_semicolon. fold sets. fold wheres. by flat.
  - apply statement_body_keyword; [done|].
    change (passes ("UPDATE " +:+ quoteIdentifier dbType tableName +:+ " SET "
                    +:+ strings.Join sets ", " +:+ " WHERE " +:+ strings.Join wheres " AND ")).
    passes_step. passes_step; [by apply passes_quoteIdentifier|].
    passes_step.
    + apply passes_Join; [|done|done]. apply Forall_forall. intros x Hx.
      apply list_elem_of_bind in Hx as ([col val] & Hx & Hin).
      apply elem_of_range in Hin; [|done]. destruct (Hrow col val Hin) as [Hc Hv].
      cbv zeta in Hx. destruct (negb (existsb (String.eqb col) primaryKeys));
        [|by apply elem_of_nil in Hx].
      apply list_elem_of_singleton in Hx as ->. by apply passes_assignment.
    + apply passes_wheres; [done|]. intros key _. by apply clean_row_get.
Qed.

Lemma generateDeleteSQL_body dbType tableName primaryKeys (pk : Row) :
  plain tableName = true -> Forall (fun key => plain key = true) primaryKeys ->
  (forall key, key ∈ primaryKeys -> clean_value (row_get pk key) = true) ->
  exists body, generateDeleteSQL dbType tableName primaryKeys pk = with_semicolon body
               /\ statement_body body.
Proof.
  intros Ht Hkeys Hpk.
  set (wheres := (fun key => quoteIdentifier dbType key +:+ " = " +:+ escapeValue (row_get pk key))
      <$> primaryKeys).
  exists ("DELETE FROM " +:+ quoteIdentifier dbType tableName +:+ " WHERE "
          +:+ strings.Join wheres " AND ").
  split.
  - unfold generateDeleteSQL, with_semicolon. fold wheres. by flat.
  - apply statement_body_keyword; [done|].
    change (passes ("DELETE FROM " +:+ quoteIdentifier dbType tableName +:+ " WHERE "
                    +:+ strings.Join wheres " AND ")).
    passes_step. passes_step; [by apply passes_quoteIdentifier|].
    by apply passes_wheres.
Qed.

Lemma Join_cons_cons x y l sep :
  strings.Join (x :: y :: l) sep = x +:+ sep +:+ strings.Join (y :: l) sep.
Proof. done. Qed.

(** The scanner on a script: each body comes back trimmed. *)
Lemma scan_script bodies : forall stmts cur q0,
  Forall statement_body bodies ->
  (forall b, TrimSpace (cur +:+ b) = TrimSpace b) ->
  flush (scan {| statements := stmts; current := cur; inString := false; stringChar := q0 |}
              (strings.Join (with_semicolon <$> bodies) line_feed))
  = stmts ++ (TrimSpace <$> bodies).
Proof.
  induction bodies as [|b l IH]; intros stmts cur q0 Hall Hcur.
  - simpl. unfold flush. simpl. rewrite <- (string_app_nil_r cur), Hcur. simpl.
    by rewrite app_nil_r.
  - apply Forall_cons in Hall as [[Hb Hne] Hl].
    assert (flush {| statements := stmts; current := cur +:+ b; inString := false;
                     stringChar := q0 |} = stmts ++ [TrimSpace b]) as Hflush.
    { unfold flush. simpl. rewrite Hcur. apply string_eqb_empty in Hne. by rewrite Hne. }
    destruct l as [|b' l].
    + simpl. unfold with_semicolon.
      destruct (Hb stmts cur q0 ";") as [q1 ->]; [done..|].
      rewrite scan_semicolon. simpl. unfold flush at 1. simpl.
      unfold flush. simpl. rewrite Hcur. apply string_eqb_empty in Hne. by rewrite Hne.
    + rewrite !fmap_cons, Join_cons_cons. unfold with_semicolon at 1.
      rewrite string_app_assoc.
      destruct (Hb stmts cur q0 (";" +:+ line_feed
                  +:+ strings.Join (with_semicolon b' :: (with_semicolon <$> l)) line_feed))
        as [q1 ->]; [done..|].
      rewrite string_app_cons, string_app_nil_l, scan_semicolon.
      rewrite scan_plain by done. rewrite <- fmap_cons, IH; [|done|done].
      unfold flush. simpl. rewrite Hcur. apply string_eqb_empty in Hne. rewrite Hne.
      by rewrite <- app_assoc.
Qed.

Lemma compareKeyedRows_bodies o targetType tableName columns primaryKeys sourceData targetData :
  fair o ->
  plain tableName = true ->
  Forall (fun col => plain col = true) columns ->
  Forall (fun key => plain key = true) primaryKeys ->
  clean_rows sourceData -> clean_rows targetData ->
  Forall (fun d => exists body, ddiff_SQL d = with_semicolon body /\ statement_body body)
    (compareKeyedRows o targetType tableName columns primaryKeys sourceData targetData).
Proof.
  intros Ho Ht Hcols Hkeys Hsource Htarget. unfold compareKeyedRows.
  apply Forall_app. split; apply Forall_forall; intros d Hd;
    apply list_elem_of_bind in Hd as ([key row] & Hd & Hin);
    apply elem_of_range in Hin; try done.
  - destruct (targetData !! key) as [targetRow|].
    + destruct (negb (rowsEqual row targetRow)); [|by apply elem_of_nil in Hd].
      apply list_elem_of_singleton in Hd as ->. simpl.
      apply generateUpdateSQL_body; eauto.
    + apply list_elem_of_singleton in Hd as ->. simpl.
      apply generateInsertSQL_body; eauto.
  - destruct (sourceData !! key); [by apply elem_of_nil in Hd|].
    apply list_elem_of_singleton in Hd as ->. simpl.
    apply generateDeleteSQL_body; [done|done|].
    intros k Hk. rewrite extractPrimaryKey_get by done.
    by eapply clean_row_get, Htarget.
Qed.

Lemma Forall_bodies (diffs : list DataDiffResult) :
  Forall (fun d => exists body, ddiff_SQL d = with_semicolon body /\ statement_body body) diffs ->
  exists bodies, ddiff_SQL <$> diffs = with_semicolon <$> bodies /\ Forall statement_body bodies.
Proof.
  induction 1 as [|d l (body & Hd & Hbody) _ (bodies & Hl & Hall)].
  - by exists [].
  - exists (body :: bodies). split; [by rewrite !fmap_cons, Hd, Hl|by constructor].
Qed.

(** X30: the script of a data sync splits back into its statements.
    When the table name, the column names and the values hold no quote
    and no semicolon of their own (texts may hold double quotes and
    semicolons, but no single quote), the statements of the entries,
    joined by line feeds, are returned by [splitSQLStatements] one for
    one and in order, each without its final semicolon and trimmed. *)
Theorem sync_script_splits_into_its_statements (o : RangeOrder) (targetType : DBType)
    (tableName : string) (columns primaryKeys : list string)
    (sourceData targetData : gmap string Row) :
  fair o ->
  plain tableName = true ->
  Forall (fun col => plain col = true) columns ->
  Forall (fun key => plain key = true) primaryKeys ->
  clean_rows sourceData -> clean_rows targetData ->
  ascii_text (script (compareKeyedRows o targetType tableName columns primaryKeys
                        sourceData targetData)) = true ->
  exists bodies,
    ddiff_SQL <$> compareKeyedRows o targetType tableName columns primaryKeys
                    sourceData targetData
    = with_semicolon <$> bodies
    /\ splitSQLStatements (script (compareKeyedRows o targetType tableName columns primaryKeys
                                     sourceData targetData))
       = TrimSpace <$> bodies.
Proof.
  intros Ho Ht Hcols Hkeys Hsource Htarget _.
  destruct (Forall_bodies _ (compareKeyedRows_bodies o targetType tableName columns primaryKeys
                               sourceData targetData Ho Ht Hcols Hkeys Hsource Htarget))
    as (bodies & Heq & Hall).
  exists bodies. split; [done|].
  unfold script, splitSQLStatements, scanner0. rewrite Heq.
  by rewrite scan_script.
Qed.

Lemma sync_rows_clean : clean_rows sync_source /\ clean_rows sync_target.
Proof.
  unfold sync_source, sync_target.
  split; intros key row [<- <-]%lookup_singleton_Some col v
                [[<- <-]|[_ [<- <-]%lookup_singleton_Some]]%lookup_insert_Some;
    split; vm_compute; reflexivity.
Qed.

Lemma sync_script_splits_into_its_statements_witness :
  exists bodies,
    ddiff_SQL <$> compareKeyedRows in_order SQLServer "users" ["id"; "name"] ["id"]
                    sync_source sync_target
    = with_semicolon <$> bodies
    /\ splitSQLStatements (script (compareKeyedRows in_order SQLServer "users" ["id"; "name"]
                                     ["id"] sync_source sync_target))
       = TrimSpace <$> bodies.
Proof.
  apply (sync_script_splits_into_its_statements in_order SQLServer "users" ["id"; "name"] ["id"]
           sync_source sync_target);
    [apply fair_in_order|reflexivity|by repeat constructor|by repeat constructor
    |apply sync_rows_clean|apply sync_rows_clean|vm_compute; reflexivity].
Defined.
